(** * clDES: discrete-event systems on sparse adjacency matrices

    A shallow embedding of the automaton engine of clDES:

    - [cldes/DESystem.hpp]: the concrete automaton [DESystem] with its
      labelled graph [graph_], its boolean shadow [bit_graph_], the per-state
      event summaries, the reachability kernel [BfsCalc_] and the reductions
      [AccessiblePart], [CoaccessiblePart], [TrimStates] and [Trim];
    - [cldes/src/operations/SuperProxyCore.hpp]: the virtual proxy of the
      monolithic supervisor synthesis, [SuperProxy].

    Conventions of the embedding.

    - [StorageIndex] and [StorageIndexSigned] are template parameters of the
      source; states are mathematical integers ([Z]) here and [-1] is the
      "no transition" sentinel, as in the source.  The index type is taken
      wide enough for the product state space, so no wrap-around is modelled.
    - An [EventsSet<NEvents>] is a bit vector, embedded as a binary natural
      ([N]) with [N.testbit], [N.lor], [N.land], [N.lxor] and [N.shiftr].
    - An Eigen sparse matrix is the list of its stored entries
      [(row, col, value)], kept sorted by coordinate and free of duplicate
      coordinates (compressed storage).
    - A [StatesSet] ([std::set]) is a strictly increasing list; the hash
      tables of states are lists without duplicates.
    - Reading a [std::vector] out of range is undefined in the source; the
      embedding reads the default value there and writes nothing.
    - The device-cache flags [dev_cache_enabled_] and [is_cache_outdated_]
      have no observable effect (the cache methods are empty) and are left
      out of the record. *)

From Stdlib Require Import ZArith NArith List Bool Lia.
From Stdlib Require Import Sorting.Sorted.
Import ListNotations.
Local Open Scope Z_scope.

(* ------------------------------------------------------------------ *)
(** * Events and sets of events *)

(** [cldes::ScalarType] is [uint8_t]; an event is its index. *)
Definition ScalarType := nat.

Module EventsSet.

Definition t := N.

Definition empty : t := 0%N.

Definition test (s : t) (e : ScalarType) : bool := N.testbit s (N.of_nat e).

Definition set (s : t) (e : ScalarType) : t := N.setbit s (N.of_nat e).

(** [set()] without argument: all [n] bits of an [EventsSet<n>]. *)
Definition set_all (n : nat) : t := N.ones (N.of_nat n).

Definition any (s : t) : bool := negb (N.eqb s 0).

Definition none (s : t) : bool := N.eqb s 0.

(** [s >>= 1] *)
Definition shr1 (s : t) : t := N.shiftr s 1.

Definition union (a b : t) : t := N.lor a b.
Definition inter (a b : t) : t := N.land a b.
Definition xor (a b : t) : t := N.lxor a b.

End EventsSet.

(* ------------------------------------------------------------------ *)
(** * Sets and tables of states *)

(** [StatesSet = std::set<StorageIndex>]: iteration is in ascending order. *)
Definition StatesSet := list Z.

Fixpoint emplace (s : Z) (l : StatesSet) : StatesSet :=
  match l with
  | [] => [s]
  | h :: t =>
      if s <? h then s :: l
      else if s =? h then l
      else h :: emplace s t
  end.

(** [StatesTableHost]: a hash table of states. *)
Definition StatesTableHost := list Z.

Definition contains (t : StatesTableHost) (q : Z) : bool :=
  existsb (Z.eqb q) t.

Definition insert (q : Z) (t : StatesTableHost) : StatesTableHost :=
  if contains t q then t else q :: t.

Definition erase (q : Z) (t : StatesTableHost) : StatesTableHost :=
  filter (fun s => negb (s =? q)) t.

(** [std::vector] read and in-place update at a state index. *)
Definition vec_get {A} (d : A) (v : list A) (i : Z) : A :=
  if i <? 0 then d else nth (Z.to_nat i) v d.

Fixpoint vec_upd_nat {A} (f : A -> A) (v : list A) (i : nat) : list A :=
  match v, i with
  | [], _ => []
  | x :: t, O => f x :: t
  | x :: t, S i' => x :: vec_upd_nat f t i'
  end.

Definition vec_upd {A} (f : A -> A) (v : list A) (i : Z) : list A :=
  if i <? 0 then v else vec_upd_nat f v (Z.to_nat i).

(* ------------------------------------------------------------------ *)
(** * Sparse matrices *)

Module Sparse.

Definition coord := (Z * Z)%type.

Definition coord_ltb (p q : coord) : bool :=
  (fst p <? fst q) || ((fst p =? fst q) && (snd p <? snd q)).

Definition coord_eqb (p q : coord) : bool :=
  (fst p =? fst q) && (snd p =? snd q).

Definition coord_lt (p q : coord) : Prop := coord_ltb p q = true.

Section Matrix.
Context {V : Type}.

Record matrix := mk {
  rows : Z;
  cols : Z;
  data : list (coord * V)
}.

(** Write at a coordinate: a new entry is stored in coordinate order, a
    stored one is merged with [dup old new]. *)
Fixpoint put (dup : V -> V -> V) (l : list (coord * V)) (p : coord) (v : V)
  : list (coord * V) :=
  match l with
  | [] => [(p, v)]
  | (p', v') :: t =>
      if coord_ltb p p' then (p, v) :: l
      else if coord_eqb p p' then (p', dup v' v) :: t
      else (p', v') :: put dup t p v
  end.

(** [resize(r, c)]: an empty matrix of that shape. *)
Definition resize (r c : Z) : matrix := mk r c [].

(** [setFromTriplets(begin, end, dup)] on a matrix of shape [r] x [c]. *)
Definition setFromTriplets (dup : V -> V -> V) (r c : Z)
           (ts : list (coord * V)) : matrix :=
  mk r c (fold_left (fun acc t => put dup acc (fst t) (snd t)) ts []).

(** [coeff(i, j)]: the stored value, or the zero [d] of the scalar. *)
Definition coeff (d : V) (m : matrix) (i j : Z) : V :=
  match find (fun e => coord_eqb (fst e) (i, j)) (data m) with
  | Some e => snd e
  | None => d
  end.

(** [coeffRef(i, j) = f(coeffRef(i, j))], inserting the zero [d] first. *)
Definition coeffRef (d : V) (f : V -> V) (m : matrix) (i j : Z) : matrix :=
  mk (rows m) (cols m) (put (fun old _ => f old) (data m) (i, j) (f d)).

(** [InnerIterator(m, i)] of a row-major matrix: the stored entries of
    row [i] as (column, value), by ascending column. *)
Definition row (m : matrix) (i : Z) : list (Z * V) :=
  map (fun e => (snd (fst e), snd e))
      (filter (fun e => fst (fst e) =? i) (data m)).

(** [InnerIterator(m, j)] of a column-major matrix: the stored entries of
    column [j] as (row, value). *)
Definition col (m : matrix) (j : Z) : list (Z * V) :=
  map (fun e => (fst (fst e), snd e))
      (filter (fun e => snd (fst e) =? j) (data m)).

Definition transpose (m : matrix) : matrix :=
  mk (cols m) (rows m)
     (fold_left
        (fun acc e => put (fun _ x => x) acc (snd (fst e), fst (fst e)) (snd e))
        (data m) []).

Definition nonZeros (m : matrix) : Z := Z.of_nat (length (data m)).

(** [setIdentity()] on a matrix of shape [n] x [n]. *)
Definition identity (one : V) (n : Z) : matrix :=
  mk n n (map (fun i => ((Z.of_nat i, Z.of_nat i), one)) (seq 0 (Z.to_nat n))).

Definition stored (l : list (coord * V)) (p : coord) : Prop :=
  In p (map fst l).

Definition canonical (l : list (coord * V)) : Prop :=
  StronglySorted coord_lt (map fst l).

End Matrix.
Arguments matrix : clear implicits.

(** Sparse product over the boolean semiring: an entry [(r, c)] is stored
    as soon as some [k] has both [a(r, k)] and [x(k, c)] stored. *)
Definition prod (a x : matrix bool) : matrix bool :=
  mk (rows a) (cols x)
     (fold_left
        (fun acc ea =>
           fold_left
             (fun acc' ex =>
                if snd (fst ea) =? fst (fst ex)
                then put orb acc' (fst (fst ea), snd (fst ex)) (snd ea && snd ex)
                else acc')
             (data x) acc)
        (data a) []).

End Sparse.

(* ------------------------------------------------------------------ *)
(** * The concrete automaton, [cldes::DESystem] *)

Record DESystem := mkDES {
  states_number_ : Z;
  init_state_ : Z;
  marked_states_ : StatesSet;
  events_ : EventsSet.t;
  states_events_ : list EventsSet.t;
  inv_states_events_ : list EventsSet.t;
  graph_ : Sparse.matrix EventsSet.t;
  bit_graph_ : Sparse.matrix bool;
  inv_graph_ : option (Sparse.matrix EventsSet.t)
}.

(** [DESystem(aStatesNumber, aInitState, aMarkedStates)] *)
Definition DESystem_new (aStatesNumber aInitState : Z) (aMarkedStates : StatesSet)
  : DESystem :=
  {| states_number_ := aStatesNumber;
     init_state_ := aInitState;
     marked_states_ := aMarkedStates;
     events_ := EventsSet.empty;
     states_events_ := repeat EventsSet.empty (Z.to_nat aStatesNumber);
     inv_states_events_ := repeat EventsSet.empty (Z.to_nat aStatesNumber);
     graph_ := Sparse.resize aStatesNumber aStatesNumber;
     bit_graph_ := Sparse.identity true aStatesNumber;
     inv_graph_ := None |}.

(** [DESystem()] *)
Definition DESystem_default : DESystem :=
  {| states_number_ := 0;
     init_state_ := 0;
     marked_states_ := [];
     events_ := EventsSet.empty;
     states_events_ := [];
     inv_states_events_ := [];
     graph_ := Sparse.resize 0 0;
     bit_graph_ := Sparse.identity true 0;
     inv_graph_ := None |}.

(** Modelled from the spec: the write primitive [sys(i, j) = e] of
    [cldes/TransitionProxy.hpp], which is not among the sources.
    "set_transition(i, j, e): add event e to Γ[i,j]; idempotent if already
    present. Updates B, E, F[i], F⁻¹[j]", with B stored as Bᵀ + I. *)
Definition set_transition (A : DESystem) (i j : Z) (e : ScalarType) : DESystem :=
  {| states_number_ := states_number_ A;
     init_state_ := init_state_ A;
     marked_states_ := marked_states_ A;
     events_ := EventsSet.set (events_ A) e;
     states_events_ :=
       vec_upd (fun s => EventsSet.set s e) (states_events_ A) i;
     inv_states_events_ :=
       vec_upd (fun s => EventsSet.set s e) (inv_states_events_ A) j;
     graph_ :=
       Sparse.coeffRef EventsSet.empty (fun s => EventsSet.set s e) (graph_ A) i j;
     bit_graph_ := Sparse.coeffRef false (fun _ => true) (bit_graph_ A) j i;
     inv_graph_ := inv_graph_ A |}.

Definition set_transitions (A : DESystem) (ts : list (Z * Z * ScalarType))
  : DESystem :=
  fold_left (fun A t => set_transition A (fst (fst t)) (snd (fst t)) (snd t)) ts A.

(** [InsertEvents(aEvents)] *)
Definition InsertEvents (A : DESystem) (aEvents : EventsSet.t) : DESystem :=
  {| states_number_ := states_number_ A;
     init_state_ := init_state_ A;
     marked_states_ := marked_states_ A;
     events_ := aEvents;
     states_events_ := states_events_ A;
     inv_states_events_ := inv_states_events_ A;
     graph_ := graph_ A;
     bit_graph_ := bit_graph_ A;
     inv_graph_ := inv_graph_ A |}.

(** [operator()(aQfrom, aQto) const] *)
Definition label (A : DESystem) (aQfrom aQto : Z) : EventsSet.t :=
  Sparse.coeff EventsSet.empty (graph_ A) aQfrom aQto.

Definition ContainsTrans (A : DESystem) (aQ : Z) (aEvent : ScalarType) : bool :=
  EventsSet.test (vec_get EventsSet.empty (states_events_ A) aQ) aEvent.

Definition Trans (A : DESystem) (aQ : Z) (aEvent : ScalarType) : Z :=
  if negb (EventsSet.test (vec_get EventsSet.empty (states_events_ A) aQ) aEvent)
  then -1
  else
    match find (fun qiter => EventsSet.test (snd qiter) aEvent)
               (Sparse.row (graph_ A) aQ) with
    | Some qiter => fst qiter
    | None => -1
    end.

(** [ContainsInvTrans] and [InvTrans] read [inv_states_events_[aQ]]; the
    result is [None] where the source has undefined behaviour: a state index
    outside the vector, or a dereference of a null [inv_graph_]. *)
Definition ContainsInvTrans (A : DESystem) (aQ : Z) (aEvent : ScalarType)
  : option bool :=
  if aQ <? 0 then None
  else match nth_error (inv_states_events_ A) (Z.to_nat aQ) with
       | Some s => Some (EventsSet.test s aEvent)
       | None => None
       end.

Definition InvTrans (A : DESystem) (aQ : Z) (aEvent : ScalarType)
  : option (list Z) :=
  if aQ <? 0 then None
  else match nth_error (inv_states_events_ A) (Z.to_nat aQ) with
       | None => None
       | Some s =>
           if negb (EventsSet.test s aEvent) then Some []
           else
             match inv_graph_ A with
             | None => None
             | Some g =>
                 Some (map fst
                         (filter (fun qiter => EventsSet.test (snd qiter) aEvent)
                                 (Sparse.row g aQ)))
             end
       end.

Definition GetStateEvents (A : DESystem) (aQ : Z) : EventsSet.t :=
  vec_get EventsSet.empty (states_events_ A) aQ.

Definition GetInvStateEvents (A : DESystem) (aQ : Z) : EventsSet.t :=
  vec_get EventsSet.empty (inv_states_events_ A) aQ.

Definition AllocateInvertedGraph (A : DESystem) : DESystem :=
  {| states_number_ := states_number_ A;
     init_state_ := init_state_ A;
     marked_states_ := marked_states_ A;
     events_ := events_ A;
     states_events_ := states_events_ A;
     inv_states_events_ := inv_states_events_ A;
     graph_ := graph_ A;
     bit_graph_ := bit_graph_ A;
     inv_graph_ := Some (Sparse.transpose (graph_ A)) |}.

Definition ClearInvertedGraph (A : DESystem) : DESystem :=
  {| states_number_ := states_number_ A;
     init_state_ := init_state_ A;
     marked_states_ := marked_states_ A;
     events_ := events_ A;
     states_events_ := states_events_ A;
     inv_states_events_ := inv_states_events_ A;
     graph_ := graph_ A;
     bit_graph_ := bit_graph_ A;
     inv_graph_ := None |}.

(* ------------------------------------------------------------------ *)
(** * The reachability kernel *)

(** The loop shared by [BfsCalc_], [CoaccessiblePart] and [TrimStates]:
    [n] is the number of iterations left, [g] the matrix multiplied from the
    left, [x] and [y] the two state matrices and [n_accessed_states] the
    count of stored entries of the previous product. *)
Fixpoint bfs_loop (n : nat) (g x y : Sparse.matrix bool) (n_accessed_states : Z)
  : Sparse.matrix bool :=
  match n with
  | O => y
  | S n' =>
      let y' := Sparse.prod g x in
      if n_accessed_states =? Sparse.nonZeros y' then y'
      else bfs_loop n' g y' y' (Sparse.nonZeros y')
  end.

(** The rows stored in column [s] of [y], gathered in a [StatesSet]. *)
Definition column_states (y : Sparse.matrix bool) (s : Z) : StatesSet :=
  fold_left (fun acc e => emplace (fst e) acc) (Sparse.col y s) [].

(** [BfsCalc_(aHostX, nullptr, aStatesMap)]: the array of the accessed sets,
    one per initial node. *)
Definition BfsCalc_ (A : DESystem) (aHostX : Sparse.matrix bool) : list StatesSet :=
  let n_initial_nodes := Sparse.cols aHostX in
  let y := bfs_loop (Z.to_nat (states_number_ A)) (bit_graph_ A) aHostX
                    (Sparse.resize (states_number_ A) n_initial_nodes) 0 in
  map (fun s => column_states y (Z.of_nat s)) (seq 0 (Z.to_nat (Sparse.cols y))).

(** [Bfs_(aInitialNode, nullptr)] *)
Definition Bfs_node (A : DESystem) (aInitialNode : Z) : list StatesSet :=
  BfsCalc_ A (Sparse.coeffRef false (fun _ => true)
                (Sparse.resize (states_number_ A) 1) aInitialNode 0).

(** [Bfs_()] *)
Definition Bfs_ (A : DESystem) : list StatesSet := Bfs_node A (init_state_ A).

Definition AccessiblePart (A : DESystem) : StatesSet :=
  nth 0 (Bfs_ A) [].

(** The seed matrix of the backward searches: column [pos] is lit at the
    [pos]-th marked state. *)
Fixpoint marked_seed (x : Sparse.matrix bool) (ms : list Z) (pos : Z)
  : Sparse.matrix bool :=
  match ms with
  | [] => x
  | state :: ms' =>
      marked_seed (Sparse.coeffRef false (fun _ => true) x state pos) ms' (pos + 1)
  end.

Definition CoaccessiblePart (A : DESystem) : StatesSet :=
  let invgraph := Sparse.transpose (bit_graph_ A) in
  let n_marked := Z.of_nat (length (marked_states_ A)) in
  let x := marked_seed (Sparse.resize (states_number_ A) n_marked)
                       (marked_states_ A) 0 in
  let y := bfs_loop (Z.to_nat (states_number_ A)) invgraph x
                    (Sparse.resize (states_number_ A) n_marked) 0 in
  fold_left
    (fun acc s => fold_left (fun acc' e => emplace (fst e) acc')
                            (Sparse.col y (Z.of_nat s)) acc)
    (seq 0 (Z.to_nat (Sparse.cols y))) [].

Definition TrimStates (A : DESystem) : StatesSet :=
  let accpart := fold_left (fun t s => insert s t) (AccessiblePart A) [] in
  let invgraph := Sparse.transpose (bit_graph_ A) in
  let n_marked := Z.of_nat (length (marked_states_ A)) in
  let xtriplet :=
    map (fun sp => ((fst sp, Z.of_nat (snd sp)), true))
        (combine (marked_states_ A) (seq 0 (length (marked_states_ A)))) in
  let x := Sparse.setFromTriplets (fun _ _ => true)
             (states_number_ A) n_marked xtriplet in
  let y := bfs_loop (Z.to_nat (states_number_ A)) invgraph x
                    (Sparse.resize (states_number_ A) n_marked) 0 in
  fold_left
    (fun acc s => fold_left
                    (fun acc' e =>
                       if contains accpart (fst e) then emplace (fst e) acc'
                       else acc')
                    (Sparse.col y (Z.of_nat s)) acc)
    (seq 0 (Z.to_nat (Sparse.cols y))) [].

(** [Bfs_(aInitialNodes, nullptr)]: one search per initial node, the
    [k]-th node lighting column [k] of the seed matrix. *)
Definition Bfs_nodes (A : DESystem) (aInitialNodes : list Z) : list StatesSet :=
  BfsCalc_ A (marked_seed
                (Sparse.resize (states_number_ A)
                               (Z.of_nat (length aInitialNodes)))
                aInitialNodes 0).

(* ------------------------------------------------------------------ *)
(** * Trim *)

(** What the slice-by-slice rebuild of [Trim] accumulates. *)
Record TrimBuild := mkTB {
  tb_triplet : list (Sparse.coord * EventsSet.t);
  tb_bittriplet : list (Sparse.coord * bool);
  tb_events : EventsSet.t;
  tb_states_events : list EventsSet.t;
  tb_inv_states_events : list EventsSet.t
}.

(** [statesmap]: old state position -> new state position, [-1] when the
    state is cut. *)
Definition fill_statesmap (n_old : Z) (trimstates : StatesSet) : list Z :=
  snd (fold_left
         (fun ds s => (fst ds + 1, vec_upd (fun _ => fst ds) (snd ds) s))
         trimstates (0, repeat (-1) (Z.to_nat n_old))).

(** One step of the inner loop of [Trim]: the entry [e] of row [s] of the old
    graph, seen while filling the new row [row_id]. *)
Definition trim_edge (statesmap : list Z) (row_id : Z)
           (b : TrimBuild) (e : Z * EventsSet.t) : TrimBuild :=
  if negb (vec_get (-1) statesmap (fst e) =? -1) then
    let col_id := vec_get (-1) statesmap (fst e) in
    let tables := (0 <? length (tb_states_events b))%nat in
    {| tb_triplet := tb_triplet b ++ [((row_id, col_id), snd e)];
       tb_bittriplet := tb_bittriplet b ++ [((col_id, row_id), true)];
       tb_events := EventsSet.union (tb_events b) (snd e);
       tb_states_events :=
         if tables
         then vec_upd (fun s => EventsSet.union s (snd e)) (tb_states_events b) row_id
         else tb_states_events b;
       tb_inv_states_events :=
         if tables
         then vec_upd (fun s => EventsSet.union s (snd e))
                      (tb_inv_states_events b) col_id
         else tb_inv_states_events b |}
  else b.

(** One step of the outer loop of [Trim]: the trim state [s] becomes row
    [row_id]. *)
Definition trim_row (old_graph : Sparse.matrix EventsSet.t) (statesmap : list Z)
           (rb : Z * TrimBuild) (s : Z) : Z * TrimBuild :=
  let row_id := fst rb in
  let b := snd rb in
  let tables := (0 <? length (tb_states_events b))%nat in
  let b0 :=
    {| tb_triplet := tb_triplet b;
       tb_bittriplet := tb_bittriplet b;
       tb_events := tb_events b;
       tb_states_events :=
         if tables
         then vec_upd (fun _ => EventsSet.empty) (tb_states_events b) row_id
         else tb_states_events b;
       tb_inv_states_events :=
         if tables
         then vec_upd (fun _ => EventsSet.empty) (tb_inv_states_events b) row_id
         else tb_inv_states_events b |} in
  (row_id + 1,
   fold_left (trim_edge statesmap row_id) (Sparse.row old_graph s) b0).

Definition Trim (A : DESystem) : DESystem :=
  let trimstates := TrimStates A in
  if Z.of_nat (length trimstates) =? Sparse.rows (graph_ A) then A
  else
    let statesmap := fill_statesmap (states_number_ A) trimstates in
    let old_graph := graph_ A in
    let n := Z.of_nat (length trimstates) in
    let tables := (0 <? length (states_events_ A))%nat in
    let b0 :=
      {| tb_triplet := [];
         tb_bittriplet := [];
         tb_events := EventsSet.empty;
         tb_states_events :=
           if tables then firstn (length trimstates) (states_events_ A)
           else states_events_ A;
         tb_inv_states_events :=
           if tables then firstn (length trimstates) (inv_states_events_ A)
           else inv_states_events_ A |} in
    let b := snd (fold_left (trim_row old_graph statesmap) trimstates (0, b0)) in
    {| states_number_ := n;
       init_state_ := init_state_ A;
       marked_states_ :=
         fold_left
           (fun acc s => if negb (vec_get (-1) statesmap s =? -1)
                         then emplace (vec_get (-1) statesmap s) acc else acc)
           (marked_states_ A) [];
       events_ := tb_events b;
       states_events_ := tb_states_events b;
       inv_states_events_ := tb_inv_states_events b;
       graph_ := Sparse.setFromTriplets EventsSet.union n n (tb_triplet b);
       bit_graph_ := Sparse.setFromTriplets (fun _ _ => true) n n (tb_bittriplet b);
       inv_graph_ := inv_graph_ A |}.

(* ------------------------------------------------------------------ *)
(** * The virtual product *)

(** Modelled from the spec: the virtual product [op::SyncSysProxy] of
    [cldes/operations/SyncSysProxy.hpp], which is not among the sources.
    It stores its two operands, "the cached event partitions
    only_P = E_P \ E_Q, only_Q = E_Q \ E_P, shared = E_P ∩ E_Q, and the
    derived alphabet E = E_P ∪ E_Q"; the product state (x, y) is the integer
    y·S_P + x and the initial state is q0_Q·S_P + q0_P. *)
Record SyncSysProxy := mkSync {
  vs_sys0 : DESystem;
  vs_sys1 : DESystem;
  vs_n_states_sys0 : Z;
  vs_only_in_0 : EventsSet.t;
  vs_only_in_1 : EventsSet.t;
  vs_shared : EventsSet.t;
  vs_events : EventsSet.t;
  vs_init_state : Z
}.

(** Modelled from the spec: the constructor of the virtual product, not
    among the sources (see [SyncSysProxy]). *)
Definition SyncSysProxy_new (aSys0 aSys1 : DESystem) : SyncSysProxy :=
  {| vs_sys0 := aSys0;
     vs_sys1 := aSys1;
     vs_n_states_sys0 := states_number_ aSys0;
     vs_only_in_0 := N.ldiff (events_ aSys0) (events_ aSys1);
     vs_only_in_1 := N.ldiff (events_ aSys1) (events_ aSys0);
     vs_shared := EventsSet.inter (events_ aSys0) (events_ aSys1);
     vs_events := EventsSet.union (events_ aSys0) (events_ aSys1);
     vs_init_state := init_state_ aSys1 * states_number_ aSys0 + init_state_ aSys0 |}.

(** Modelled from the spec: the transition function of the virtual product,
    not among the sources.  "If e ∉ E_P ∪ E_Q: disabled.  If e ∈ shared:
    enabled iff both P.contains_trans(x,e) and Q.contains_trans(y,e);
    successor is Q.trans(y,e)·S_P + P.trans(x,e).  If e ∈ only_P: enabled iff
    P.contains_trans(x,e); successor is y·S_P + P.trans(x,e).  If e ∈ only_Q:
    enabled iff Q.contains_trans(y,e); successor is Q.trans(y,e)·S_P + x." *)
Definition vs_trans (vs : SyncSysProxy) (aQ : Z) (aEvent : ScalarType) : Z :=
  let x := aQ mod vs_n_states_sys0 vs in
  let y := aQ / vs_n_states_sys0 vs in
  if negb (EventsSet.test (vs_events vs) aEvent) then -1
  else if EventsSet.test (vs_shared vs) aEvent then
    if ContainsTrans (vs_sys0 vs) x aEvent && ContainsTrans (vs_sys1 vs) y aEvent
    then Trans (vs_sys1 vs) y aEvent * vs_n_states_sys0 vs
         + Trans (vs_sys0 vs) x aEvent
    else -1
  else if EventsSet.test (vs_only_in_0 vs) aEvent then
    if ContainsTrans (vs_sys0 vs) x aEvent
    then y * vs_n_states_sys0 vs + Trans (vs_sys0 vs) x aEvent
    else -1
  else
    if ContainsTrans (vs_sys1 vs) y aEvent
    then Trans (vs_sys1 vs) y aEvent * vs_n_states_sys0 vs + x
    else -1.

(** Modelled from the spec: the inverse transitions of the virtual product,
    not among the sources.  "each inverse-predecessor pair (x',y') is formed
    by taking the Cartesian product of P.inv_trans(x,e) (or {x} if e ∉ E_P)
    with Q.inv_trans(y,e) (or {y} if e ∉ E_Q), encoded back into the product
    index."  The result is [None] when an operand's inverse graph is read
    without having been allocated. *)
Definition vs_invtrans (vs : SyncSysProxy) (aQ : Z) (aEvent : ScalarType)
  : option (list Z) :=
  let x := aQ mod vs_n_states_sys0 vs in
  let y := aQ / vs_n_states_sys0 vs in
  if negb (EventsSet.test (vs_events vs) aEvent) then Some []
  else
    match (if EventsSet.test (events_ (vs_sys0 vs)) aEvent
           then InvTrans (vs_sys0 vs) x aEvent else Some [x]),
          (if EventsSet.test (events_ (vs_sys1 vs)) aEvent
           then InvTrans (vs_sys1 vs) y aEvent else Some [y]) with
    | Some xs, Some ys =>
        Some (flat_map
                (fun x' => map (fun y' => y' * vs_n_states_sys0 vs + x') ys) xs)
    | _, _ => None
    end.

(** Modelled from the spec: "The inverse graph of the virtual product is
    allocated by recursively allocating the inverse graphs of P and Q"
    (and released likewise); not among the sources. *)
Definition vs_allocateInvertedGraph (vs : SyncSysProxy) : SyncSysProxy :=
  {| vs_sys0 := AllocateInvertedGraph (vs_sys0 vs);
     vs_sys1 := AllocateInvertedGraph (vs_sys1 vs);
     vs_n_states_sys0 := vs_n_states_sys0 vs;
     vs_only_in_0 := vs_only_in_0 vs;
     vs_only_in_1 := vs_only_in_1 vs;
     vs_shared := vs_shared vs;
     vs_events := vs_events vs;
     vs_init_state := vs_init_state vs |}.

(* ------------------------------------------------------------------ *)
(** * Supervisor synthesis, [op::SuperProxy] *)

Section Supervisor.

(** The template parameter [NEvents]. *)
Variable NEvents : nat.

(** The events of an [EventsSet<NEvents>], by ascending index. *)
Definition events_of (s : EventsSet.t) : list ScalarType :=
  filter (EventsSet.test s) (seq 0 NEvents).

(** Modelled from the spec: the predecessors of one bad state under one
    uncontrollable event, inside [removeBadStates]: "each predecessor q'
    with q' ∉ R: move q' from V (if present) to R and push it". *)
Definition rbs_preds (fVR : list Z * StatesTableHost * StatesTableHost)
           (preds : list Z) : list Z * StatesTableHost * StatesTableHost :=
  fold_left
    (fun acc q' =>
       let f := fst (fst acc) in
       let V := snd (fst acc) in
       let R := snd acc in
       if contains R q' then acc
       else (q' :: f, erase q' V, insert q' R))
    preds fVR.

(** Modelled from the spec: the events of one bad state inside
    [removeBadStates]: "for each uncontrollable event e ∈ U and each
    predecessor q' ∈ VP.inv_trans(q,e)". *)
Fixpoint rbs_events (vs : SyncSysProxy) (q : Z) (es : list ScalarType)
         (fVR : list Z * StatesTableHost * StatesTableHost)
  : option (list Z * StatesTableHost * StatesTableHost) :=
  match es with
  | [] => Some fVR
  | e :: es' =>
      match vs_invtrans vs q e with
      | None => None
      | Some preds => rbs_events vs q es' (rbs_preds fVR preds)
      end
  end.

(** Modelled from the spec: the closure loop of [removeBadStates]:
    "repeatedly pop the next bad state q from an internal stack".  The
    result is [None] when the fuel runs out. *)
Fixpoint rbs_loop (fuel : nat) (vs : SyncSysProxy) (aNonContrBit : EventsSet.t)
         (f : list Z) (V R : StatesTableHost)
  : option (StatesTableHost * StatesTableHost) :=
  match f with
  | [] => Some (V, R)
  | q :: f' =>
      match fuel with
      | O => None
      | S fuel' =>
          match rbs_events vs q (events_of aNonContrBit) (f', V, R) with
          | None => None
          | Some fVR =>
              rbs_loop fuel' vs aNonContrBit
                       (fst (fst fVR)) (snd (fst fVR)) (snd fVR)
          end
      end
  end.

(** Modelled from the spec: [removeBadStates] of the operations library,
    which is not among the sources.  "remove_bad_states(q₀) is a backward
    closure over uncontrollable events: put q₀ into R; repeatedly pop the
    next bad state q from an internal stack; for each uncontrollable event
    e ∈ U and each predecessor q' ∈ VP.inv_trans(q,e) with q' ∉ R, move q'
    from V (if present) to R and push it." *)
Definition removeBadStates (fuel : nat) (aVirtualSys : SyncSysProxy)
           (aC : StatesTableHost) (aQ : Z) (aNonContrBit : EventsSet.t)
           (aRmTable : StatesTableHost)
  : option (StatesTableHost * StatesTableHost) :=
  rbs_loop fuel aVirtualSys aNonContrBit [aQ] aC (insert aQ aRmTable).

(** The first loop of [findRemovedStates_]: the uncontrollable events in
    bit arrays, as the pair ([non_contr_bit], [p_non_contr_bit]). *)
Definition non_contr_bits (aP : DESystem) (virtualsys : SyncSysProxy)
           (aNonContr : list ScalarType) : EventsSet.t * EventsSet.t :=
  fold_left
    (fun bits event =>
       if EventsSet.test (events_ aP) event then
         (if EventsSet.test (vs_events virtualsys) event
          then EventsSet.set (fst bits) event else fst bits,
          EventsSet.set (snd bits) event)
       else bits)
    aNonContr (EventsSet.empty, EventsSet.empty).

(** The [for] loop of [findRemovedStates_] that sets [badstate]. *)
Definition badstate (aP : DESystem) (virtualsys : SyncSysProxy)
           (p_non_contr_bit : EventsSet.t) (q : Z) : bool :=
  let qx := q mod vs_n_states_sys0 virtualsys in
  existsb
    (fun event =>
       EventsSet.test p_non_contr_bit event
       && negb (Trans aP qx event =? -1)
       && (vs_trans virtualsys q event =? -1))
    (seq 0 NEvents).

(** The [while (event_it.any())] loop of [findRemovedStates_]; [n] bounds
    the number of iterations and is [NEvents], the width of [event_it]. *)
Fixpoint push_successors (n : nat) (virtualsys : SyncSysProxy) (q : Z)
         (event : ScalarType) (event_it : EventsSet.t)
         (V R : StatesTableHost) (f : list Z) : list Z :=
  match n with
  | O => f
  | S n' =>
      if EventsSet.any event_it then
        let fsqe := vs_trans virtualsys q event in
        let f' :=
          if negb (fsqe =? -1) && EventsSet.test event_it 0%nat then
            if negb (contains R fsqe) then
              if negb (contains V fsqe) then fsqe :: f else f
            else f
          else f in
        push_successors n' virtualsys q (S event) (EventsSet.shr1 event_it) V R f'
      else f
  end.

(** The [while (!f.empty())] loop of [findRemovedStates_]; the result is
    the table [virtual_states_], or [None] when the fuel runs out or an
    inverse graph is read unallocated. *)
Fixpoint find_loop (fuel : nat) (aP : DESystem) (virtualsys : SyncSysProxy)
         (non_contr_bit p_non_contr_bit : EventsSet.t)
         (f : list Z) (virtual_states rmtable : StatesTableHost)
  : option StatesTableHost :=
  match f with
  | [] => Some virtual_states
  | q :: f' =>
      match fuel with
      | O => None
      | S fuel' =>
          if negb (contains rmtable q) && negb (contains virtual_states q) then
            if badstate aP virtualsys p_non_contr_bit q then
              match removeBadStates (S fuel') virtualsys virtual_states q
                                    non_contr_bit rmtable with
              | None => None
              | Some VR =>
                  find_loop fuel' aP virtualsys non_contr_bit p_non_contr_bit
                            f' (fst VR) (snd VR)
              end
            else
              let V := insert q virtual_states in
              find_loop fuel' aP virtualsys non_contr_bit p_non_contr_bit
                        (push_successors NEvents virtualsys q 0%nat
                                         (EventsSet.set_all NEvents) V rmtable f')
                        V rmtable
          else
            find_loop fuel' aP virtualsys non_contr_bit p_non_contr_bit
                      f' virtual_states rmtable
      end
  end.

(** [findRemovedStates_(aP, aE, aNonContr)], called by the constructor on
    an empty [virtual_states_]: the table of the surviving states. *)
Definition findRemovedStates_ (fuel : nat) (aP aE : DESystem)
           (aNonContr : list ScalarType) : option StatesTableHost :=
  let virtualsys0 := SyncSysProxy_new aP aE in
  let bits := non_contr_bits aP virtualsys0 aNonContr in
  let virtualsys := vs_allocateInvertedGraph virtualsys0 in
  find_loop fuel aP virtualsys (fst bits) (snd bits)
            [vs_init_state virtualsys] [] [].

Record SuperProxy := mkSuper {
  sp_states_number_ : Z;
  sp_init_state_ : Z;
  sp_marked_states_ : StatesSet;
  sp_events_ : EventsSet.t;
  sys0_ : DESystem;
  sys1_ : DESystem;
  n_states_sys0_ : Z;
  only_in_plant_ : EventsSet.t;
  only_in_spec_ : EventsSet.t;
  virtual_states_ : StatesTableHost;
  triplet_ : list (Sparse.coord * EventsSet.t)
}.

(** [SuperProxy(aPlant, aSpec, aNonContr)] *)
Definition SuperProxy_new (fuel : nat) (aPlant aSpec : DESystem)
           (aNonContr : list ScalarType) : option SuperProxy :=
  let in_both := EventsSet.inter (events_ aPlant) (events_ aSpec) in
  match findRemovedStates_ fuel aPlant aSpec aNonContr with
  | None => None
  | Some V =>
      Some {| sp_states_number_ := Z.of_nat (length V);
              sp_init_state_ :=
                init_state_ aSpec * states_number_ aPlant + init_state_ aPlant;
              sp_marked_states_ :=
                fold_left
                  (fun acc q0 =>
                     fold_left
                       (fun acc' q1 => emplace (q1 * states_number_ aPlant + q0) acc')
                       (marked_states_ aSpec) acc)
                  (marked_states_ aPlant) [];
              sp_events_ := EventsSet.union (events_ aPlant) (events_ aSpec);
              sys0_ := aPlant;
              sys1_ := aSpec;
              n_states_sys0_ := states_number_ aPlant;
              only_in_plant_ := EventsSet.xor (events_ aPlant) in_both;
              only_in_spec_ := EventsSet.xor (events_ aSpec) in_both;
              virtual_states_ := V;
              triplet_ := [] |}
  end.

Definition containstrans_impl (sp : SuperProxy) (aQ : Z) (aEvent : ScalarType)
  : bool :=
  if negb (contains (virtual_states_ sp) aQ)
     || negb (EventsSet.test (sp_events_ sp) aEvent)
  then false
  else
    let qx := aQ mod n_states_sys0_ sp in
    let qy := aQ / n_states_sys0_ sp in
    let in_x := ContainsTrans (sys0_ sp) qx aEvent in
    let in_y := ContainsTrans (sys1_ sp) qy aEvent in
    if (in_x && in_y)
       || (in_x && EventsSet.test (only_in_plant_ sp) aEvent)
       || (in_y && EventsSet.test (only_in_spec_ sp) aEvent)
    then true else false.

Definition trans_impl (sp : SuperProxy) (aQ : Z) (aEvent : ScalarType) : Z :=
  if negb (contains (virtual_states_ sp) aQ)
     || negb (EventsSet.test (sp_events_ sp) aEvent)
  then -1
  else
    let qx := aQ mod n_states_sys0_ sp in
    let qy := aQ / n_states_sys0_ sp in
    let in_x := ContainsTrans (sys0_ sp) qx aEvent in
    let in_y := ContainsTrans (sys1_ sp) qy aEvent in
    if negb ((in_x && in_y)
             || (in_x && EventsSet.test (only_in_plant_ sp) aEvent)
             || (in_y && EventsSet.test (only_in_spec_ sp) aEvent))
    then -1
    else if in_x && in_y then
      let q0 := Trans (sys0_ sp) qx aEvent in
      let q1 := Trans (sys1_ sp) qy aEvent in
      q1 * n_states_sys0_ sp + q0
    else if in_x then
      let q0 := Trans (sys0_ sp) qx aEvent in
      qy * n_states_sys0_ sp + q0
    else
      let q1 := Trans (sys1_ sp) qy aEvent in
      q1 * n_states_sys0_ sp + qx.

(** [std::sort(virtual_states_.begin(), virtual_states_.end())] *)
Definition sort_states (V : StatesTableHost) : StatesTableHost :=
  fold_left (fun acc s => emplace s acc) V [].

(** The position of [q] in the sorted table. *)
Fixpoint rank (V : list Z) (q : Z) : Z :=
  match V with
  | [] => 0
  | h :: t => if h =? q then 0 else 1 + rank t q
  end.

(** Modelled from the spec: [synchronizeStage2], the projection that fills
    the triplet buffer, which is not among the sources.  "For each q ∈ V
    and each event e enabled at q in the virtual product with successor
    q' ∈ V, emit a triplet (rank(q), rank(q'), e)"; "set M to
    {rank(q) : q ∈ V ∩ M_V}, q0 to rank(q0_virtual)". *)
Definition synchronizeStage2 (sp : SuperProxy) : SuperProxy :=
  let V := virtual_states_ sp in
  {| sp_states_number_ := sp_states_number_ sp;
     sp_init_state_ := rank V (sp_init_state_ sp);
     sp_marked_states_ :=
       fold_left (fun acc m => if contains V m then emplace (rank V m) acc else acc)
                 (sp_marked_states_ sp) [];
     sp_events_ := sp_events_ sp;
     sys0_ := sys0_ sp;
     sys1_ := sys1_ sp;
     n_states_sys0_ := n_states_sys0_ sp;
     only_in_plant_ := only_in_plant_ sp;
     only_in_spec_ := only_in_spec_ sp;
     virtual_states_ := V;
     triplet_ :=
       flat_map
         (fun q =>
            flat_map
              (fun e =>
                 let q' := trans_impl sp q e in
                 if negb (q' =? -1) && contains V q'
                 then [((rank V q, rank V q'), EventsSet.set EventsSet.empty e)]
                 else [])
              (seq 0 NEvents))
         V |}.

(** [operator DESystem()]: the conversion of the proxy to a concrete
    system.  [states_events_], [inv_states_events_] and [inv_graph_] are
    those of the default-constructed system. *)
Definition to_DESystem (sp : SuperProxy) : DESystem :=
  let sorted :=
    {| sp_states_number_ := sp_states_number_ sp;
       sp_init_state_ := sp_init_state_ sp;
       sp_marked_states_ := sp_marked_states_ sp;
       sp_events_ := sp_events_ sp;
       sys0_ := sys0_ sp;
       sys1_ := sys1_ sp;
       n_states_sys0_ := n_states_sys0_ sp;
       only_in_plant_ := only_in_plant_ sp;
       only_in_spec_ := only_in_spec_ sp;
       virtual_states_ := sort_states (virtual_states_ sp);
       triplet_ := triplet_ sp |} in
  let this := synchronizeStage2 sorted in
  {| states_number_ := sp_states_number_ this;
     init_state_ := sp_init_state_ this;
     marked_states_ := sp_marked_states_ this;
     events_ := sp_events_ this;
     states_events_ := states_events_ DESystem_default;
     inv_states_events_ := inv_states_events_ DESystem_default;
     graph_ :=
       Sparse.setFromTriplets EventsSet.union
         (sp_states_number_ this) (sp_states_number_ this) (triplet_ this);
     bit_graph_ :=
       Sparse.resize (sp_states_number_ this) (sp_states_number_ this);
     inv_graph_ := inv_graph_ DESystem_default |}.

End Supervisor.

(* ------------------------------------------------------------------ *)
(** * Inverse transitions of the supervisor proxy *)

(** [containsinvtrans_impl(aQ, aEvent)]; the result is [None] where an
    operand is read outside its inverse summary. *)
Definition containsinvtrans_impl (sp : SuperProxy) (aQ : Z) (aEvent : ScalarType)
  : option bool :=
  if negb (contains (virtual_states_ sp) aQ)
     || negb (EventsSet.test (sp_events_ sp) aEvent)
  then Some false
  else
    let qx := aQ mod n_states_sys0_ sp in
    let qy := aQ / n_states_sys0_ sp in
    match ContainsInvTrans (sys0_ sp) qx aEvent,
          ContainsInvTrans (sys1_ sp) qy aEvent with
    | Some in_x, Some in_y =>
        Some (if (in_x && in_y)
                 || (in_x && EventsSet.test (only_in_plant_ sp) aEvent)
                 || (in_y && EventsSet.test (only_in_spec_ sp) aEvent)
              then true else false)
    | _, _ => None
    end.

(** [invtrans_impl(aQ, aEvent)]; the result is [None] where an operand is
    read outside its inverse summary or without its inverse graph. *)
Definition invtrans_impl (sp : SuperProxy) (aQ : Z) (aEvent : ScalarType)
  : option (list Z) :=
  if negb (contains (virtual_states_ sp) aQ)
     || negb (EventsSet.test (sp_events_ sp) aEvent)
  then Some []
  else
    let qx := aQ mod n_states_sys0_ sp in
    let qy := aQ / n_states_sys0_ sp in
    match ContainsInvTrans (sys0_ sp) qx aEvent,
          ContainsInvTrans (sys1_ sp) qy aEvent with
    | Some in_x, Some in_y =>
        if negb ((in_x && in_y)
                 || (in_x && EventsSet.test (only_in_plant_ sp) aEvent)
                 || (in_y && EventsSet.test (only_in_spec_ sp) aEvent))
        then Some []
        else if in_x && in_y then
          match InvTrans (sys0_ sp) qx aEvent, InvTrans (sys1_ sp) qy aEvent with
          | Some inv_trans_0, Some inv_trans_1 =>
              Some (flat_map
                      (fun q0 => map (fun q1 => q1 * n_states_sys0_ sp + q0)
                                     inv_trans_1)
                      inv_trans_0)
          | _, _ => None
          end
        else if in_x then
          match InvTrans (sys0_ sp) qx aEvent with
          | Some inv_trans_0 =>
              Some (map (fun q => qy * n_states_sys0_ sp + q) inv_trans_0)
          | None => None
          end
        else
          match InvTrans (sys1_ sp) qy aEvent with
          | Some inv_trans_1 =>
              Some (map (fun q => q * n_states_sys0_ sp + qx) inv_trans_1)
          | None => None
          end
    | _, _ => None
    end.

(** [allocateInvertedGraph_impl()] *)
Definition allocateInvertedGraph_impl (sp : SuperProxy) : SuperProxy :=
  {| sp_states_number_ := sp_states_number_ sp;
     sp_init_state_ := sp_init_state_ sp;
     sp_marked_states_ := sp_marked_states_ sp;
     sp_events_ := sp_events_ sp;
     sys0_ := AllocateInvertedGraph (sys0_ sp);
     sys1_ := AllocateInvertedGraph (sys1_ sp);
     n_states_sys0_ := n_states_sys0_ sp;
     only_in_plant_ := only_in_plant_ sp;
     only_in_spec_ := only_in_spec_ sp;
     virtual_states_ := virtual_states_ sp;
     triplet_ := triplet_ sp |}.

(** [clearInvertedGraph_impl()] *)
Definition clearInvertedGraph_impl (sp : SuperProxy) : SuperProxy :=
  {| sp_states_number_ := sp_states_number_ sp;
     sp_init_state_ := sp_init_state_ sp;
     sp_marked_states_ := sp_marked_states_ sp;
     sp_events_ := sp_events_ sp;
     sys0_ := ClearInvertedGraph (sys0_ sp);
     sys1_ := ClearInvertedGraph (sys1_ sp);
     n_states_sys0_ := n_states_sys0_ sp;
     only_in_plant_ := only_in_plant_ sp;
     only_in_spec_ := only_in_spec_ sp;
     virtual_states_ := virtual_states_ sp;
     triplet_ := triplet_ sp |}.

(** The [for (auto fsqe : fsqelist)] loop of [trim]. *)
Definition trim_push (virtual_states trimmed : StatesTableHost)
           (fsqelist : list Z) (f : list Z) : list Z :=
  fold_left
    (fun f fsqe =>
       if contains virtual_states fsqe then
         if negb (contains trimmed fsqe) then fsqe :: f else f
       else f)
    fsqelist f.

(** The [while (event_it.any())] loop of [trim]; [n] bounds the number of
    iterations and is [NEvents], the width of [event_it]. *)
Fixpoint trim_events (n : nat) (sp : SuperProxy) (q : Z)
         (event : ScalarType) (event_it : EventsSet.t)
         (trimmed : StatesTableHost) (f : list Z) : option (list Z) :=
  match n with
  | O => Some f
  | S n' =>
      if EventsSet.any event_it then
        match invtrans_impl sp q event with
        | None => None
        | Some fsqelist =>
            let f' :=
              if EventsSet.test event_it 0%nat
                 && negb (match fsqelist with [] => true | _ => false end)
              then trim_push (virtual_states_ sp) trimmed fsqelist f
              else f in
            trim_events n' sp q (S event) (EventsSet.shr1 event_it) trimmed f'
        end
      else Some f
  end.

(** The [while (!f.empty())] loop of [trim]; the result is [None] when the
    fuel runs out or an inverse graph is read unallocated. *)
Fixpoint trim_loop (NEvents fuel : nat) (sp : SuperProxy)
         (f : list Z) (trimmed : StatesTableHost) : option StatesTableHost :=
  match f with
  | [] => Some trimmed
  | q :: f' =>
      match fuel with
      | O => None
      | S fuel' =>
          let trimmed' := insert q trimmed in
          match trim_events NEvents sp q 0%nat (EventsSet.set_all NEvents)
                            trimmed' f' with
          | None => None
          | Some f'' => trim_loop NEvents fuel' sp f'' trimmed'
          end
      end
  end.

(** The [for (auto mstate : this->marked_states_)] loop of [trim]. *)
Fixpoint trim_marked (NEvents fuel : nat) (sp : SuperProxy)
         (ms : list Z) (trimmed : StatesTableHost) : option StatesTableHost :=
  match ms with
  | [] => Some trimmed
  | mstate :: ms' =>
      match trim_loop NEvents fuel sp [mstate] trimmed with
      | None => None
      | Some trimmed' => trim_marked NEvents fuel sp ms' trimmed'
      end
  end.

(** [trim()] *)
Definition trim (NEvents fuel : nat) (sp : SuperProxy) : option SuperProxy :=
  match trim_marked NEvents fuel sp (sp_marked_states_ sp) [] with
  | None => None
  | Some trimmed_virtual_states =>
      Some {| sp_states_number_ := Z.of_nat (length trimmed_virtual_states);
              sp_init_state_ := sp_init_state_ sp;
              sp_marked_states_ := sp_marked_states_ sp;
              sp_events_ := sp_events_ sp;
              sys0_ := sys0_ sp;
              sys1_ := sys1_ sp;
              n_states_sys0_ := n_states_sys0_ sp;
              only_in_plant_ := only_in_plant_ sp;
              only_in_spec_ := only_in_spec_ sp;
              virtual_states_ := trimmed_virtual_states;
              triplet_ := triplet_ sp |}
  end.

(** The states that [invtrans] returns at [q] on the events below
    [NEvents]. *)
Definition trim_preds (NEvents : nat) (sp : SuperProxy) (q : Z) : list Z :=
  flat_map (fun e => match invtrans_impl sp q e with
                     | Some l => l
                     | None => []
                     end)
           (seq 0 NEvents).

(* ------------------------------------------------------------------ *)
(** * Concrete systems *)

(** The second system of [tests/basics.cpp]. *)
Module Basics.

Definition a : ScalarType := 0%nat.
Definition b : ScalarType := 1%nat.
Definition g : ScalarType := 2%nat.

Definition new_sys : DESystem :=
  set_transitions (DESystem_new 4 0 [0; 2])
    [ (0, 0, a); (0, 2, g); (1, 1, b); (2, 1, a); (2, 1, g);
      (2, 2, b); (3, 1, a); (3, 2, a) ].

End Basics.

Module Scenarios.

Definition a : ScalarType := 0%nat.
Definition b : ScalarType := 1%nat.
Definition g : ScalarType := 2%nat.
Definition u : ScalarType := 0%nat.

(** Scenario B: four states, initial state 0, marked states 0 and 2. *)
Definition scenario_B : DESystem :=
  set_transitions (DESystem_new 4 0 [0; 2])
    [ (0, 0, a); (0, 2, g); (1, 1, b); (2, 1, g);
      (2, 2, b); (3, 1, a); (3, 2, a) ].

(** Scenario D: a one-state plant with a self-loop on [u], and a one-state
    specification without transitions. *)
Definition plant_D : DESystem := set_transition (DESystem_new 1 0 []) 0 0 u.
Definition spec_D : DESystem := DESystem_new 1 0 [].

(** The same specification once [u] is declared in its alphabet. *)
Definition spec_D_declared : DESystem :=
  InsertEvents spec_D (EventsSet.set EventsSet.empty u).

(** Two states joined by one transition on [a], the second one marked. *)
Definition chain : DESystem := set_transition (DESystem_new 2 0 [1]) 0 1 a.

(** The chain with a third, isolated state. *)
Definition chain_and_island : DESystem :=
  set_transition (DESystem_new 3 0 [1]) 0 1 a.

(** Two states without transitions; the second one is initial and
    marked. *)
Definition late_start : DESystem := DESystem_new 2 1 [1].

(** A plant whose second state is not reached and carries a self-loop on
    [a], with a one-state specification that loops on [a]. *)
Definition plant_loop_aside : DESystem :=
  set_transition (DESystem_new 2 0 []) 1 1 a.
Definition spec_loop : DESystem := set_transition (DESystem_new 1 0 []) 0 0 a.

End Scenarios.

(* ------------------------------------------------------------------ *)
(** * Invariants of an automaton *)

Definition in_range (A : DESystem) (q : Z) : Prop := 0 <= q < states_number_ A.

(** Every stored transition joins two states of the automaton. *)
Definition graph_in_range (A : DESystem) : Prop :=
  forall p, Sparse.stored (Sparse.data (graph_ A)) p ->
            in_range A (fst p) /\ in_range A (snd p).

(** [F[i] = ⋃_j Γ[i,j]], event by event. *)
Definition forward_summary_ok (A : DESystem) : Prop :=
  forall q e, ContainsTrans A q e = true <->
              exists j, EventsSet.test (label A q j) e = true.

Definition init_ok (A : DESystem) : Prop := in_range A (init_state_ A).

(** What the transition queries rely on. *)
Record transitions_ok (A : DESystem) : Prop := mkTransOk {
  tok_range : graph_in_range A;
  tok_summary : forward_summary_ok A;
  tok_init : init_ok A
}.

(** The boolean shadow is stored as [Bᵀ + I]: entry [(r, c)] is stored iff
    [r] and [c] are states and either [r = c] or there is a transition from
    [c] to [r]. *)
Definition bit_graph_ok (A : DESystem) : Prop :=
  forall r c, Sparse.stored (Sparse.data (bit_graph_ A)) (r, c) <->
              (in_range A r /\ in_range A c /\
               (r = c \/ label A c r <> EventsSet.empty)).

(** What holds of every automaton made by the constructor and the write
    primitive. *)
Record built_ok (A : DESystem) : Prop := mkBuiltOk {
  bok_states : 0 <= states_number_ A;
  bok_canonical : Sparse.canonical (Sparse.data (graph_ A));
  bok_range : graph_in_range A;
  bok_summary : forward_summary_ok A;
  bok_shadow : bit_graph_ok A;
  bok_len : length (states_events_ A) = Z.to_nat (states_number_ A);
  bok_inv_len : length (inv_states_events_ A) = Z.to_nat (states_number_ A)
}.

(** The inverse summary has one entry per state. *)
Definition inverse_table_ok (A : DESystem) : Prop :=
  length (inv_states_events_ A) = Z.to_nat (states_number_ A).

(** The states [0 .. B-1]. *)
Definition range_states (B : Z) : list Z :=
  map Z.of_nat (seq 0 (Z.to_nat B)).

(** How many of the states [0 .. B-1] are in neither table. *)
Definition uncovered (B : Z) (V R : StatesTableHost) : nat :=
  length (filter (fun s => negb (contains V s || contains R s)) (range_states B)).

(** Every state of a list is among the states [0 .. B-1]. *)
Definition states_below (B : Z) (l : list Z) : Prop :=
  Forall (fun s => 0 <= s < B) l.

(** Every state of the tables [V], [R] is in one of the tables [V'], [R']. *)
Definition covers (V R V' R' : StatesTableHost) : Prop :=
  forall s, contains V s || contains R s = true ->
            contains V' s || contains R' s = true.

(** A transition from [i] to [j]. *)
Definition edge (A : DESystem) (i j : Z) : Prop :=
  label A i j <> EventsSet.empty.

(** The states reached from the initial state along transitions. *)
Inductive reachable (A : DESystem) : Z -> Prop :=
| reach_init : reachable A (init_state_ A)
| reach_step : forall i j, reachable A i -> edge A i j -> reachable A j.

(** The states reached from [seed] along the stored entries of a boolean
    matrix [g], an entry [(r, c)] leading from [c] to [r]. *)
Inductive bit_reach (g : Sparse.matrix bool) (seed : Z) : Z -> Prop :=
| bit_reach_seed : bit_reach g seed seed
| bit_reach_step : forall c r,
    bit_reach g seed c -> Sparse.stored (Sparse.data g) (r, c) ->
    bit_reach g seed r.

(** A one-column state matrix that holds only states reached from [q0]
    along the stored entries of [g]. *)
Definition column_sound (g : Sparse.matrix bool) (q0 : Z) (x : Sparse.matrix bool)
  : Prop :=
  forall p, Sparse.stored (Sparse.data x) p ->
            snd p = 0 /\ bit_reach g q0 (fst p).

(** What phase 1 of the synthesis maintains of a state it keeps: it is a
    state, and no uncontrollable event of the plant is disabled there. *)
Definition kept (NEvents : nat) (aP : DESystem) (virtualsys : SyncSysProxy)
           (p_non_contr_bit : EventsSet.t) (q : Z) : Prop :=
  0 <= q /\ badstate NEvents aP virtualsys p_non_contr_bit q = false.

(* ------------------------------------------------------------------ *)
(** * Predicates of the searches, of [Trim] and of the synthesis *)

(** Every stored row index of a state matrix is a state. *)
Definition rows_below (S : Z) (x : Sparse.matrix bool) : Prop :=
  forall r c, Sparse.stored (Sparse.data x) (r, c) -> 0 <= r < S.

(** The stored pattern of [x] lies inside that of [x']. *)
Definition pattern_incl (x x' : Sparse.matrix bool) : Prop :=
  forall p, Sparse.stored (Sparse.data x) p -> Sparse.stored (Sparse.data x') p.

(** Column [c] of [x] gains nothing by one more product with [g]. *)
Definition stable_column (g x : Sparse.matrix bool) (c : Z) : Prop :=
  forall r, Sparse.stored (Sparse.data (Sparse.prod g x)) (r, c) ->
            Sparse.stored (Sparse.data x) (r, c).

(** The stored coordinates of column [c]. *)
Definition column_coords (x : Sparse.matrix bool) (c : Z) : list Sparse.coord :=
  filter (fun p => snd p =? c) (map fst (Sparse.data x)).

(** Row [r] is reached, along the stored entries of [g], from a row that the
    seed matrix [x0] stores in column [c]. *)
Definition seeded_reach (g x0 : Sparse.matrix bool) (c r : Z) : Prop :=
  exists r0, Sparse.stored (Sparse.data x0) (r0, c) /\ bit_reach g r0 r.

(** The states from which a marked state is reached along transitions. *)
Inductive coreachable (A : DESystem) : Z -> Prop :=
| coreach_marked : forall m, In m (marked_states_ A) -> coreachable A m
| coreach_step : forall i j, edge A i j -> coreachable A j -> coreachable A i.

(** Every marked state is a state. *)
Definition marked_ok (A : DESystem) : Prop :=
  forall m, In m (marked_states_ A) -> in_range A m.

(** The bit triplets are the triplets with their coordinates swapped. *)
Definition triplets_in_step (b : TrimBuild) : Prop :=
  map fst (tb_bittriplet b) =
  map (fun t => (snd (fst t), fst (fst t))) (tb_triplet b).

(** The stored entries of the boolean shadow join states. *)
Definition bit_graph_in_range (A : DESystem) : Prop :=
  forall r c, Sparse.stored (Sparse.data (bit_graph_ A)) (r, c) ->
              in_range A r /\ in_range A c.

(** The forward summary has one entry per state. *)
Definition forward_table_ok (A : DESystem) : Prop :=
  length (states_events_ A) = Z.to_nat (states_number_ A).

(** The renumbering of [Trim]: the new position of an old state, or [-1]. *)
Definition renumber (A : DESystem) (s : Z) : Z :=
  vec_get (-1) (fill_statesmap (states_number_ A) (TrimStates A)) s.

(** The entries of row [s] of the old graph that [Trim] keeps. *)
Definition kept_row (statesmap : list Z) (old_graph : Sparse.matrix EventsSet.t)
           (s : Z) : list (Z * EventsSet.t) :=
  filter (fun e => negb (vec_get (-1) statesmap (fst e) =? -1))
         (Sparse.row old_graph s).

(** The triplets that row [s] gives when it becomes row [row_id]. *)
Definition row_triplets (statesmap : list Z) (old_graph : Sparse.matrix EventsSet.t)
           (row_id s : Z) : list (Sparse.coord * EventsSet.t) :=
  map (fun e => ((row_id, vec_get (-1) statesmap (fst e)), snd e))
      (kept_row statesmap old_graph s).

(** [F⁻¹[j] = ⋃_i Γ[i,j]], event by event. *)
Definition inverse_summary_ok (A : DESystem) : Prop :=
  forall q e, EventsSet.test (GetInvStateEvents A q) e = true <->
              exists i, EventsSet.test (label A i q) e = true.

(** The states of the virtual product reached from its initial state on
    events below [NEvents]. *)
Inductive product_reach (NEvents : nat) (vs : SyncSysProxy) : Z -> Prop :=
| product_reach_init : product_reach NEvents vs (vs_init_state vs)
| product_reach_step : forall q e,
    product_reach NEvents vs q -> (e < NEvents)%nat ->
    vs_trans vs q e <> -1 ->
    product_reach NEvents vs (vs_trans vs q e).

(** A state of the product of [P] and [E] that is reached from its initial
    state. *)
Definition product_state (NEvents : nat) (P E : DESystem) (q : Z) : Prop :=
  0 <= q < states_number_ P * states_number_ E /\
  product_reach NEvents (SyncSysProxy_new P E) q.

(** The summary of a state holds only events of the alphabet. *)
Definition events_ok (A : DESystem) : Prop :=
  forall q e, ContainsTrans A q e = true -> EventsSet.test (events_ A) e = true.

(** The states reached from [s0] along transitions. *)
Inductive reach_from (A : DESystem) (s0 : Z) : Z -> Prop :=
| reach_from_start : reach_from A s0 s0
| reach_from_step : forall i j,
    reach_from A s0 i -> edge A i j -> reach_from A s0 j.

(** The inverse summary of a state holds only events of the alphabet. *)
Definition inverse_events_ok (A : DESystem) : Prop :=
  forall q e, EventsSet.test (GetInvStateEvents A q) e = true ->
              EventsSet.test (events_ A) e = true.

(** What the loop of [trim] maintains of its stack [f], top first, and of
    its table: the surviving predecessors of a state of the table are in the
    table or on the stack, above every copy of that state. *)
Definition trim_inv (NEvents : nat) (sp : SuperProxy)
           (f : list Z) (trimmed : StatesTableHost) : Prop :=
  (forall x p, In x trimmed -> In p (trim_preds NEvents sp x) ->
               In p (virtual_states_ sp) -> In p trimmed \/ In p f) /\
  (forall f1 x f2 p, f = f1 ++ x :: f2 -> In x trimmed ->
                     In p (trim_preds NEvents sp x) ->
                     In p (virtual_states_ sp) -> In p trimmed \/ In p f1).

(** How many surviving states are not yet in the table of [trim]. *)
Definition untrimmed (virtual_states trimmed : StatesTableHost) : nat :=
  length (filter (fun s => negb (contains trimmed s)) virtual_states).

(* ------------------------------------------------------------------ *)
(** * Facts on sets of events *)

Lemma test_empty e : EventsSet.test EventsSet.empty e = false.
Proof. unfold EventsSet.test, EventsSet.empty. apply N.bits_0. Qed.

Lemma test_set s e e' :
  EventsSet.test (EventsSet.set s e) e' = Nat.eqb e e' || EventsSet.test s e'.
Proof.
  unfold EventsSet.test, EventsSet.set.
  rewrite N.setbit_eqb. f_equal.
  destruct (Nat.eqb_spec e e') as [->|Hne].
  - apply N.eqb_refl.
  - apply N.eqb_neq. intro H. apply Hne. now apply Nat2N.inj.
Qed.

Lemma test_union a b e :
  EventsSet.test (EventsSet.union a b) e = EventsSet.test a e || EventsSet.test b e.
Proof. unfold EventsSet.test, EventsSet.union. apply N.lor_spec. Qed.

Lemma test_inter a b e :
  EventsSet.test (EventsSet.inter a b) e = EventsSet.test a e && EventsSet.test b e.
Proof. unfold EventsSet.test, EventsSet.inter. apply N.land_spec. Qed.

Lemma test_xor a b e :
  EventsSet.test (EventsSet.xor a b) e = xorb (EventsSet.test a e) (EventsSet.test b e).
Proof. unfold EventsSet.test, EventsSet.xor. apply N.lxor_spec. Qed.

Lemma test_ldiff a b e :
  EventsSet.test (N.ldiff a b) e = EventsSet.test a e && negb (EventsSet.test b e).
Proof. unfold EventsSet.test. apply N.ldiff_spec. Qed.

Lemma set_not_empty s e : EventsSet.set s e <> EventsSet.empty.
Proof.
  intro H.
  assert (Ht : EventsSet.test (EventsSet.set s e) e = true)
    by (rewrite test_set, Nat.eqb_refl; reflexivity).
  rewrite H, test_empty in Ht. discriminate.
Qed.

Lemma test_true_not_empty s e : EventsSet.test s e = true -> s <> EventsSet.empty.
Proof. intros H ->. rewrite test_empty in H. discriminate. Qed.

(** The width of [event_it] bounds the loop on it: after [n] shifts the
    all-ones set of width [n] is empty. *)
Lemma set_all_shifted_out n :
  Nat.iter n EventsSet.shr1 (EventsSet.set_all n) = EventsSet.empty.
Proof.
  assert (H : forall k m, Nat.iter k EventsSet.shr1 (N.ones (N.of_nat (k + m)))
                          = N.ones (N.of_nat m)).
  { induction k as [|k IH]; intros m; [reflexivity|].
    rewrite Nat.iter_succ_r.
    replace (EventsSet.shr1 (N.ones (N.of_nat (S k + m))))
      with (N.ones (N.of_nat (k + m))); [apply IH|].
    unfold EventsSet.shr1. apply N.bits_inj. intro i.
    rewrite N.shiftr_spec by apply N.le_0_l.
    destruct (N.ltb_spec i (N.of_nat (k + m))) as [Hlt|Hge].
    - rewrite !N.ones_spec_low; try reflexivity; lia.
    - rewrite !N.ones_spec_high; try reflexivity; lia. }
  unfold EventsSet.set_all.
  specialize (H n 0%nat). rewrite Nat.add_0_r in H. exact H.
Qed.

(* ------------------------------------------------------------------ *)
(** * Facts on sets and tables of states *)

Lemma In_emplace s x l : In x (emplace s l) <-> x = s \/ In x l.
Proof.
  induction l as [|h t IH]; simpl.
  - intuition.
  - destruct (Z.ltb_spec s h); simpl; [intuition|].
    destruct (Z.eqb_spec s h); simpl; [subst; intuition|].
    rewrite IH. intuition.
Qed.

Lemma contains_In t q : contains t q = true <-> In q t.
Proof.
  unfold contains. rewrite existsb_exists. split.
  - intros [x [Hin Heq]]. apply Z.eqb_eq in Heq. now subst.
  - intros Hin. exists q. split; [assumption|apply Z.eqb_refl].
Qed.

Lemma In_insert q x t : In x (insert q t) <-> x = q \/ In x t.
Proof.
  unfold insert. destruct (contains t q) eqn:Hc; simpl.
  - apply contains_In in Hc. split; [auto|]. intros [->|H]; assumption.
  - intuition.
Qed.

Lemma In_erase q x t : In x (erase q t) -> In x t.
Proof. unfold erase. rewrite filter_In. tauto. Qed.

Lemma vec_get_upd_same {A} (d : A) f v i :
  0 <= i -> (Z.to_nat i < length v)%nat ->
  vec_get d (vec_upd f v i) i = f (vec_get d v i).
Proof.
  intros Hi. unfold vec_get, vec_upd.
  destruct (Z.ltb_spec i 0); [lia|].
  generalize (Z.to_nat i). clear. intros n. revert n.
  induction v as [|x t IH]; intros [|n] Hn; simpl in *; try lia; auto.
  apply IH. lia.
Qed.

Lemma vec_get_upd_other {A} (d : A) f v i j :
  i <> j -> vec_get d (vec_upd f v i) j = vec_get d v j.
Proof.
  intros Hij. unfold vec_get, vec_upd.
  destruct (Z.ltb_spec j 0); [reflexivity|].
  destruct (Z.ltb_spec i 0); [reflexivity|].
  assert (Hn : Z.to_nat i <> Z.to_nat j) by lia.
  revert Hn. generalize (Z.to_nat i) (Z.to_nat j). clear.
  intros n m. revert n m.
  induction v as [|x t IH]; intros [|n] [|m] Hn; simpl; auto; try congruence.
Qed.

Lemma vec_upd_length {A} (f : A -> A) v i : length (vec_upd f v i) = length v.
Proof.
  unfold vec_upd. destruct (i <? 0); [reflexivity|].
  generalize (Z.to_nat i). induction v as [|x t IH]; intros [|n]; simpl; auto.
Qed.

(* ------------------------------------------------------------------ *)
(** * Facts on sparse matrices *)

Module SparseFacts.
Import Sparse.

Lemma coord_eqb_eq p q : coord_eqb p q = true <-> p = q.
Proof.
  destruct p as [a b], q as [c d]. unfold coord_eqb; simpl.
  rewrite andb_true_iff, !Z.eqb_eq. split.
  - intros [-> ->]; reflexivity.
  - intros H; inversion H; auto.
Qed.

Lemma coord_ltb_lt p q :
  coord_ltb p q = true <->
  (fst p < fst q \/ (fst p = fst q /\ snd p < snd q)).
Proof.
  unfold coord_ltb.
  rewrite orb_true_iff, andb_true_iff, !Z.ltb_lt, Z.eqb_eq. tauto.
Qed.

Lemma coord_lt_trans p q r : coord_lt p q -> coord_lt q r -> coord_lt p r.
Proof. unfold coord_lt. rewrite !coord_ltb_lt. lia. Qed.

Lemma coord_lt_irrefl p : ~ coord_lt p p.
Proof. unfold coord_lt. rewrite coord_ltb_lt. lia. Qed.

Lemma coord_total p q :
  coord_ltb p q = false -> coord_eqb p q = false -> coord_lt q p.
Proof.
  intros Hlt Heq. unfold coord_lt. rewrite coord_ltb_lt.
  assert (H1 : ~ (fst p < fst q \/ (fst p = fst q /\ snd p < snd q))).
  { rewrite <- coord_ltb_lt. congruence. }
  assert (H2 : p <> q).
  { rewrite <- coord_eqb_eq. congruence. }
  destruct p as [a b], q as [c d]; simpl in *.
  assert (~ (a = c /\ b = d)) by (intros [-> ->]; now apply H2).
  lia.
Qed.

Section Facts.
Context {V : Type}.
Implicit Types (l : list (coord * V)) (p q : coord).

Lemma stored_put dup l p v q :
  stored (put dup l p v) q <-> q = p \/ stored l q.
Proof.
  unfold stored. induction l as [|[p' v'] t IH]; simpl.
  - intuition.
  - destruct (coord_ltb p p') eqn:Hlt; simpl; [intuition|].
    destruct (coord_eqb p p') eqn:Heq; simpl.
    + apply coord_eqb_eq in Heq. subst. intuition.
    + rewrite IH. intuition.
Qed.

Lemma canonical_put dup l p v : canonical l -> canonical (put dup l p v).
Proof.
  unfold canonical. induction l as [|[p' v'] t IH]; simpl; intros Hs.
  - repeat constructor.
  - inversion Hs as [|x xs Hst Hall]; subst.
    destruct (coord_ltb p p') eqn:Hlt; simpl.
    + constructor; [assumption|]. constructor; [exact Hlt|].
      rewrite Forall_forall in *. intros x Hx.
      eapply coord_lt_trans; [exact Hlt|]. now apply Hall.
    + destruct (coord_eqb p p') eqn:Heq; simpl.
      * now constructor.
      * constructor; [now apply IH|].
        rewrite Forall_forall in *. intros x Hx.
        apply (stored_put dup t p v x) in Hx. destruct Hx as [->|Hx].
        -- now apply coord_total.
        -- now apply Hall.
Qed.

Lemma canonical_NoDup l : canonical l -> NoDup (map fst l).
Proof.
  unfold canonical. induction 1 as [|x xs Hst IH Hall]; constructor; auto.
  intro Hin. rewrite Forall_forall in Hall.
  exact (coord_lt_irrefl x (Hall x Hin)).
Qed.

Lemma canonical_nil : canonical (@nil (coord * V)).
Proof. constructor. Qed.

Lemma stored_In l p : stored l p <-> exists v, In (p, v) l.
Proof.
  unfold stored. rewrite in_map_iff. split.
  - intros [[p' v] [Heq Hin]]. simpl in Heq. subst. now exists v.
  - intros [v Hin]. now exists (p, v).
Qed.

(** Reading after a write, on a matrix in compressed form. *)
Lemma find_put_same dup l p v :
  canonical l ->
  find (fun e => coord_eqb (fst e) p) (put dup l p v) =
  match find (fun e => coord_eqb (fst e) p) l with
  | Some e => Some (p, dup (snd e) v)
  | None => Some (p, v)
  end.
Proof.
  unfold canonical. induction l as [|[p' v'] t IH]; simpl; intros Hs.
  - assert (H : coord_eqb p p = true) by now apply coord_eqb_eq.
    now rewrite H.
  - inversion Hs as [|x xs Hst Hall]; subst.
    destruct (coord_ltb p p') eqn:Hlt; simpl.
    + assert (H : coord_eqb p p = true) by now apply coord_eqb_eq.
      rewrite H.
      assert (Hne : coord_eqb p' p = false).
      { destruct (coord_eqb p' p) eqn:E; [|reflexivity].
        apply coord_eqb_eq in E. subst.
        exfalso. exact (coord_lt_irrefl p Hlt). }
      rewrite Hne.
      assert (Hnone : find (fun e => coord_eqb (fst e) p) t = None).
      { destruct (find (fun e => coord_eqb (fst e) p) t) as [e|] eqn:E;
          [|reflexivity].
        apply find_some in E. destruct E as [Hin Heq].
        apply coord_eqb_eq in Heq.
        rewrite Forall_forall in Hall.
        assert (Hlt' : coord_lt p' p).
        { apply Hall. rewrite <- Heq. now apply in_map. }
        exfalso. exact (coord_lt_irrefl p (coord_lt_trans _ _ _ Hlt Hlt')). }
      now rewrite Hnone.
    + destruct (coord_eqb p p') eqn:Heq; simpl.
      * apply coord_eqb_eq in Heq. subst p'.
        assert (H : coord_eqb p p = true) by now apply coord_eqb_eq.
        now rewrite H.
      * assert (Hne : coord_eqb p' p = false).
        { destruct (coord_eqb p' p) eqn:E; [|reflexivity].
          apply coord_eqb_eq in E. subst.
          assert (H : coord_eqb p p = true) by now apply coord_eqb_eq.
          congruence. }
        rewrite Hne. now apply IH.
Qed.

Lemma find_put_other dup l p v q :
  q <> p ->
  find (fun e => coord_eqb (fst e) q) (put dup l p v) =
  find (fun e => coord_eqb (fst e) q) l.
Proof.
  intros Hne.
  assert (Hpq : coord_eqb p q = false).
  { destruct (coord_eqb p q) eqn:E; [|reflexivity].
    apply coord_eqb_eq in E. congruence. }
  induction l as [|[p' v'] t IH]; simpl.
  - now rewrite Hpq.
  - destruct (coord_ltb p p') eqn:Hlt; simpl.
    + now rewrite Hpq.
    + destruct (coord_eqb p p') eqn:Heq; simpl.
      * apply coord_eqb_eq in Heq. subst p'. now rewrite Hpq.
      * now rewrite IH.
Qed.

Lemma coeff_stored (d : V) (m : matrix V) i j :
  coeff d m i j <> d -> stored (data m) (i, j).
Proof.
  unfold coeff. intros H.
  destruct (find (fun e => coord_eqb (fst e) (i, j)) (data m)) as [e|] eqn:E;
    [|congruence].
  apply find_some in E. destruct E as [Hin Heq].
  apply coord_eqb_eq in Heq. unfold stored. rewrite <- Heq. now apply in_map.
Qed.

Lemma stored_fold_put dup (ts : list (coord * V)) l q :
  stored (fold_left (fun acc t => put dup acc (fst t) (snd t)) ts l) q <->
  stored l q \/ stored ts q.
Proof.
  revert l. induction ts as [|[p v] ts IH]; intros l; simpl.
  - unfold stored at 3; simpl. tauto.
  - rewrite IH, stored_put. unfold stored at 4; simpl. intuition.
Qed.

Lemma canonical_fold_put dup (ts : list (coord * V)) l :
  canonical l ->
  canonical (fold_left (fun acc t => put dup acc (fst t) (snd t)) ts l).
Proof.
  revert l. induction ts as [|[p v] ts IH]; intros l Hl; simpl; auto.
  apply IH. now apply canonical_put.
Qed.

Lemma stored_transpose (m : matrix V) r c :
  stored (data (transpose m)) (r, c) <-> stored (data m) (c, r).
Proof.
  unfold transpose; simpl.
  assert (H : forall (es acc : list (coord * V)),
             stored (fold_left
                       (fun acc e => put (fun _ x => x) acc
                                         (snd (fst e), fst (fst e)) (snd e))
                       es acc) (r, c) <->
             stored acc (r, c) \/ stored es (c, r)).
  { induction es as [|[[a b] v] es IH]; intros acc; simpl.
    - unfold stored at 3; simpl. tauto.
    - rewrite IH, stored_put. unfold stored at 4; simpl.
      split.
      + intros [[H|H]|H]; auto. inversion H; subst. auto.
      + intros [H|[H|H]]; auto. inversion H; subst. auto. }
  rewrite H. unfold stored at 1; simpl. tauto.
Qed.

Lemma canonical_transpose (m : matrix V) : canonical (data (transpose m)).
Proof.
  unfold transpose; simpl.
  assert (H : forall (es acc : list (coord * V)),
             canonical acc ->
             canonical (fold_left
                          (fun acc e => put (fun _ x => x) acc
                                            (snd (fst e), fst (fst e)) (snd e))
                          es acc)).
  { induction es as [|e es IH]; intros acc Hacc; simpl; auto.
    apply IH. now apply canonical_put. }
  apply H. apply canonical_nil.
Qed.

End Facts.

(** The stored pattern of a product. *)
Lemma stored_prod (a x : matrix bool) r c :
  stored (data (prod a x)) (r, c) <->
  exists k, stored (data a) (r, k) /\ stored (data x) (k, c).
Proof.
  unfold prod; simpl.
  assert (Hin : forall (ea : coord * bool) (xs acc : list (coord * bool)),
             stored (fold_left
                       (fun acc' ex =>
                          if snd (fst ea) =? fst (fst ex)
                          then put orb acc' (fst (fst ea), snd (fst ex))
                                   (snd ea && snd ex)
                          else acc') xs acc) (r, c) <->
             stored acc (r, c) \/
             (fst (fst ea) = r /\ stored xs (snd (fst ea), c))).
  { intros ea. induction xs as [|[[k' c'] xv] xs IH]; intros acc; simpl.
    - unfold stored at 3; simpl. tauto.
    - rewrite IH. unfold stored at 4; simpl.
      destruct (Z.eqb_spec (snd (fst ea)) k') as [Hk|Hk].
      + rewrite stored_put. split.
        * intros [[H|H]|H]; [|tauto|tauto].
          inversion H; subst. right. split; auto.
        * intros [H|[Hr [H|H]]]; [tauto| |tauto].
          inversion H; subst. left. left. reflexivity.
      + split; [tauto|].
        intros [H|[Hr [H|H]]]; [tauto| |tauto].
        inversion H; subst. congruence. }
  assert (Hout : forall (es acc : list (coord * bool)),
             stored (fold_left
                       (fun acc ea =>
                          fold_left
                            (fun acc' ex =>
                               if snd (fst ea) =? fst (fst ex)
                               then put orb acc' (fst (fst ea), snd (fst ex))
                                        (snd ea && snd ex)
                               else acc') (data x) acc) es acc) (r, c) <->
             stored acc (r, c) \/
             exists k, stored es (r, k) /\ stored (data x) (k, c)).
  { induction es as [|ea es IH]; intros acc.
    - simpl. split; [tauto|]. intros [H|[k [[] _]]]. exact H.
    - cbn [fold_left]. rewrite IH, Hin.
      destruct ea as [[r' k'] av]. unfold stored at 4. simpl. split.
      + intros [[H|[Hr H]]|[k [H1 H2]]]; [tauto| |].
        * subst. right. exists k'. split; [left; reflexivity|exact H].
        * right. exists k. split; [right; exact H1|exact H2].
      + intros [H|[k [[H1|H1] H2]]]; [tauto| |].
        * inversion H1; subst. left. right. split; auto.
        * right. exists k. split; assumption. }
  rewrite Hout. split.
  - intros [[]|H]. exact H.
  - intros H. right. exact H.
Qed.

Lemma canonical_prod (a x : matrix bool) : canonical (data (prod a x)).
Proof.
  unfold prod; simpl.
  assert (Hin : forall (ea : coord * bool) (xs acc : list (coord * bool)),
             canonical acc ->
             canonical (fold_left
                          (fun acc' ex =>
                             if snd (fst ea) =? fst (fst ex)
                             then put orb acc' (fst (fst ea), snd (fst ex))
                                      (snd ea && snd ex)
                             else acc') xs acc)).
  { intros ea. induction xs as [|ex xs IH]; intros acc Hacc; simpl; auto.
    apply IH.
    match goal with |- context [if ?b then _ else _] => destruct b end;
      [|exact Hacc].
    now apply canonical_put. }
  generalize (@canonical_nil bool). generalize (@nil (coord * bool)).
  induction (data a) as [|ea es IH]; intros acc Hacc; simpl; auto.
Qed.

Lemma cols_prod (a x : matrix bool) : cols (prod a x) = cols x.
Proof. reflexivity. Qed.

End SparseFacts.

(* ------------------------------------------------------------------ *)
(** * The reachability kernel computes reachability *)

Section Kernel.
Import Sparse SparseFacts.

(** A square boolean matrix on the states [0 .. S-1] with a full diagonal,
    and a seed state. *)
Variable g : matrix bool.
Variable S : Z.
Variable q0 : Z.
Hypothesis Hq0 : 0 <= q0 < S.
Hypothesis Hdiag : forall r, 0 <= r < S -> stored (data g) (r, r).
Hypothesis Hrange :
  forall r c, stored (data g) (r, c) -> 0 <= r < S /\ 0 <= c < S.

Lemma bit_reach_range s : bit_reach g q0 s -> 0 <= s < S.
Proof.
  induction 1 as [|c r _ _ Hst]; [exact Hq0|].
  now apply Hrange in Hst.
Qed.

Lemma prod_sound x : column_sound g q0 x -> column_sound g q0 (prod g x).
Proof.
  intros Hx [r c] Hp. apply stored_prod in Hp. destruct Hp as [k [Hg Hk]].
  apply Hx in Hk. simpl in *. destruct Hk as [Hc Hr]. split; [exact Hc|].
  eapply bit_reach_step; eassumption.
Qed.

Lemma prod_extends x :
  column_sound g q0 x -> forall p, stored (data x) p -> stored (data (prod g x)) p.
Proof.
  intros Hx [r c] Hp. apply stored_prod. exists r. split; [|exact Hp].
  apply Hdiag. apply Hx in Hp. simpl in Hp. now apply bit_reach_range.
Qed.

Lemma nonZeros_length (x : matrix bool) :
  nonZeros x = Z.of_nat (length (map fst (data x))).
Proof. unfold nonZeros. now rewrite length_map. Qed.

Lemma closed_complete y :
  column_sound g q0 y -> stored (data y) (q0, 0) ->
  (forall c r, stored (data y) (c, 0) -> stored (data g) (r, c) ->
               stored (data y) (r, 0)) ->
  forall s, stored (data y) (s, 0) <-> bit_reach g q0 s.
Proof.
  intros Hs Hseed Hclosed s. split.
  - intros H. apply Hs in H. exact (proj2 H).
  - induction 1 as [|c r _ IH Hst]; [exact Hseed|].
    eapply Hclosed; eassumption.
Qed.

Lemma full_complete x :
  canonical (data x) -> column_sound g q0 x -> S <= nonZeros x ->
  forall s, bit_reach g q0 s -> stored (data x) (s, 0).
Proof.
  intros Hcan Hs Hfull s Hreach.
  set (L := map (fun i => (Z.of_nat i, 0)) (seq 0 (Z.to_nat S))).
  assert (Hincl : incl (map fst (data x)) L).
  { intros [r c] Hp. apply Hs in Hp. simpl in Hp. destruct Hp as [-> Hr].
    apply bit_reach_range in Hr. unfold L. apply in_map_iff.
    exists (Z.to_nat r). split; [f_equal; lia|]. apply in_seq. lia. }
  assert (Hlen : (length L <= length (map fst (data x)))%nat).
  { unfold L. rewrite length_map, length_seq.
    rewrite nonZeros_length in Hfull. lia. }
  pose proof (NoDup_length_incl (canonical_NoDup _ Hcan) Hlen Hincl) as Hback.
  apply Hback. unfold L. apply in_map_iff.
  apply bit_reach_range in Hreach.
  exists (Z.to_nat s). split; [f_equal; lia|]. apply in_seq. lia.
Qed.

(** The loop of [BfsCalc_] on one seed column: whether it breaks on an
    unchanged count or runs its [S] iterations, the rows it leaves in
    column 0 are the states reached from the seed. *)
Lemma bfs_loop_reach n :
  forall x y nacc,
    canonical (data x) -> column_sound g q0 x -> stored (data x) (q0, 0) ->
    ((nacc = nonZeros x /\ y = x /\ S <= nonZeros x + Z.of_nat n) \/
     (nacc = 0 /\ S <= Z.of_nat n)) ->
    forall s, stored (data (bfs_loop n g x y nacc)) (s, 0) <-> bit_reach g q0 s.
Proof.
  induction n as [|n IH]; intros x y nacc Hcan Hs Hseed Hcount s.
  - simpl. destruct Hcount as [[_ [-> Hfull]]|[_ HS]]; [|simpl in HS; lia].
    split.
    + intros H. apply Hs in H. exact (proj2 H).
    + apply full_complete; auto. lia.
  - cbn [bfs_loop].
    pose proof (canonical_prod g x) as Hcan'.
    pose proof (prod_sound x Hs) as Hs'.
    pose proof (prod_extends x Hs) as Hext.
    pose proof (Hext _ Hseed) as Hseed'.
    assert (Hle : nonZeros x <= nonZeros (prod g x)).
    { rewrite !nonZeros_length. apply inj_le.
      apply NoDup_incl_length; [now apply canonical_NoDup|].
      intros p Hp. now apply Hext. }
    assert (Hpos : 1 <= nonZeros (prod g x)).
    { rewrite nonZeros_length.
      destruct (map fst (data (prod g x))) eqn:E; [|simpl; lia].
      unfold stored in Hseed'. rewrite E in Hseed'. destruct Hseed'. }
    destruct (Z.eqb_spec nacc (nonZeros (prod g x))) as [Heq|Hne].
    + destruct Hcount as [[Hn [_ _]]|[Hn _]]; [|lia].
      assert (Hback : incl (map fst (data (prod g x))) (map fst (data x))).
      { apply NoDup_length_incl; [now apply canonical_NoDup| |].
        - rewrite !nonZeros_length in *. lia.
        - intros p Hp. now apply Hext. }
      apply closed_complete; auto.
      intros c r Hc Hg. apply stored_prod. exists c. split; [exact Hg|].
      now apply Hback.
    + apply IH; auto. left. split; [reflexivity|]. split; [reflexivity|].
      destruct Hcount as [[Hn [_ Hfull]]|[Hn HS]]; lia.
Qed.

Lemma cols_bfs_loop n :
  forall x y nacc k, cols x = k -> cols y = k ->
                     cols (bfs_loop n g x y nacc) = k.
Proof.
  induction n as [|n IH]; intros x y nacc k Hx Hy; simpl; [exact Hy|].
  destruct (nacc =? nonZeros (prod g x)); [exact Hx|].
  apply IH; exact Hx.
Qed.

End Kernel.

Lemma In_fold_emplace {E} (f : E -> Z) (l : list E) (acc : StatesSet) s :
  In s (fold_left (fun acc e => emplace (f e) acc) l acc) <->
  In s acc \/ exists e, In e l /\ f e = s.
Proof.
  revert acc. induction l as [|e l IH]; intros acc; simpl.
  - split; [tauto|]. intros [H|[e [[] _]]]. exact H.
  - rewrite IH, In_emplace. split.
    + intros [[->|H]|[e' [H1 H2]]]; [right; exists e; auto|tauto|].
      right. exists e'. auto.
    + intros [H|[e' [[->|H1] H2]]]; [tauto|left; left; now subst|].
      right. exists e'. auto.
Qed.

Lemma In_column_states (y : Sparse.matrix bool) c s :
  In s (column_states y c) <-> Sparse.stored (Sparse.data y) (s, c).
Proof.
  unfold column_states, Sparse.col. rewrite In_fold_emplace. simpl.
  rewrite SparseFacts.stored_In. split.
  - intros [[]|[e [He Hs]]]. apply in_map_iff in He.
    destruct He as [[[r c'] v] [He Hin]]. apply filter_In in Hin.
    destruct Hin as [Hin Hc]. simpl in *. apply Z.eqb_eq in Hc. subst.
    exists v. exact Hin.
  - intros [v Hin]. right. exists (s, v). split; [|reflexivity].
    apply in_map_iff. exists ((s, c), v). split; [reflexivity|].
    apply filter_In. split; [exact Hin|]. simpl. apply Z.eqb_refl.
Qed.

Lemma bit_reach_reachable (A : DESystem) :
  graph_in_range A -> bit_graph_ok A -> init_ok A ->
  forall s, bit_reach (bit_graph_ A) (init_state_ A) s <-> reachable A s.
Proof.
  intros Hrange Hbit Hinit s. split.
  - induction 1 as [|c r _ IH Hst]; [constructor|].
    apply Hbit in Hst. destruct Hst as [_ [_ [->|Hl]]]; [exact IH|].
    eapply reach_step; [exact IH|exact Hl].
  - induction 1 as [|i j _ IH He]; [constructor|].
    eapply bit_reach_step; [exact IH|].
    apply Hbit. unfold edge in He.
    pose proof (SparseFacts.coeff_stored _ _ _ _ He) as Hst.
    apply Hrange in Hst. simpl in Hst. tauto.
Qed.

(** [AccessiblePart] holds the states reached from the initial state. *)
Lemma AccessiblePart_reachable (A : DESystem) :
  graph_in_range A -> bit_graph_ok A -> init_ok A ->
  forall s, In s (AccessiblePart A) <-> reachable A s.
Proof.
  intros Hrange Hbit Hinit s.
  rewrite <- (bit_reach_reachable A Hrange Hbit Hinit).
  unfold AccessiblePart, Bfs_, Bfs_node, BfsCalc_.
  set (x0 := Sparse.coeffRef false (fun _ => true)
               (Sparse.resize (states_number_ A) 1) (init_state_ A) 0).
  set (y := bfs_loop _ _ _ _ _).
  assert (Hc : Sparse.cols y = 1).
  { apply cols_bfs_loop; reflexivity. }
  rewrite Hc. simpl. rewrite In_column_states.
  assert (Hdiag : forall r, 0 <= r < states_number_ A ->
                            Sparse.stored (Sparse.data (bit_graph_ A)) (r, r)).
  { intros r Hr. apply Hbit. unfold in_range. tauto. }
  assert (Hrg : forall r c, Sparse.stored (Sparse.data (bit_graph_ A)) (r, c) ->
                            0 <= r < states_number_ A /\ 0 <= c < states_number_ A).
  { intros r c H. apply Hbit in H. unfold in_range in H. tauto. }
  apply (bfs_loop_reach (bit_graph_ A) (states_number_ A) (init_state_ A)
                        Hinit Hdiag Hrg).
  - unfold x0; simpl. repeat constructor.
  - intros p Hp. unfold x0 in Hp; simpl in Hp. destruct Hp as [<-|[]].
    simpl. split; [reflexivity|constructor].
  - unfold x0; simpl. left. reflexivity.
  - right. split; [reflexivity|]. unfold init_ok, in_range in Hinit. lia.
Qed.

(** C5. For an automaton whose boolean shadow is stored as Bᵀ + I,
    [AccessiblePart] is the least set of states that holds the initial state
    and is closed under outgoing transitions: it holds the initial state, it
    is closed, and it lies inside every set that holds the initial state and
    is closed. *)
Theorem AccessiblePart_least (A : DESystem) :
  graph_in_range A -> bit_graph_ok A -> init_ok A ->
  In (init_state_ A) (AccessiblePart A) /\
  (forall i j, In i (AccessiblePart A) -> edge A i j -> In j (AccessiblePart A)) /\
  (forall X : Z -> Prop,
      X (init_state_ A) ->
      (forall i j, X i -> edge A i j -> X j) ->
      forall s, In s (AccessiblePart A) -> X s).
Proof.
  intros Hrange Hbit Hinit.
  pose proof (AccessiblePart_reachable A Hrange Hbit Hinit) as Hacc.
  split; [|split].
  - apply Hacc. constructor.
  - intros i j Hi He. apply Hacc. apply Hacc in Hi.
    eapply reach_step; eassumption.
  - intros X H0 Hstep s Hs. apply Hacc in Hs.
    induction Hs as [|i j _ IH He]; [exact H0|].
    eapply Hstep; eassumption.
Qed.

(* ------------------------------------------------------------------ *)
(** * The constructor and the write primitive keep the invariants *)

Lemma vec_get_repeat {A} (d : A) n i : vec_get d (repeat d n) i = d.
Proof.
  unfold vec_get. destruct (i <? 0); [reflexivity|].
  generalize (Z.to_nat i). induction n as [|n IH]; intros [|k]; simpl; auto.
Qed.

Lemma stored_identity {V} (one : V) n r c :
  Sparse.stored (Sparse.data (Sparse.identity one n)) (r, c) <->
  0 <= r < n /\ r = c.
Proof.
  unfold Sparse.identity, Sparse.stored; simpl. rewrite map_map; simpl.
  rewrite in_map_iff. split.
  - intros [i [Heq Hin]]. apply in_seq in Hin. inversion Heq; subst. lia.
  - intros [Hr <-]. exists (Z.to_nat r). split; [f_equal; lia|].
    apply in_seq. lia.
Qed.

Lemma built_ok_new n q0 M : 0 <= n -> built_ok (DESystem_new n q0 M).
Proof.
  intros Hn. constructor; simpl.
  - exact Hn.
  - apply SparseFacts.canonical_nil.
  - intros p [].
  - intros q e. unfold ContainsTrans, label, Sparse.coeff.
    cbn [DESystem_new states_events_ graph_ Sparse.resize Sparse.data find].
    rewrite vec_get_repeat, test_empty. split; [discriminate|].
    intros [j H]. discriminate.
  - intros r c. unfold DESystem_new at 1. cbn [bit_graph_].
    rewrite stored_identity. unfold in_range, label, Sparse.coeff; simpl.
    split.
    + intros [Hr <-]. tauto.
    + intros [Hr [Hc [->|H]]]; [tauto|congruence].
  - apply repeat_length.
  - apply repeat_length.
Qed.

Lemma label_set_transition A i j e i' j' :
  Sparse.canonical (Sparse.data (graph_ A)) ->
  label (set_transition A i j e) i' j' =
  if Sparse.coord_eqb (i', j') (i, j)
  then EventsSet.set (label A i j) e
  else label A i' j'.
Proof.
  intros Hcan. unfold label, Sparse.coeff, set_transition, Sparse.coeffRef; simpl.
  destruct (Sparse.coord_eqb (i', j') (i, j)) eqn:Heq.
  - apply SparseFacts.coord_eqb_eq in Heq. inversion Heq; subst.
    rewrite SparseFacts.find_put_same by exact Hcan.
    destruct (find _ (Sparse.data (graph_ A))); reflexivity.
  - rewrite SparseFacts.find_put_other; [reflexivity|].
    intro H. rewrite <- SparseFacts.coord_eqb_eq in H. congruence.
Qed.

Lemma ContainsTrans_set_transition A i j e q e' :
  in_range A i -> length (states_events_ A) = Z.to_nat (states_number_ A) ->
  ContainsTrans (set_transition A i j e) q e' =
  ((q =? i) && Nat.eqb e e') || ContainsTrans A q e'.
Proof.
  intros Hi Hlen. unfold ContainsTrans, set_transition; simpl.
  destruct (Z.eqb_spec q i) as [->|Hne]; simpl.
  - unfold in_range in Hi.
    rewrite vec_get_upd_same by lia. apply test_set.
  - rewrite vec_get_upd_other by congruence. reflexivity.
Qed.

Lemma built_ok_set_transition A i j e :
  built_ok A -> in_range A i -> in_range A j ->
  built_ok (set_transition A i j e).
Proof.
  intros [Hn Hcan Hrange Hsum Hbit Hlen Hilen] Hi Hj.
  constructor.
  - exact Hn.
  - simpl. now apply SparseFacts.canonical_put.
  - intros p Hp. simpl in Hp. apply SparseFacts.stored_put in Hp.
    unfold in_range; simpl. destruct Hp as [->|Hp]; [simpl; auto|].
    now apply Hrange.
  - intros q e'. rewrite ContainsTrans_set_transition by assumption.
    split.
    + intros H. apply orb_true_iff in H. destruct H as [H|H].
      * apply andb_true_iff in H. destruct H as [Hq He].
        apply Z.eqb_eq in Hq. apply Nat.eqb_eq in He. subst.
        exists j. rewrite label_set_transition by exact Hcan.
        assert (Hrefl : Sparse.coord_eqb (i, j) (i, j) = true)
          by now apply SparseFacts.coord_eqb_eq.
        rewrite Hrefl, test_set, Nat.eqb_refl. reflexivity.
      * apply Hsum in H. destruct H as [j' Hj'].
        exists j'. rewrite label_set_transition by exact Hcan.
        destruct (Sparse.coord_eqb (q, j') (i, j)) eqn:Heq; [|exact Hj'].
        apply SparseFacts.coord_eqb_eq in Heq. inversion Heq; subst.
        rewrite test_set, Hj'. apply orb_true_r.
    + intros [j' Hj']. rewrite label_set_transition in Hj' by exact Hcan.
      apply orb_true_iff.
      destruct (Sparse.coord_eqb (q, j') (i, j)) eqn:Heq.
      * apply SparseFacts.coord_eqb_eq in Heq. inversion Heq; subst.
        rewrite test_set in Hj'. apply orb_true_iff in Hj'.
        destruct Hj' as [He|Hold].
        -- left. rewrite Z.eqb_refl, He. reflexivity.
        -- right. apply Hsum. now exists j.
      * right. apply Hsum. now exists j'.
  - intros r c. unfold set_transition at 1. cbn [bit_graph_].
    unfold Sparse.coeffRef; simpl. rewrite SparseFacts.stored_put.
    rewrite label_set_transition by exact Hcan.
    unfold in_range in *; simpl. rewrite (Hbit r c). unfold in_range.
    destruct (Sparse.coord_eqb (c, r) (i, j)) eqn:Heq.
    + apply SparseFacts.coord_eqb_eq in Heq. inversion Heq; subst.
      pose proof (set_not_empty (label A i j) e). intuition.
    + assert (Hne : (r, c) <> (j, i)).
      { intro H. inversion H; subst.
        assert (Hrefl : Sparse.coord_eqb (i, j) (i, j) = true)
          by now apply SparseFacts.coord_eqb_eq.
        congruence. }
      intuition.
  - simpl. rewrite vec_upd_length. exact Hlen.
  - simpl. rewrite vec_upd_length. exact Hilen.
Qed.

Lemma built_ok_set_transitions ts : forall A,
  built_ok A ->
  Forall (fun t => in_range A (fst (fst t)) /\ in_range A (snd (fst t))) ts ->
  built_ok (set_transitions A ts).
Proof.
  unfold set_transitions.
  induction ts as [|[[i j] e] ts IH]; intros A HA Hts; simpl; [exact HA|].
  inversion Hts as [|t ts' [Hi Hj] Hrest]; subst. simpl in *.
  apply IH.
  - now apply built_ok_set_transition.
  - exact Hrest.
Qed.

(** The stored transition found by [Trans] when the summary announces one. *)
Lemma Trans_in_range A q e :
  graph_in_range A -> forward_summary_ok A ->
  ContainsTrans A q e = true -> in_range A (Trans A q e).
Proof.
  intros Hrange Hsum Hc. unfold Trans.
  unfold ContainsTrans in Hc. rewrite Hc. simpl.
  assert (Hc' : ContainsTrans A q e = true) by exact Hc.
  apply Hsum in Hc'. destruct Hc' as [j Hj].
  destruct (find (fun qiter => EventsSet.test (snd qiter) e)
                 (Sparse.row (graph_ A) q)) as [qiter|] eqn:E.
  - apply find_some in E. destruct E as [Hin _].
    unfold Sparse.row in Hin. apply in_map_iff in Hin.
    destruct Hin as [[[r c] v] [Heq Hin]]. apply filter_In in Hin.
    destruct Hin as [Hin _]. subst qiter. simpl.
    assert (Hst : Sparse.stored (Sparse.data (graph_ A)) (r, c)).
    { apply SparseFacts.stored_In. now exists v. }
    apply Hrange in Hst. simpl in Hst. tauto.
  - exfalso.
    unfold label, Sparse.coeff in Hj.
    destruct (find (fun e0 => Sparse.coord_eqb (fst e0) (q, j))
                   (Sparse.data (graph_ A))) as [[[r c] v]|] eqn:F;
      [|rewrite test_empty in Hj; discriminate].
    apply find_some in F. destruct F as [Hin Heq]. simpl in *.
    apply SparseFacts.coord_eqb_eq in Heq. inversion Heq; subst.
    assert (Hnone : EventsSet.test (snd (j, v)) e = false);
      [|simpl in Hnone; congruence].
    apply (find_none _ _ E (j, v)).
    unfold Sparse.row. apply in_map_iff. exists ((q, j), v).
    split; [reflexivity|]. apply filter_In. split; [exact Hin|].
    simpl. apply Z.eqb_refl.
Qed.

(* ------------------------------------------------------------------ *)
(** * Phase 1 of the synthesis keeps only states that are not locally bad *)

Lemma vs_trans_allocate vs q e :
  vs_trans (vs_allocateInvertedGraph vs) q e = vs_trans vs q e.
Proof. reflexivity. Qed.

Lemma vs_trans_nonneg P E q e :
  transitions_ok P -> transitions_ok E -> 0 <= q ->
  vs_trans (SyncSysProxy_new P E) q e <> -1 ->
  0 <= vs_trans (SyncSysProxy_new P E) q e.
Proof.
  intros [HrP HsP HiP] [HrE HsE HiE] Hq.
  unfold vs_trans, SyncSysProxy_new; simpl.
  unfold init_ok, in_range in HiP.
  assert (Hx : 0 <= q mod states_number_ P < states_number_ P)
    by (apply Z.mod_pos_bound; lia).
  assert (Hy : 0 <= q / states_number_ P) by (apply Z.div_pos; lia).
  destruct (EventsSet.test _ e); simpl; [|congruence].
  destruct (EventsSet.test _ e); simpl.
  - destruct (ContainsTrans P _ e) eqn:Cx; simpl; [|congruence].
    destruct (ContainsTrans E _ e) eqn:Cy; simpl; [|congruence].
    intros _.
    pose proof (Trans_in_range P _ e HrP HsP Cx) as Tx.
    pose proof (Trans_in_range E _ e HrE HsE Cy) as Ty.
    unfold in_range in *. nia.
  - destruct (EventsSet.test _ e); simpl.
    + destruct (ContainsTrans P _ e) eqn:Cx; simpl; [|congruence].
      intros _.
      pose proof (Trans_in_range P _ e HrP HsP Cx) as Tx.
      unfold in_range in *. nia.
    + destruct (ContainsTrans E _ e) eqn:Cy; simpl; [|congruence].
      intros _.
      pose proof (Trans_in_range E _ e HrE HsE Cy) as Ty.
      unfold in_range in *. nia.
Qed.

Section PhaseOne.

Variable NEvents : nat.
Variable aP : DESystem.
Variable virtualsys : SyncSysProxy.
Variables non_contr_bit p_non_contr_bit : EventsSet.t.

Hypothesis successors_nonneg :
  forall q e, 0 <= q -> vs_trans virtualsys q e <> -1 ->
              0 <= vs_trans virtualsys q e.

Lemma rbs_preds_subset preds : forall fVR x,
  In x (snd (fst (rbs_preds fVR preds))) -> In x (snd (fst fVR)).
Proof.
  unfold rbs_preds.
  induction preds as [|q' preds IH]; intros [[f V] R] x; simpl; [tauto|].
  destruct (contains R q'); intros H; apply IH in H; simpl in H; auto.
  eapply In_erase; eassumption.
Qed.

Lemma rbs_events_subset q es : forall fVR fVR' x,
  rbs_events virtualsys q es fVR = Some fVR' ->
  In x (snd (fst fVR')) -> In x (snd (fst fVR)).
Proof.
  induction es as [|e es IH]; intros fVR fVR' x; simpl.
  - intros H; inversion H; subst; tauto.
  - destruct (vs_invtrans virtualsys q e) as [preds|]; [|discriminate].
    intros H Hx. eapply rbs_preds_subset. eapply IH; eassumption.
Qed.

Lemma rbs_loop_subset fuel : forall f V R VR x,
  rbs_loop NEvents fuel virtualsys non_contr_bit f V R = Some VR ->
  In x (fst VR) -> In x V.
Proof.
  induction fuel as [|fuel IH]; intros f V R VR x; destruct f as [|q f]; simpl;
    try discriminate; try (intros H; inversion H; subst; simpl; tauto).
  destruct (rbs_events virtualsys q (events_of NEvents non_contr_bit) (f, V, R))
    as [fVR|] eqn:E; [|discriminate].
  intros H Hx. apply (IH _ _ _ _ _ H) in Hx.
  apply (rbs_events_subset _ _ _ _ _ E) in Hx. exact Hx.
Qed.

Lemma removeBadStates_subset fuel V q R VR x :
  removeBadStates NEvents fuel virtualsys V q non_contr_bit R = Some VR ->
  In x (fst VR) -> In x V.
Proof. unfold removeBadStates. apply rbs_loop_subset. Qed.

Lemma push_successors_nonneg n : forall q event event_it V R f,
  0 <= q -> Forall (fun s => 0 <= s) f ->
  Forall (fun s => 0 <= s)
         (push_successors n virtualsys q event event_it V R f).
Proof.
  induction n as [|n IH]; intros q event event_it V R f Hq Hf; simpl; auto.
  destruct (EventsSet.any event_it); auto.
  apply IH; auto.
  destruct (Z.eqb_spec (vs_trans virtualsys q event) (-1)) as [|Hne];
    simpl; auto.
  destruct (EventsSet.test event_it 0%nat); auto.
  destruct (contains R _); simpl; auto.
  destruct (contains V _); simpl; auto.
Qed.

Lemma find_loop_kept fuel : forall f V R Vres,
  Forall (fun s => 0 <= s) f ->
  (forall q, In q V -> kept NEvents aP virtualsys p_non_contr_bit q) ->
  find_loop NEvents fuel aP virtualsys non_contr_bit p_non_contr_bit f V R
  = Some Vres ->
  forall q, In q Vres -> kept NEvents aP virtualsys p_non_contr_bit q.
Proof.
  induction fuel as [|fuel IH]; intros f V R Vres Hf HV;
    destruct f as [|q f]; simpl;
    try discriminate; try (intros H; inversion H; subst; assumption).
  inversion Hf as [|q' f' Hq Hf']; subst.
  destruct (negb (contains R q) && negb (contains V q)).
  - destruct (badstate NEvents aP virtualsys p_non_contr_bit q) eqn:Hbad.
    + destruct (rbs_loop NEvents (S fuel) virtualsys non_contr_bit
                         [q] V (insert q R)) as [VR|] eqn:Hrm;
        [|unfold removeBadStates; rewrite Hrm; discriminate].
      unfold removeBadStates. rewrite Hrm.
      apply IH; auto.
      intros x Hx. apply HV. eapply rbs_loop_subset; eassumption.
    + apply IH.
      * apply push_successors_nonneg; auto.
      * intros x Hx. apply In_insert in Hx. destruct Hx as [->|Hx]; auto.
        split; assumption.
  - apply IH; auto.
Qed.

End PhaseOne.

Lemma non_contr_bits_test aP vs U e :
  In e U -> EventsSet.test (events_ aP) e = true ->
  EventsSet.test (snd (non_contr_bits aP vs U)) e = true.
Proof.
  unfold non_contr_bits. intros Hin He.
  assert (Hkeep : forall l bits,
             EventsSet.test (snd bits) e = true ->
             EventsSet.test
               (snd (fold_left
                       (fun bits event =>
                          if EventsSet.test (events_ aP) event then
                            (if EventsSet.test (vs_events vs) event
                             then EventsSet.set (fst bits) event else fst bits,
                             EventsSet.set (snd bits) event)
                          else bits) l bits)) e = true).
  { induction l as [|x l IH]; intros bits Hb; simpl; auto.
    apply IH. destruct (EventsSet.test (events_ aP) x); simpl; auto.
    rewrite test_set, Hb. apply orb_true_r. }
  generalize (EventsSet.empty, EventsSet.empty).
  induction U as [|x U IH]; intros bits; simpl; [destruct Hin|].
  destruct Hin as [->|Hin].
  - apply Hkeep. rewrite He. simpl. rewrite test_set, Nat.eqb_refl. reflexivity.
  - now apply IH.
Qed.

(** A state kept by phase 1 is a state of the product at which no
    uncontrollable event of the plant is disabled by the product. *)
Lemma findRemovedStates_kept NEvents fuel P E U V :
  transitions_ok P -> transitions_ok E ->
  findRemovedStates_ NEvents fuel P E U = Some V ->
  forall q, In q V ->
            kept NEvents P (SyncSysProxy_new P E)
                 (snd (non_contr_bits P (SyncSysProxy_new P E) U)) q.
Proof.
  intros HP HE Hfind q Hq. unfold findRemovedStates_ in Hfind.
  eapply (find_loop_kept NEvents P
            (vs_allocateInvertedGraph (SyncSysProxy_new P E))) in Hfind.
  - exact Hfind.
  - intros q' e' Hq'. rewrite vs_trans_allocate. now apply vs_trans_nonneg.
  - constructor; [|constructor]. simpl.
    destruct HP as [_ _ HiP], HE as [_ _ HiE].
    unfold init_ok, in_range in *. nia.
  - intros x [].
  - exact Hq.
Qed.

(* ------------------------------------------------------------------ *)
(** * Phase 1 of the synthesis returns *)

Lemma filter_length_mono {A} (p p' : A -> bool) l :
  (forall x, In x l -> p' x = true -> p x = true) ->
  (length (filter p' l) <= length (filter p l))%nat.
Proof.
  induction l as [|x l IH]; intros H; simpl; [lia|].
  assert (IH' := IH (fun y Hy => H y (or_intror Hy))).
  pose proof (H x (or_introl eq_refl)) as Hx.
  destruct (p' x), (p x); simpl; lia.
Qed.

Lemma filter_length_mono_strict {A} (p p' : A -> bool) l :
  (forall x, In x l -> p' x = true -> p x = true) ->
  (exists x, In x l /\ p x = true /\ p' x = false) ->
  (length (filter p' l) < length (filter p l))%nat.
Proof.
  induction l as [|x l IH]; intros H [y [Hy [Hp Hp']]]; simpl; [destruct Hy|].
  pose proof (filter_length_mono p p' l (fun z Hz => H z (or_intror Hz))) as Hle.
  pose proof (H x (or_introl eq_refl)) as Hx.
  destruct Hy as [->|Hy].
  - rewrite Hp, Hp'. simpl. lia.
  - assert (IH' : (length (filter p' l) < length (filter p l))%nat).
    { apply IH; [intros z Hz; apply H; now right|]. exists y. auto. }
    destruct (p' x), (p x); simpl; lia.
Qed.

Lemma In_range_states B q : In q (range_states B) <-> 0 <= q < B.
Proof.
  unfold range_states. rewrite in_map_iff. split.
  - intros [i [<- Hi]]. apply in_seq in Hi. lia.
  - intros Hq. exists (Z.to_nat q). split; [lia|]. apply in_seq. lia.
Qed.

Lemma uncovered_bound B V R : (uncovered B V R <= Z.to_nat B)%nat.
Proof.
  unfold uncovered, range_states.
  etransitivity; [apply List.filter_length_le|]. now rewrite length_map, length_seq.
Qed.

Lemma uncovered_covers B V R V' R' :
  covers V R V' R' -> (uncovered B V' R' <= uncovered B V R)%nat.
Proof.
  intros Hc. unfold uncovered. apply filter_length_mono.
  intros x _ Hx. apply negb_true_iff in Hx. apply negb_true_iff.
  destruct (contains V x || contains R x) eqn:E; [|reflexivity].
  apply Hc in E. congruence.
Qed.

Lemma uncovered_covers_more B V R V' R' q :
  covers V R V' R' -> 0 <= q < B ->
  contains V q || contains R q = false ->
  contains V' q || contains R' q = true ->
  (uncovered B V' R' < uncovered B V R)%nat.
Proof.
  intros Hc Hq Hold Hnew. unfold uncovered. apply filter_length_mono_strict.
  - intros x _ Hx. apply negb_true_iff in Hx. apply negb_true_iff.
    destruct (contains V x || contains R x) eqn:E; [|reflexivity].
    apply Hc in E. congruence.
  - exists q. split; [now apply In_range_states|].
    rewrite Hold, Hnew. auto.
Qed.

Lemma contains_insert q t s : contains (insert q t) s = (s =? q) || contains t s.
Proof.
  apply eq_true_iff_eq. rewrite orb_true_iff, !contains_In, In_insert, Z.eqb_eq.
  tauto.
Qed.

Lemma contains_erase q t s : contains (erase q t) s = negb (s =? q) && contains t s.
Proof.
  apply eq_true_iff_eq. rewrite andb_true_iff, !contains_In, negb_true_iff.
  unfold erase. rewrite filter_In, negb_true_iff. tauto.
Qed.

Lemma covers_refl V R : covers V R V R.
Proof. intros s H; exact H. Qed.

Lemma covers_trans V R V1 R1 V2 R2 :
  covers V R V1 R1 -> covers V1 R1 V2 R2 -> covers V R V2 R2.
Proof. intros H1 H2 s Hs. apply H2, H1, Hs. Qed.

(** The stored transitions into a state, read on the allocated inverse
    graph, come from states. *)
Lemma InvTrans_allocated A x e :
  graph_in_range A -> inverse_table_ok A -> in_range A x ->
  exists l, InvTrans (AllocateInvertedGraph A) x e = Some l /\
            states_below (states_number_ A) l.
Proof.
  intros Hrange Hlen Hx. unfold InvTrans; simpl.
  unfold in_range in Hx. destruct (Z.ltb_spec x 0); [lia|].
  destruct (nth_error (inv_states_events_ A) (Z.to_nat x)) as [s|] eqn:E.
  - destruct (EventsSet.test s e); simpl.
    + eexists. split; [reflexivity|].
      apply Forall_forall. intros c Hc. apply in_map_iff in Hc.
      destruct Hc as [[c' v] [<- Hin]]. apply filter_In in Hin.
      destruct Hin as [Hin _]. unfold Sparse.row in Hin.
      apply in_map_iff in Hin. destruct Hin as [[[r c''] v'] [Heq Hin]].
      apply filter_In in Hin. destruct Hin as [Hin Hr]. simpl in *.
      inversion Heq; subst. apply Z.eqb_eq in Hr. subst r.
      assert (Hst : Sparse.stored (Sparse.data (Sparse.transpose (graph_ A))) (x, c')).
      { apply SparseFacts.stored_In. now exists v. }
      apply (proj1 (SparseFacts.stored_transpose (graph_ A) x c')) in Hst.
      apply Hrange in Hst.
      simpl in Hst. unfold in_range in Hst. tauto.
    + exists []. split; [reflexivity|constructor].
  - apply nth_error_None in E. unfold inverse_table_ok in Hlen. lia.
Qed.

Section PhaseOneReturns.

Variable NEvents : nat.
Variables P E : DESystem.
Hypothesis HP : transitions_ok P.
Hypothesis HE : transitions_ok E.
Hypothesis HPinv : inverse_table_ok P.
Hypothesis HEinv : inverse_table_ok E.

Let B := states_number_ P * states_number_ E.
Let vs := vs_allocateInvertedGraph (SyncSysProxy_new P E).

Lemma product_state_parts q :
  0 <= q < B ->
  in_range P (q mod states_number_ P) /\ in_range E (q / states_number_ P).
Proof.
  intros Hq. unfold B in Hq. unfold in_range.
  destruct HP as [_ _ HiP]. unfold init_ok, in_range in HiP.
  split.
  - apply Z.mod_pos_bound. lia.
  - split; [apply Z.div_pos; lia|].
    apply Z.div_lt_upper_bound; lia.
Qed.

Lemma product_state_below x y :
  in_range P x -> in_range E y -> 0 <= y * states_number_ P + x < B.
Proof. unfold in_range, B. intros Hx Hy. nia. Qed.

Lemma vs_trans_below q e :
  0 <= q < B -> vs_trans vs q e <> -1 -> 0 <= vs_trans vs q e < B.
Proof.
  intros Hq. destruct (product_state_parts q Hq) as [Hx Hy].
  destruct HP as [HrP HsP HiP], HE as [HrE HsE HiE].
  unfold vs. rewrite vs_trans_allocate.
  unfold vs_trans, SyncSysProxy_new; simpl.
  destruct (EventsSet.test _ e); simpl; [|congruence].
  destruct (EventsSet.test _ e); simpl.
  - destruct (ContainsTrans P _ e) eqn:Cx; simpl; [|congruence].
    destruct (ContainsTrans E _ e) eqn:Cy; simpl; [|congruence].
    intros _. apply product_state_below; now apply Trans_in_range.
  - destruct (EventsSet.test _ e); simpl.
    + destruct (ContainsTrans P _ e) eqn:Cx; simpl; [|congruence].
      intros _. apply product_state_below; [now apply Trans_in_range|exact Hy].
    + destruct (ContainsTrans E _ e) eqn:Cy; simpl; [|congruence].
      intros _. apply product_state_below; [exact Hx|now apply Trans_in_range].
Qed.

Lemma vs_invtrans_below q e :
  0 <= q < B ->
  exists preds, vs_invtrans vs q e = Some preds /\ states_below B preds.
Proof.
  intros Hq. destruct (product_state_parts q Hq) as [Hx Hy].
  destruct HP as [HrP HsP HiP], HE as [HrE HsE HiE].
  unfold vs, vs_invtrans; simpl.
  destruct (EventsSet.test (EventsSet.union _ _) e); simpl;
    [|exists []; split; [reflexivity|constructor]].
  assert (Hxs : exists xs,
             (if EventsSet.test (events_ P) e
              then InvTrans (AllocateInvertedGraph P) (q mod states_number_ P) e
              else Some [q mod states_number_ P]) = Some xs /\
             states_below (states_number_ P) xs).
  { destruct (EventsSet.test (events_ P) e).
    - now apply InvTrans_allocated.
    - eexists. split; [reflexivity|]. repeat constructor; apply Hx. }
  assert (Hys : exists ys,
             (if EventsSet.test (events_ E) e
              then InvTrans (AllocateInvertedGraph E) (q / states_number_ P) e
              else Some [q / states_number_ P]) = Some ys /\
             states_below (states_number_ E) ys).
  { destruct (EventsSet.test (events_ E) e).
    - now apply InvTrans_allocated.
    - eexists. split; [reflexivity|]. repeat constructor; apply Hy. }
  destruct Hxs as [xs [-> Hxs]], Hys as [ys [-> Hys]].
  eexists. split; [reflexivity|].
  apply Forall_forall. intros s Hs. apply in_flat_map in Hs.
  destruct Hs as [x' [Hx' Hs]]. apply in_map_iff in Hs.
  destruct Hs as [y' [<- Hy']].
  unfold states_below in *. rewrite Forall_forall in Hxs, Hys.
  apply product_state_below; unfold in_range; auto.
Qed.

Lemma rbs_preds_measure preds : forall f V R,
  states_below B f -> states_below B preds ->
  let r := rbs_preds (f, V, R) preds in
  states_below B (fst (fst r)) /\
  covers V R (snd (fst r)) (snd r) /\
  (forall s, contains R s = true -> contains (snd r) s = true) /\
  (length (fst (fst r)) + 2 * uncovered B [] (snd r)
   <= length f + 2 * uncovered B [] R)%nat.
Proof.
  unfold rbs_preds.
  induction preds as [|q' preds IH]; intros f V R Hf Hp; simpl.
  - repeat split; auto. apply covers_refl.
  - inversion Hp as [|? ? Hq' Hp']; subst.
    destruct (contains R q') eqn:HR.
    + now apply IH.
    + destruct (IH (q' :: f) (erase q' V) (insert q' R)) as [H1 [H2 [H3 H4]]];
        [now constructor|assumption|].
      split; [exact H1|]. split; [|split].
      * eapply covers_trans; [|exact H2].
        intros s Hs. rewrite contains_erase, contains_insert.
        destruct (Z.eqb_spec s q'); simpl; auto.
      * intros s Hs. apply H3. rewrite contains_insert, Hs. apply orb_true_r.
      * assert (Hlt : (uncovered B [] (insert q' R) < uncovered B [] R)%nat).
        { apply (uncovered_covers_more B [] R [] (insert q' R) q'); auto.
          - intros s Hs. simpl in *. rewrite contains_insert, Hs. apply orb_true_r.
          - simpl. rewrite contains_insert, Z.eqb_refl. reflexivity. }
        simpl in H4. lia.
Qed.

Lemma rbs_events_measure q es : forall f V R,
  0 <= q < B -> states_below B f ->
  exists r, rbs_events vs q es (f, V, R) = Some r /\
            states_below B (fst (fst r)) /\
            covers V R (snd (fst r)) (snd r) /\
            (forall s, contains R s = true -> contains (snd r) s = true) /\
            (length (fst (fst r)) + 2 * uncovered B [] (snd r)
             <= length f + 2 * uncovered B [] R)%nat.
Proof.
  induction es as [|e es IH]; intros f V R Hq Hf; simpl.
  - eexists. split; [reflexivity|]. simpl. repeat split; auto. apply covers_refl.
  - destruct (vs_invtrans_below q e Hq) as [preds [-> Hp]].
    destruct (rbs_preds_measure preds f V R Hf Hp) as [H1 [H2 [H3 H4]]].
    destruct (rbs_preds (f, V, R) preds) as [[f1 V1] R1] eqn:E1. simpl in *.
    destruct (IH f1 V1 R1 Hq H1) as [r [Hr [G1 [G2 [G3 G4]]]]].
    exists r. split; [exact Hr|]. split; [exact G1|]. split; [|split].
    + eapply covers_trans; eassumption.
    + auto.
    + lia.
Qed.

Lemma rbs_loop_returns non_contr_bit fuel : forall f V R,
  states_below B f ->
  (length f + 2 * uncovered B [] R <= fuel)%nat ->
  exists VR, rbs_loop NEvents fuel vs non_contr_bit f V R = Some VR /\
             covers V R (fst VR) (snd VR) /\
             (forall s, contains R s = true -> contains (snd VR) s = true).
Proof.
  induction fuel as [|fuel IH]; intros f V R Hf Hm; destruct f as [|q f];
    simpl in *; try lia;
    try (eexists; split; [reflexivity|]; simpl; split; [apply covers_refl|auto]).
  inversion Hf as [|? ? Hq Hf']; subst.
  destruct (rbs_events_measure q (events_of NEvents non_contr_bit) f V R Hq Hf')
    as [[[f1 V1] R1] [-> [G1 [G2 [G3 G4]]]]]. simpl in *.
  destruct (IH f1 V1 R1 G1) as [VR [Hr [K1 K2]]]; [lia|].
  exists VR. split; [exact Hr|]. split.
  - eapply covers_trans; eassumption.
  - auto.
Qed.

Lemma push_successors_below n : forall q event event_it V R f,
  0 <= q < B -> states_below B f ->
  states_below B (push_successors n vs q event event_it V R f) /\
  (length (push_successors n vs q event event_it V R f) <= length f + n)%nat.
Proof.
  induction n as [|n IH]; intros q event event_it V R f Hq Hf; simpl.
  - split; [exact Hf|lia].
  - destruct (EventsSet.any event_it); [|split; [exact Hf|lia]].
    match goal with
    | |- context [push_successors n vs q (S event) _ V R ?f'] =>
        assert (Hf' : states_below B f' /\ (length f' <= S (length f))%nat)
    end.
    { destruct (Z.eqb_spec (vs_trans vs q event) (-1)) as [|Hne]; simpl;
        [split; [exact Hf|lia]|].
      destruct (EventsSet.test event_it 0%nat); [|split; [exact Hf|lia]].
      destruct (contains R _); simpl; [split; [exact Hf|lia]|].
      destruct (contains V _); simpl; [split; [exact Hf|lia]|].
      split; [|simpl; lia]. constructor; [|exact Hf].
      now apply vs_trans_below. }
    destruct Hf' as [Hb Hl].
    destruct (IH q (S event) (EventsSet.shr1 event_it) V R _ Hq Hb) as [H1 H2].
    split; [exact H1|lia].
Qed.

Lemma find_loop_returns non_contr_bit p_non_contr_bit fuel : forall f V R,
  states_below B f ->
  (length f + (NEvents + 1) * uncovered B V R + 2 * Z.to_nat B + 1 <= fuel)%nat ->
  exists Vres,
    find_loop NEvents fuel P vs non_contr_bit p_non_contr_bit f V R = Some Vres.
Proof.
  induction fuel as [|fuel IH]; intros f V R Hf Hm; destruct f as [|q f];
    simpl in *; try lia; try (eexists; reflexivity).
  inversion Hf as [|? ? Hq Hf']; subst.
  destruct (contains R q) eqn:HR; simpl.
  { apply IH; [exact Hf'|lia]. }
  destruct (contains V q) eqn:HV; simpl.
  { apply IH; [exact Hf'|lia]. }
  destruct (badstate NEvents P vs p_non_contr_bit q).
  - unfold removeBadStates.
    destruct (rbs_loop_returns non_contr_bit (S fuel) [q] V (insert q R))
      as [[V' R'] [Hr [K1 K2]]].
    { now constructor. }
    { pose proof (uncovered_bound B [] (insert q R)). simpl. lia. }
    rewrite Hr. simpl in *.
    apply IH; [exact Hf'|].
    assert (Hlt : (uncovered B V' R' < uncovered B V R)%nat).
    { apply (uncovered_covers_more B V R V' R' q); auto.
      - intros s Hs. apply K1. rewrite contains_insert.
        apply orb_true_iff in Hs. rewrite !orb_true_iff. tauto.
      - rewrite HV, HR. reflexivity.
      - rewrite (K2 q); [apply orb_true_r|].
        rewrite contains_insert, Z.eqb_refl. reflexivity. }
    nia.
  - destruct (push_successors_below NEvents q 0%nat (EventsSet.set_all NEvents)
                (insert q V) R f Hq Hf') as [H1 H2].
    apply IH; [exact H1|].
    assert (Hlt : (uncovered B (insert q V) R < uncovered B V R)%nat).
    { apply (uncovered_covers_more B V R (insert q V) R q); auto.
      - intros s Hs. rewrite contains_insert.
        apply orb_true_iff in Hs. rewrite !orb_true_iff. tauto.
      - rewrite HV, HR. reflexivity.
      - rewrite contains_insert, Z.eqb_refl. reflexivity. }
    nia.
Qed.

(** With fuel for the states of the product, phase 1 returns its table. *)
Lemma findRemovedStates_returns U fuel :
  ((NEvents + 3) * Z.to_nat B + 2 <= fuel)%nat ->
  exists V, findRemovedStates_ NEvents fuel P E U = Some V.
Proof.
  intros Hfuel. unfold findRemovedStates_.
  apply find_loop_returns.
  - constructor; [|constructor]. simpl.
    destruct HP as [_ _ HiP], HE as [_ _ HiE].
    apply product_state_below; assumption.
  - pose proof (uncovered_bound B [] []). simpl length. nia.
Qed.

End PhaseOneReturns.

(** Whenever phase 1 returns, the supervisor enables at its surviving states
    the uncontrollable events that the plant enables. *)
Lemma controllable_on_return NEvents fuel P E U sp :
  transitions_ok P -> transitions_ok E ->
  SuperProxy_new NEvents fuel P E U = Some sp ->
  forall q e,
    In q (virtual_states_ sp) ->
    In e U -> (e < NEvents)%nat -> EventsSet.test (events_ P) e = true ->
    ContainsTrans P (q mod states_number_ P) e = true ->
    trans_impl sp q e <> -1.
Proof.
  intros HP HE Hnew q e Hq HU HN HeP Hcx.
  unfold SuperProxy_new in Hnew.
  destruct (findRemovedStates_ NEvents fuel P E U) as [V|] eqn:Hfind;
    [|discriminate].
  inversion Hnew; subst sp; clear Hnew. simpl in Hq.
  destruct (findRemovedStates_kept _ _ _ _ _ _ HP HE Hfind q Hq) as [Hq0 Hgood].
  pose proof HP as [HrP HsP HiP]. pose proof HE as [HrE HsE HiE].
  pose proof (Trans_in_range P _ e HrP HsP Hcx) as Tx.
  (* the product enables [e] at [q] *)
  assert (Hvs : vs_trans (SyncSysProxy_new P E) q e <> -1).
  { unfold badstate in Hgood.
    intro Hvs. rewrite <- not_true_iff_false in Hgood. apply Hgood.
    apply existsb_exists. exists e. split; [apply in_seq; lia|].
    rewrite (non_contr_bits_test P _ U e HU HeP). simpl.
    rewrite Hvs. simpl. rewrite andb_true_r.
    apply negb_true_iff. apply Z.eqb_neq.
    unfold in_range in Tx. simpl. lia. }
  unfold vs_trans, SyncSysProxy_new in Hvs; simpl in Hvs.
  rewrite test_union, HeP in Hvs. simpl in Hvs.
  rewrite test_inter, HeP, Hcx in Hvs. simpl in Hvs.
  unfold trans_impl; simpl.
  apply contains_In in Hq. rewrite Hq.
  rewrite test_union, HeP, Hcx. simpl.
  unfold init_ok, in_range in HiP.
  assert (Hy : 0 <= q / states_number_ P) by (apply Z.div_pos; lia).
  destruct (ContainsTrans E (q / states_number_ P) e) eqn:Hcy; simpl.
  - pose proof (Trans_in_range E _ e HrE HsE Hcy) as Ty.
    unfold in_range in *. nia.
  - destruct (EventsSet.test (events_ E) e) eqn:HeE; simpl in Hvs;
      [congruence|].
    rewrite test_xor, test_inter, HeP, HeE. simpl.
    unfold in_range in *. nia.
Qed.

(** C1. Phase 1 of the synthesis on plant [P], specification [E] and
    uncontrollable events [U] returns, given fuel for the states of the
    product, and after it, at every surviving virtual state [q] and for every
    uncontrollable event [e] of the plant's alphabet: if the plant has a
    transition on [e] at [q mod S_P], then the supervisor's transition at [q]
    on [e] is not the sentinel [-1]. *)
Theorem supervisor_controllable NEvents P E U :
  transitions_ok P -> transitions_ok E ->
  inverse_table_ok P -> inverse_table_ok E ->
  forall fuel,
    ((NEvents + 3) * Z.to_nat (states_number_ P * states_number_ E) + 2 <= fuel)%nat ->
    exists sp,
      SuperProxy_new NEvents fuel P E U = Some sp /\
      forall q e,
        In q (virtual_states_ sp) ->
        In e U -> (e < NEvents)%nat -> EventsSet.test (events_ P) e = true ->
        ContainsTrans P (q mod states_number_ P) e = true ->
        trans_impl sp q e <> -1.
Proof.
  intros HP HE HPi HEi fuel Hfuel.
  destruct (findRemovedStates_returns NEvents P E HP HE HPi HEi U fuel Hfuel)
    as [V HV].
  assert (Hnew : exists sp, SuperProxy_new NEvents fuel P E U = Some sp).
  { unfold SuperProxy_new. rewrite HV. eexists. reflexivity. }
  destruct Hnew as [sp Hsp]. exists sp. split; [exact Hsp|].
  now apply (controllable_on_return NEvents fuel P E U sp).
Qed.

(* ------------------------------------------------------------------ *)
(** * Transitions of the supervisor proxy on shared events *)

Lemma product_state_split n x y :
  0 <= x < n -> (y * n + x) mod n = x /\ (y * n + x) / n = y.
Proof.
  intros Hx. split.
  - rewrite Z.add_comm, Z.mod_add by lia. apply Z.mod_small. exact Hx.
  - rewrite Z.add_comm, Z.div_add by lia. rewrite Z.div_small by exact Hx. lia.
Qed.

(** C6, as the code has it. At a surviving virtual state [q = y·S_P + x]
    (a state of [virtual_states_]) and for an event [e] of both alphabets, the
    transition of the proxy is enabled iff both [P.contains_trans(x, e)] and
    [E.contains_trans(y, e)]; when it is, [trans] returns
    [E.trans(y, e)·S_P + P.trans(x, e)], and otherwise the sentinel [-1]. *)
Theorem shared_transition_of_survivor NEvents fuel P E U sp x y e :
  SuperProxy_new NEvents fuel P E U = Some sp ->
  0 <= x < states_number_ P ->
  EventsSet.test (events_ P) e = true ->
  EventsSet.test (events_ E) e = true ->
  In (y * states_number_ P + x) (virtual_states_ sp) ->
  (containstrans_impl sp (y * states_number_ P + x) e = true <->
   (ContainsTrans P x e = true /\ ContainsTrans E y e = true)) /\
  (ContainsTrans P x e = true /\ ContainsTrans E y e = true ->
   trans_impl sp (y * states_number_ P + x) e =
   Trans E y e * states_number_ P + Trans P x e) /\
  (~ (ContainsTrans P x e = true /\ ContainsTrans E y e = true) ->
   trans_impl sp (y * states_number_ P + x) e = -1).
Proof.
  intros Hnew Hx HeP HeE Hq.
  unfold SuperProxy_new in Hnew.
  destruct (findRemovedStates_ NEvents fuel P E U) as [V|]; [|discriminate].
  inversion Hnew; subst sp; clear Hnew. simpl in Hq.
  apply contains_In in Hq.
  destruct (product_state_split (states_number_ P) x y Hx) as [Hmod Hdiv].
  unfold containstrans_impl, trans_impl; simpl.
  rewrite Hq, Hmod, Hdiv, !test_xor, !test_inter, test_union, HeP, HeE.
  simpl. rewrite !andb_false_r, !orb_false_r.
  destruct (ContainsTrans P x e), (ContainsTrans E y e); simpl;
    (split; [|split]);
    solve [ intuition congruence
          | intros [H1 H2]; congruence
          | intros H; first [reflexivity | exfalso; apply H; auto] ].
Qed.

(* ------------------------------------------------------------------ *)
(** * The scenarios, evaluated *)

Lemma built_ok_scenario_B : built_ok Scenarios.scenario_B.
Proof.
  apply built_ok_set_transitions.
  - apply built_ok_new. lia.
  - repeat constructor; simpl; lia.
Qed.

(** C9. On the four-state system of Scenario B, [AccessiblePart] is
    {0,1,2}, [CoaccessiblePart] is {0,2,3}, [TrimStates] is {0,2}, and after
    [Trim] the system has two states. *)
Theorem scenario_B_reductions :
  AccessiblePart Scenarios.scenario_B = [0; 1; 2] /\
  CoaccessiblePart Scenarios.scenario_B = [0; 2; 3] /\
  TrimStates Scenarios.scenario_B = [0; 2] /\
  states_number_ (Trim Scenarios.scenario_B) = 2.
Proof. repeat split; vm_compute; reflexivity. Qed.

(** The system of [tests/basics.cpp], which also has the transition
    2 -> 1 on [a], gives the sets the test expects. *)
Lemma basics_new_sys_reductions :
  AccessiblePart Basics.new_sys = [0; 1; 2] /\
  CoaccessiblePart Basics.new_sys = [0; 2; 3] /\
  TrimStates Basics.new_sys = [0; 2].
Proof. repeat split; vm_compute; reflexivity. Qed.

(** C3, at the system of Scenario B. After [Trim], the new state 1 (the old
    state 2) has the in-edges 0 -> 1 on [g] and 1 -> 1 on [b], and its
    inverse summary holds [b] only: the summary of a column is reset when
    its own row is reached, after earlier rows have written to it.  The
    forward summaries are the unions of the out-edges. *)
Theorem trim_inverse_summary_scenario_B :
  let T := Trim Scenarios.scenario_B in
  label T 0 1 = EventsSet.set EventsSet.empty Scenarios.g /\
  label T 1 1 = EventsSet.set EventsSet.empty Scenarios.b /\
  GetInvStateEvents T 1 = EventsSet.set EventsSet.empty Scenarios.b /\
  GetInvStateEvents T 1 <> EventsSet.union (label T 0 1) (label T 1 1) /\
  GetStateEvents T 0 = EventsSet.union (label T 0 0) (label T 0 1) /\
  GetStateEvents T 1 = EventsSet.union (label T 1 0) (label T 1 1).
Proof. vm_compute. repeat split; try reflexivity. discriminate. Qed.

(** C4, at a two-state system whose initial state is its second state.
    [Trim] cuts state 0 and renumbers state 1 to 0: the marked set becomes
    {0}, while [init_state_] keeps the old number 1, which is no state of
    the trimmed system. *)
Theorem trim_keeps_old_initial_state :
  let A := Scenarios.late_start in
  TrimStates A = [1] /\
  vec_get (-1) (fill_statesmap (states_number_ A) (TrimStates A)) (init_state_ A) = 0 /\
  states_number_ (Trim A) = 1 /\
  marked_states_ (Trim A) = [0] /\
  init_state_ (Trim A) = 1.
Proof. vm_compute. repeat split; reflexivity. Qed.

(** The marked set after [Trim] is the image of the old one under the
    renumbering, for the states that are kept. *)
Lemma trim_marked_states A :
  Z.of_nat (length (TrimStates A)) <> Sparse.rows (graph_ A) ->
  forall m',
    In m' (marked_states_ (Trim A)) <->
    exists m, In m (marked_states_ A) /\
              vec_get (-1) (fill_statesmap (states_number_ A) (TrimStates A)) m = m' /\
              m' <> -1.
Proof.
  intros Hne m'. unfold Trim.
  destruct (Z.eqb_spec (Z.of_nat (length (TrimStates A))) (Sparse.rows (graph_ A)));
    [contradiction|].
  cbn [marked_states_].
  set (sm := fill_statesmap (states_number_ A) (TrimStates A)).
  assert (H : forall l acc,
             In m' (fold_left
                      (fun acc s => if negb (vec_get (-1) sm s =? -1)
                                    then emplace (vec_get (-1) sm s) acc else acc)
                      l acc) <->
             In m' acc \/
             exists m, In m l /\ vec_get (-1) sm m = m' /\ m' <> -1).
  { induction l as [|s l IH]; intros acc; simpl.
    - split; [tauto|]. intros [H|[m [[] _]]]. exact H.
    - rewrite IH. destruct (Z.eqb_spec (vec_get (-1) sm s) (-1)) as [Heq|Hneq]; simpl.
      + split.
        * intros [H|[m [H1 H2]]]; [tauto|]. right. exists m. tauto.
        * intros [H|[m [[->|H1] [H2 H3]]]]; [tauto|congruence|].
          right. exists m. tauto.
      + rewrite In_emplace. split.
        * intros [[->|H]|[m [H1 H2]]]; [|tauto|].
          -- right. exists s. tauto.
          -- right. exists m. tauto.
        * intros [H|[m [[->|H1] [H2 H3]]]]; [tauto|left; left; congruence|].
          right. exists m. tauto. }
  rewrite H. simpl. tauto.
Qed.

(** C8, at the chain with an isolated third state. The first [Trim] keeps
    the two states of the chain and stores the boolean shadow without its
    diagonal; on that shadow the second [Trim] finds no accessible state and
    cuts every state. *)
Theorem trim_twice_differs :
  let A := Scenarios.chain_and_island in
  states_number_ (Trim A) = 2 /\
  Sparse.data (bit_graph_ (Trim A)) = [((1, 0), true)] /\
  AccessiblePart (Trim A) = [] /\
  states_number_ (Trim (Trim A)) = 0.
Proof. vm_compute. repeat split; reflexivity. Qed.

(** On an automaton all of whose states are trim states, [Trim] changes
    nothing. *)
Lemma trim_of_trim_automaton A :
  Z.of_nat (length (TrimStates A)) = Sparse.rows (graph_ A) -> Trim A = A.
Proof. intros H. unfold Trim. rewrite H, Z.eqb_refl. reflexivity. Qed.

(** The conversion of a proxy leaves the boolean shadow empty, whatever the
    triplets it moves to the labelled graph. *)
Lemma to_DESystem_bit_graph NEvents sp :
  Sparse.data (bit_graph_ (to_DESystem NEvents sp)) = [].
Proof. reflexivity. Qed.

(** C2, at the supervisor of the chain with itself. The converted system
    has the transition 0 -> 1 on [a] in its labelled graph, and nothing in
    its boolean shadow: neither the entry of that transition nor the
    diagonal. *)
Theorem supervisor_conversion_without_shadow :
  exists sp,
    SuperProxy_new 3 10 Scenarios.chain Scenarios.chain [] = Some sp /\
    let S := to_DESystem 3 sp in
    states_number_ S = 2 /\
    label S 0 1 = EventsSet.set EventsSet.empty Scenarios.a /\
    ~ Sparse.stored (Sparse.data (bit_graph_ S)) (1, 0) /\
    ~ Sparse.stored (Sparse.data (bit_graph_ S)) (0, 0) /\
    ~ bit_graph_ok S.
Proof.
  eexists. split; [vm_compute; reflexivity|].
  cbv zeta. repeat split; try (vm_compute; reflexivity).
  - intros [].
  - intros [].
  - intros H. destruct (proj2 (H 0 0)) as [].
    vm_compute. repeat split; try discriminate. left. reflexivity.
Qed.

(** The systems made by the constructor and the write primitive do keep the
    boolean shadow in step with the labelled graph. *)
Lemma built_bit_graph_ok n q0 M ts :
  0 <= n ->
  Forall (fun t => 0 <= fst (fst t) < n /\ 0 <= snd (fst t) < n) ts ->
  bit_graph_ok (set_transitions (DESystem_new n q0 M) ts).
Proof.
  intros Hn Hts. apply bok_shadow. apply built_ok_set_transitions.
  - now apply built_ok_new.
  - exact Hts.
Qed.

(** C7, as the code has it. For the one-state plant with a self-loop on the
    uncontrollable [u] and the one-state specification without transitions,
    the alphabet of the specification is empty, [u] is private to the plant,
    and the state of the product survives phase 1: the supervisor has one
    state.  Once [u] is declared in the alphabet of the specification, no
    state survives and the supervisor has no state. *)
Theorem scenario_D_supervisor fuel :
  (exists sp,
      SuperProxy_new 3 (S fuel) Scenarios.plant_D Scenarios.spec_D
                     [Scenarios.u] = Some sp /\
      virtual_states_ sp = [0] /\
      states_number_ (to_DESystem 3 sp) = 1) /\
  (exists sp,
      SuperProxy_new 3 (S fuel) Scenarios.plant_D Scenarios.spec_D_declared
                     [Scenarios.u] = Some sp /\
      virtual_states_ sp = [] /\
      states_number_ (to_DESystem 3 sp) = 0).
Proof.
  destruct fuel; split; eexists; (split; [reflexivity|split; reflexivity]).
Qed.

(** Scenario D as the specification has it: one state survives and the
    supervisor has one state. *)
Lemma scenario_D_not_empty :
  exists sp,
    SuperProxy_new 3 10 Scenarios.plant_D Scenarios.spec_D [Scenarios.u] = Some sp /\
    virtual_states_ sp = [0] /\
    states_number_ (to_DESystem 3 sp) = 1 /\
    virtual_states_ sp <> [] /\
    states_number_ (to_DESystem 3 sp) <> 0.
Proof.
  eexists. split; [vm_compute; reflexivity|].
  repeat split; try (vm_compute; reflexivity); vm_compute; discriminate.
Qed.

(** The transition on a shared event at a virtual state that did not
    survive: both operands enable the event, the proxy does not. *)
Lemma shared_transition_outside_survivors :
  exists sp,
    SuperProxy_new 3 10 Scenarios.plant_loop_aside Scenarios.spec_loop [] = Some sp /\
    EventsSet.test (events_ Scenarios.plant_loop_aside) Scenarios.a = true /\
    EventsSet.test (events_ Scenarios.spec_loop) Scenarios.a = true /\
    ContainsTrans Scenarios.plant_loop_aside 1 Scenarios.a = true /\
    ContainsTrans Scenarios.spec_loop 0 Scenarios.a = true /\
    containstrans_impl sp (0 * 2 + 1) Scenarios.a = false /\
    trans_impl sp (0 * 2 + 1) Scenarios.a = -1 /\
    Trans Scenarios.spec_loop 0 Scenarios.a * 2
      + Trans Scenarios.plant_loop_aside 1 Scenarios.a = 1.
Proof.
  eexists. split; [vm_compute; reflexivity|].
  repeat split; vm_compute; reflexivity.
Qed.

(** C10. If the inverse summary of [q] does not hold [e], [InvTrans]
    returns the empty array and does not read the inverse graph: the result
    is the same whether the inverse graph is allocated or not. *)
Theorem InvTrans_without_inverse_graph A q e :
  ContainsInvTrans A q e = Some false ->
  InvTrans A q e = Some [] /\
  InvTrans (ClearInvertedGraph A) q e = Some [] /\
  InvTrans (AllocateInvertedGraph A) q e = Some [].
Proof.
  unfold ContainsInvTrans, InvTrans; simpl.
  destruct (q <? 0); [discriminate|].
  destruct (nth_error (inv_states_events_ A) (Z.to_nat q)) as [s|];
    [|discriminate].
  intros H. inversion H as [Ht]. rewrite Ht. simpl. auto.
Qed.

Lemma InvTrans_without_inverse_graph_witness :
  ContainsInvTrans Scenarios.scenario_B 3 Scenarios.a = Some false /\
  inv_graph_ Scenarios.scenario_B = None /\
  InvTrans Scenarios.scenario_B 3 Scenarios.a = Some [].
Proof.
  split; [reflexivity|]. split; [reflexivity|].
  exact (proj1 (InvTrans_without_inverse_graph Scenarios.scenario_B 3 Scenarios.a eq_refl)).
Defined.

Lemma AccessiblePart_least_witness :
  graph_in_range Scenarios.scenario_B /\ bit_graph_ok Scenarios.scenario_B /\
  init_ok Scenarios.scenario_B /\
  In (init_state_ Scenarios.scenario_B) (AccessiblePart Scenarios.scenario_B) /\
  (forall i j, In i (AccessiblePart Scenarios.scenario_B) -> edge Scenarios.scenario_B i j ->
               In j (AccessiblePart Scenarios.scenario_B)) /\
  (forall X : Z -> Prop,
      X (init_state_ Scenarios.scenario_B) ->
      (forall i j, X i -> edge Scenarios.scenario_B i j -> X j) ->
      forall s, In s (AccessiblePart Scenarios.scenario_B) -> X s).
Proof.
  assert (Hr : graph_in_range Scenarios.scenario_B) by apply built_ok_scenario_B.
  assert (Hb : bit_graph_ok Scenarios.scenario_B) by apply built_ok_scenario_B.
  assert (Hi : init_ok Scenarios.scenario_B) by (unfold init_ok, in_range; simpl; lia).
  split; [exact Hr|]. split; [exact Hb|]. split; [exact Hi|].
  exact (AccessiblePart_least Scenarios.scenario_B Hr Hb Hi).
Defined.

Lemma transitions_ok_built n q0 M ts :
  0 <= q0 < n ->
  Forall (fun t => 0 <= fst (fst t) < n /\ 0 <= snd (fst t) < n) ts ->
  transitions_ok (set_transitions (DESystem_new n q0 M) ts).
Proof.
  intros Hq Hts.
  assert (Hb : built_ok (set_transitions (DESystem_new n q0 M) ts)).
  { apply built_ok_set_transitions; [apply built_ok_new; lia|exact Hts]. }
  constructor; try apply Hb.
  unfold init_ok, in_range.
  assert (Hs : forall l A, states_number_ (set_transitions A l) = states_number_ A
                           /\ init_state_ (set_transitions A l) = init_state_ A).
  { unfold set_transitions. induction l as [|t l IH]; intros A; simpl; auto.
    destruct (IH (set_transition A (fst (fst t)) (snd (fst t)) (snd t))) as [H1 H2].
    rewrite H1, H2. simpl. auto. }
  destruct (Hs ts (DESystem_new n q0 M)) as [-> ->]. simpl. exact Hq.
Qed.

Lemma inverse_table_ok_built n q0 M ts :
  0 <= n ->
  Forall (fun t => 0 <= fst (fst t) < n /\ 0 <= snd (fst t) < n) ts ->
  inverse_table_ok (set_transitions (DESystem_new n q0 M) ts).
Proof.
  intros Hn Hts. apply bok_inv_len. apply built_ok_set_transitions.
  - now apply built_ok_new.
  - exact Hts.
Qed.

Lemma supervisor_controllable_witness :
  exists sp,
    SuperProxy_new 3 14 Scenarios.chain Scenarios.spec_loop [Scenarios.a] = Some sp /\
    In 0 (virtual_states_ sp) /\
    ContainsTrans Scenarios.chain (0 mod states_number_ Scenarios.chain) Scenarios.a = true /\
    trans_impl sp 0 Scenarios.a <> -1.
Proof.
  assert (H1 : transitions_ok Scenarios.chain).
  { apply (transitions_ok_built 2 0 [1] [(0, 1, Scenarios.a)]); [lia|].
    repeat constructor; simpl; lia. }
  assert (H2 : transitions_ok Scenarios.spec_loop).
  { apply (transitions_ok_built 1 0 [] [(0, 0, Scenarios.a)]); [lia|].
    repeat constructor; simpl; lia. }
  assert (H3 : inverse_table_ok Scenarios.chain) by reflexivity.
  assert (H4 : inverse_table_ok Scenarios.spec_loop) by reflexivity.
  assert (Hfuel : ((3 + 3) * Z.to_nat (states_number_ Scenarios.chain
                                       * states_number_ Scenarios.spec_loop) + 2
                   <= 14)%nat) by (simpl; lia).
  destruct (supervisor_controllable 3 Scenarios.chain Scenarios.spec_loop
              [Scenarios.a] H1 H2 H3 H4 14%nat Hfuel) as [sp [Hsp Hall]].
  exists sp. split; [exact Hsp|].
  assert (Hin : In 0 (virtual_states_ sp)).
  { pose proof Hsp as Hsp'. vm_compute in Hsp'. injection Hsp' as <-.
    simpl. tauto. }
  split; [exact Hin|]. split; [reflexivity|].
  apply Hall.
  - exact Hin.
  - simpl; tauto.
  - unfold Scenarios.a; lia.
  - reflexivity.
  - reflexivity.
Defined.

Lemma shared_transition_of_survivor_witness :
  exists sp,
    SuperProxy_new 3 10 Scenarios.chain Scenarios.spec_loop [] = Some sp /\
    In (0 * states_number_ Scenarios.chain + 0) (virtual_states_ sp) /\
    containstrans_impl sp (0 * states_number_ Scenarios.chain + 0) Scenarios.a = true /\
    trans_impl sp (0 * states_number_ Scenarios.chain + 0) Scenarios.a = 1.
Proof.
  destruct (SuperProxy_new 3 10 Scenarios.chain Scenarios.spec_loop [])
    as [sp|] eqn:E; [|vm_compute in E; discriminate].
  exists sp. split; [reflexivity|].
  assert (Hin : In (0 * states_number_ Scenarios.chain + 0) (virtual_states_ sp)).
  { pose proof E as E'. vm_compute in E'. injection E' as <-. simpl. tauto. }
  split; [exact Hin|].
  destruct (shared_transition_of_survivor 3 10 Scenarios.chain Scenarios.spec_loop
              [] sp 0 0 Scenarios.a E
              (conj (Z.le_refl 0) (eq_refl : (0 ?= 2) = Lt))
              eq_refl eq_refl Hin) as [Hc [Ht _]].
  split.
  - apply Hc. split; reflexivity.
  - etransitivity; [apply Ht; split; reflexivity|reflexivity].
Defined.

(* ------------------------------------------------------------------ *)
(** * The loops of phase 1 over the events *)

Lemma ones_succ_any m : EventsSet.any (N.ones (N.of_nat (S m))) = true.
Proof.
  unfold EventsSet.any. apply negb_true_iff. apply N.eqb_neq. intro H.
  assert (Hb : N.testbit (N.ones (N.of_nat (S m))) 0 = true)
    by (apply N.ones_spec_low; lia).
  rewrite H in Hb. discriminate.
Qed.

Lemma ones_succ_test0 m : EventsSet.test (N.ones (N.of_nat (S m))) 0%nat = true.
Proof. unfold EventsSet.test. apply N.ones_spec_low. lia. Qed.

Lemma ones_succ_shr1 m :
  EventsSet.shr1 (N.ones (N.of_nat (S m))) = N.ones (N.of_nat m).
Proof.
  unfold EventsSet.shr1. apply N.bits_inj. intro i.
  rewrite N.shiftr_spec by apply N.le_0_l.
  destruct (N.ltb_spec i (N.of_nat m)) as [Hlt|Hge].
  - rewrite !N.ones_spec_low; try reflexivity; lia.
  - rewrite !N.ones_spec_high; try reflexivity; lia.
Qed.

Lemma push_successors_fold vs q V R m : forall n k f,
  (m <= n)%nat ->
  push_successors n vs q k (N.ones (N.of_nat m)) V R f =
  fold_left
    (fun f e =>
       if negb (vs_trans vs q e =? -1)
          && negb (contains R (vs_trans vs q e))
          && negb (contains V (vs_trans vs q e))
       then vs_trans vs q e :: f else f)
    (seq k m) f.
Proof.
  induction m as [|m IH]; intros n k f Hn.
  - destruct n; reflexivity.
  - destruct n as [|n]; [lia|]. cbn [push_successors seq fold_left].
    rewrite ones_succ_any, ones_succ_test0, ones_succ_shr1, andb_true_r.
    rewrite IH by lia. f_equal.
    destruct (negb (vs_trans vs q k =? -1)); simpl; [|reflexivity].
    destruct (contains R _); simpl; [reflexivity|].
    destruct (contains V _); reflexivity.
Qed.

(** X1. The [while (event_it.any())] loop of [findRemovedStates_] visits
    every event [0 .. NEvents-1] once, by ascending index, and stops by its
    own test: with any bound of at least [NEvents] iterations it pushes, for
    each event, the successor of [q] in the product when there is one and it
    is in neither table. *)
Theorem push_successors_all_events NEvents vs q V R f n :
  (NEvents <= n)%nat ->
  push_successors n vs q 0%nat (EventsSet.set_all NEvents) V R f =
  fold_left
    (fun f e =>
       if negb (vs_trans vs q e =? -1)
          && negb (contains R (vs_trans vs q e))
          && negb (contains V (vs_trans vs q e))
       then vs_trans vs q e :: f else f)
    (seq 0 NEvents) f.
Proof. intros Hn. unfold EventsSet.set_all. now apply push_successors_fold. Qed.

Lemma push_successors_all_events_witness :
  push_successors 5 (SyncSysProxy_new Scenarios.chain Scenarios.spec_loop) 0
                  0%nat (EventsSet.set_all 3) [] [] [] = [1].
Proof.
  rewrite (push_successors_all_events 3
             (SyncSysProxy_new Scenarios.chain Scenarios.spec_loop) 0 [] [] [] 5)
    by (repeat constructor).
  reflexivity.
Defined.

Lemma non_contr_bits_fold aP vs e : forall U nc pnc,
  let bits :=
    fold_left
      (fun bits event =>
         if EventsSet.test (events_ aP) event then
           (if EventsSet.test (vs_events vs) event
            then EventsSet.set (fst bits) event else fst bits,
            EventsSet.set (snd bits) event)
         else bits)
      U (nc, pnc) in
  (EventsSet.test (snd bits) e = true <->
   EventsSet.test pnc e = true \/
   (In e U /\ EventsSet.test (events_ aP) e = true)) /\
  (EventsSet.test (fst bits) e = true <->
   EventsSet.test nc e = true \/
   (In e U /\ EventsSet.test (events_ aP) e = true
    /\ EventsSet.test (vs_events vs) e = true)).
Proof.
  induction U as [|x U IH]; intros nc pnc; simpl.
  - split; split; tauto.
  - destruct (EventsSet.test (events_ aP) x) eqn:Hx.
    + destruct (EventsSet.test (vs_events vs) x) eqn:Hv.
      * destruct (IH (EventsSet.set nc x) (EventsSet.set pnc x)) as [H1 H2].
        simpl in H1, H2. rewrite H1, H2, !test_set, !orb_true_iff, Nat.eqb_eq.
        split; split; intuition (subst; auto; congruence).
      * destruct (IH nc (EventsSet.set pnc x)) as [H1 H2].
        simpl in H1, H2. rewrite H1, H2, !test_set, !orb_true_iff, Nat.eqb_eq.
        split; split; intuition (subst; auto; congruence).
    + destruct (IH nc pnc) as [H1 H2].
      simpl in H1, H2. rewrite H1, H2.
      split; split; intuition (subst; auto; congruence).
Qed.

(** X2. The two bit arrays that [findRemovedStates_] builds from the
    uncontrollable events: [p_non_contr_bit] holds exactly the events of
    [aNonContr] that are in the alphabet of the plant, and [non_contr_bit]
    those of them that are also in the alphabet of the product. *)
Theorem non_contr_bits_spec aP vs U e :
  (EventsSet.test (snd (non_contr_bits aP vs U)) e = true <->
   (In e U /\ EventsSet.test (events_ aP) e = true)) /\
  (EventsSet.test (fst (non_contr_bits aP vs U)) e = true <->
   (In e U /\ EventsSet.test (events_ aP) e = true
    /\ EventsSet.test (vs_events vs) e = true)).
Proof.
  unfold non_contr_bits.
  destruct (non_contr_bits_fold aP vs e U EventsSet.empty EventsSet.empty)
    as [H1 H2].
  cbv zeta in H1, H2. rewrite test_empty in H1, H2. rewrite H1, H2.
  split; split; intuition congruence.
Qed.

(* ------------------------------------------------------------------ *)
(** * The two transition queries of the supervisor proxy agree *)

(** X3. On the proxy made by the constructor from a plant and a
    specification that satisfy the automaton invariants,
    [containstrans_impl] answers true exactly when [trans_impl] returns a
    state rather than the sentinel [-1], and that state is not negative. *)
Theorem containstrans_iff_trans NEvents fuel P E U sp q e :
  transitions_ok P -> transitions_ok E ->
  SuperProxy_new NEvents fuel P E U = Some sp ->
  (containstrans_impl sp q e = true <-> trans_impl sp q e <> -1) /\
  (trans_impl sp q e <> -1 -> 0 <= trans_impl sp q e).
Proof.
  intros HP HE Hnew. unfold SuperProxy_new in Hnew.
  destruct (findRemovedStates_ NEvents fuel P E U) as [V|] eqn:Hfind;
    [|discriminate].
  inversion Hnew; subst sp; clear Hnew.
  unfold containstrans_impl, trans_impl; simpl.
  destruct (contains V q) eqn:HV; simpl;
    [|split; [split; [discriminate|congruence]|congruence]].
  apply contains_In in HV.
  destruct (findRemovedStates_kept _ _ _ _ _ _ HP HE Hfind q HV) as [Hq _].
  destruct (EventsSet.test _ e); simpl;
    [|split; [split; [discriminate|congruence]|congruence]].
  pose proof HP as [HrP HsP HiP]. pose proof HE as [HrE HsE HiE].
  unfold init_ok, in_range in HiP.
  assert (Hx : 0 <= q mod states_number_ P < states_number_ P)
    by (apply Z.mod_pos_bound; lia).
  assert (Hy : 0 <= q / states_number_ P) by (apply Z.div_pos; lia).
  destruct (ContainsTrans P (q mod states_number_ P) e) eqn:Cx;
    destruct (ContainsTrans E (q / states_number_ P) e) eqn:Cy; simpl.
  - pose proof (Trans_in_range P _ e HrP HsP Cx) as Tx.
    pose proof (Trans_in_range E _ e HrE HsE Cy) as Ty.
    unfold in_range in *.
    split; [split; [intros _; nia|reflexivity]|intros _; nia].
  - pose proof (Trans_in_range P _ e HrP HsP Cx) as Tx. unfold in_range in *.
    destruct (EventsSet.test _ e); simpl;
      [|split; [split; [discriminate|congruence]|congruence]].
    split; [split; [intros _; nia|reflexivity]|intros _; nia].
  - pose proof (Trans_in_range E _ e HrE HsE Cy) as Ty. unfold in_range in *.
    destruct (EventsSet.test _ e); simpl;
      [|split; [split; [discriminate|congruence]|congruence]].
    split; [split; [intros _; nia|reflexivity]|intros _; nia].
  - split; [split; [discriminate|congruence]|congruence].
Qed.

Lemma containstrans_iff_trans_witness :
  exists sp,
    SuperProxy_new 3 14 Scenarios.chain Scenarios.spec_loop [Scenarios.a] = Some sp /\
    containstrans_impl sp 0 Scenarios.a = true /\
    trans_impl sp 0 Scenarios.a <> -1.
Proof.
  destruct (SuperProxy_new 3 14 Scenarios.chain Scenarios.spec_loop [Scenarios.a])
    as [sp|] eqn:E; [|vm_compute in E; discriminate].
  exists sp. split; [reflexivity|].
  assert (Hc : containstrans_impl sp 0 Scenarios.a = true).
  { pose proof E as E'. vm_compute in E'. injection E' as <-. reflexivity. }
  split; [exact Hc|].
  apply (containstrans_iff_trans 3 14 Scenarios.chain Scenarios.spec_loop
           [Scenarios.a] sp 0 Scenarios.a); [| |exact E|exact Hc].
  - apply (transitions_ok_built 2 0 [1] [(0, 1, Scenarios.a)]); [lia|].
    repeat constructor; simpl; lia.
  - apply (transitions_ok_built 1 0 [] [(0, 0, Scenarios.a)]); [lia|].
    repeat constructor; simpl; lia.
Defined.

(* ------------------------------------------------------------------ *)
(** * The reachability kernel on several seed columns *)

Section KernelColumns.
Import Sparse SparseFacts.

Variable g : matrix bool.
Variable S : Z.
Hypothesis Hdiag : forall r, 0 <= r < S -> stored (data g) (r, r).
Hypothesis Hrange :
  forall r c, stored (data g) (r, c) -> 0 <= r < S /\ 0 <= c < S.

Lemma prod_rows_below x : rows_below S (prod g x).
Proof.
  intros r c H. apply stored_prod in H. destruct H as [k [Hg _]].
  now apply Hrange in Hg.
Qed.

Lemma prod_pattern_incl x : rows_below S x -> pattern_incl x (prod g x).
Proof.
  intros Hx [r c] Hp. apply stored_prod. exists r. split; [|exact Hp].
  apply Hdiag. eapply Hx; eassumption.
Qed.

Lemma prod_pattern_mono x x' :
  pattern_incl x x' -> pattern_incl (prod g x) (prod g x').
Proof.
  intros H [r c] Hp. apply stored_prod in Hp. destruct Hp as [k [Hg Hk]].
  apply stored_prod. exists k. split; [exact Hg|now apply H].
Qed.

Lemma iter_rows_below k x :
  rows_below S x -> rows_below S (Nat.iter k (prod g) x).
Proof. destruct k; simpl; [tauto|]. intros _. apply prod_rows_below. Qed.

Lemma iter_canonical k x :
  canonical (data x) -> canonical (data (Nat.iter k (prod g) x)).
Proof. destruct k; simpl; [tauto|]. intros _. apply canonical_prod. Qed.

Lemma iter_incl_succ k x :
  rows_below S x ->
  pattern_incl (Nat.iter k (prod g) x) (Nat.iter (Datatypes.S k) (prod g) x).
Proof. intros Hx. simpl. apply prod_pattern_incl. now apply iter_rows_below. Qed.

Lemma iter_incl_seed k x :
  rows_below S x -> pattern_incl x (Nat.iter k (prod g) x).
Proof.
  intros Hx. induction k as [|k IH]; [intros p Hp; exact Hp|].
  intros p Hp. apply (iter_incl_succ k x Hx). now apply IH.
Qed.

Lemma In_column_coords x c p :
  In p (column_coords x c) <-> stored (data x) p /\ snd p = c.
Proof.
  unfold column_coords, stored. rewrite filter_In, Z.eqb_eq. tauto.
Qed.

Lemma NoDup_column_coords x c :
  canonical (data x) -> NoDup (column_coords x c).
Proof. intros H. apply NoDup_filter. now apply canonical_NoDup. Qed.

Lemma column_full x c :
  canonical (data x) -> rows_below S x ->
  (Z.to_nat S <= length (column_coords x c))%nat ->
  forall r, 0 <= r < S -> stored (data x) (r, c).
Proof.
  intros Hcan Hrows Hlen r Hr.
  set (L := map (fun i => (Z.of_nat i, c)) (seq 0 (Z.to_nat S))).
  assert (Hincl : incl (column_coords x c) L).
  { intros [r' c'] Hp. apply In_column_coords in Hp. destruct Hp as [Hp Hc].
    simpl in Hc. subst c'. apply Hrows in Hp. unfold L. apply in_map_iff.
    exists (Z.to_nat r'). split; [f_equal; lia|]. apply in_seq. lia. }
  assert (HlenL : (length L <= length (column_coords x c))%nat).
  { unfold L. now rewrite length_map, length_seq. }
  pose proof (NoDup_length_incl (NoDup_column_coords x c Hcan) HlenL Hincl) as Hb.
  assert (Hin : In (r, c) (column_coords x c)).
  { apply Hb. unfold L. apply in_map_iff. exists (Z.to_nat r).
    split; [f_equal; lia|]. apply in_seq. lia. }
  apply In_column_coords in Hin. tauto.
Qed.

Lemma column_growth x c :
  canonical (data x) -> rows_below S x ->
  (length (column_coords x c) <= length (column_coords (prod g x) c))%nat /\
  (length (column_coords (prod g x) c) = length (column_coords x c) ->
   stable_column g x c).
Proof.
  intros Hcan Hrows.
  assert (Hincl : incl (column_coords x c) (column_coords (prod g x) c)).
  { intros p Hp. apply In_column_coords in Hp. apply In_column_coords.
    split; [|tauto]. apply prod_pattern_incl; tauto. }
  split.
  - apply NoDup_incl_length; [now apply NoDup_column_coords|exact Hincl].
  - intros Hlen r Hr.
    assert (Hb : incl (column_coords (prod g x) c) (column_coords x c)).
    { apply NoDup_length_incl; [now apply NoDup_column_coords|lia|exact Hincl]. }
    assert (Hin : In (r, c) (column_coords x c)).
    { apply Hb. apply In_column_coords. auto. }
    apply In_column_coords in Hin. tauto.
Qed.

Lemma stable_column_next x c :
  stable_column g x c -> stable_column g (prod g x) c.
Proof.
  intros Hst r Hr. apply stored_prod in Hr. destruct Hr as [k [Hg Hk]].
  apply Hst in Hk. apply stored_prod. exists k. auto.
Qed.

(** After [k] products a column is stable or holds at least [k] rows. *)
Lemma column_stable_or_grown x c k :
  canonical (data x) -> rows_below S x ->
  stable_column g (Nat.iter k (prod g) x) c \/
  (k <= length (column_coords (Nat.iter k (prod g) x) c))%nat.
Proof.
  intros Hcan Hrows. induction k as [|k IH]; [right; simpl; lia|].
  pose proof (column_growth (Nat.iter k (prod g) x) c
                (iter_canonical k x Hcan) (iter_rows_below k x Hrows))
    as [Hle Hstab].
  destruct IH as [IH|IH].
  - left. simpl. now apply stable_column_next.
  - destruct (Nat.eq_dec (length (column_coords (prod g (Nat.iter k (prod g) x)) c))
                         (length (column_coords (Nat.iter k (prod g) x) c)))
      as [Heq|Hne].
    + left. simpl. apply stable_column_next. now apply Hstab.
    + right. simpl. lia.
Qed.

Lemma column_stable_at_S x c :
  canonical (data x) -> rows_below S x ->
  stable_column g (Nat.iter (Z.to_nat S) (prod g) x) c.
Proof.
  intros Hcan Hrows.
  destruct (column_stable_or_grown x c (Z.to_nat S) Hcan Hrows) as [H|H];
    [exact H|].
  intros r Hr. apply column_full.
  - now apply iter_canonical.
  - now apply iter_rows_below.
  - exact H.
  - eapply prod_rows_below. exact Hr.
Qed.

(** Where the loop stops: after [j] products, with [1 <= j <= n], and either
    [j = n] or the count of stored entries did not change at the last one. *)
Lemma bfs_loop_shape n : forall x y nacc,
  (1 <= n)%nat ->
  exists j, (1 <= j <= n)%nat /\
            bfs_loop n g x y nacc = Nat.iter j (prod g) x /\
            (j = n \/
             nonZeros (Nat.iter j (prod g) x) =
             if Nat.eqb j 1 then nacc
             else nonZeros (Nat.iter (j - 1) (prod g) x)).
Proof.
  induction n as [|n IH]; intros x y nacc Hn; [lia|].
  cbn [bfs_loop].
  destruct (Z.eqb_spec nacc (nonZeros (prod g x))) as [Heq|Hne].
  - exists 1%nat. split; [lia|]. split; [reflexivity|]. right. simpl. congruence.
  - destruct n as [|n].
    + exists 1%nat. split; [lia|]. split; [reflexivity|]. left. reflexivity.
    + destruct (IH (prod g x) (prod g x) (nonZeros (prod g x))) as [j [Hj [Hr Hs]]];
        [lia|].
      exists (Datatypes.S j). split; [lia|]. split.
      * rewrite Hr. symmetry. apply Nat.iter_succ_r.
      * destruct Hs as [->|Hs]; [left; reflexivity|]. right.
        rewrite Nat.iter_succ_r, Hs.
        destruct j as [|[|j]]; [lia|reflexivity|].
        replace (Nat.eqb (Datatypes.S (Datatypes.S j)) 1) with false by reflexivity.
        replace (Nat.eqb (Datatypes.S (Datatypes.S (Datatypes.S j))) 1)
          with false by reflexivity.
        replace (Datatypes.S (Datatypes.S j) - 1)%nat with (Datatypes.S j) by lia.
        replace (Datatypes.S (Datatypes.S (Datatypes.S j)) - 1)%nat
          with (Datatypes.S (Datatypes.S j)) by lia.
        now rewrite (Nat.iter_succ_r (Datatypes.S j)).
Qed.

Lemma seeded_reach_sound x0 k r c :
  stored (data (Nat.iter k (prod g) x0)) (r, c) -> seeded_reach g x0 c r.
Proof.
  revert r. induction k as [|k IH]; intros r H.
  - exists r. split; [exact H|constructor].
  - simpl in H. apply stored_prod in H. destruct H as [k' [Hg Hk]].
    destruct (IH _ Hk) as [r0 [H0 Hr]]. exists r0. split; [exact H0|].
    eapply bit_reach_step; eassumption.
Qed.

Lemma seeded_reach_complete x0 y r c :
  pattern_incl x0 y -> stable_column g y c ->
  seeded_reach g x0 c r -> stored (data y) (r, c).
Proof.
  intros Hincl Hst [r0 [H0 Hr]].
  induction Hr as [|c' r' _ IH Hg]; [now apply Hincl|].
  apply Hst. apply stored_prod. exists c'. auto.
Qed.

(** The loop shared by the searches, run for [S] iterations on any seed
    matrix: column by column, it leaves the rows reached from the seeds. *)
Lemma bfs_loop_columns x0 y0 :
  canonical (data x0) -> rows_below S x0 -> data y0 = [] ->
  forall r c,
    stored (data (bfs_loop (Z.to_nat S) g x0 y0 0)) (r, c) <->
    seeded_reach g x0 c r.
Proof.
  intros Hcan Hrows Hy0 r c.
  destruct (Z.to_nat S) as [|n] eqn:En.
  - simpl. rewrite Hy0. split; [intros []|].
    intros [r0 [H0 _]]. apply Hrows in H0. lia.
  - destruct (bfs_loop_shape (Datatypes.S n) x0 y0 0) as [j [Hj [-> Hstop]]];
      [lia|].
    split; [apply seeded_reach_sound|].
    apply seeded_reach_complete; [now apply iter_incl_seed|].
    destruct Hstop as [->|Hstop].
    + rewrite <- En. now apply column_stable_at_S.
    + destruct j as [|[|j]]; [lia| |].
      * cbn [Nat.eqb] in Hstop.
        change (Nat.iter 1 (prod g) x0) with (prod g x0) in *.
        intros r' Hr'.
        apply stored_prod in Hr'. destruct Hr' as [k [_ Hk]].
        unfold nonZeros in Hstop.
        destruct (data (prod g x0)); [destruct Hk|simpl in Hstop; lia].
      * cbn [Nat.eqb] in Hstop.
        replace (Datatypes.S (Datatypes.S j) - 1)%nat with (Datatypes.S j) in Hstop by lia.
        set (a := Nat.iter (Datatypes.S j) (prod g) x0) in *.
        assert (Hb : incl (map fst (data (prod g a))) (map fst (data a))).
        { apply NoDup_length_incl.
          - apply canonical_NoDup. now apply iter_canonical.
          - unfold nonZeros in Hstop. rewrite !length_map.
            change (Nat.iter (Datatypes.S (Datatypes.S j)) (prod g) x0)
              with (prod g a) in Hstop. lia.
          - intros p Hp. apply (prod_pattern_incl a); [|exact Hp].
            now apply iter_rows_below. }
        change (Nat.iter (Datatypes.S (Datatypes.S j)) (prod g) x0) with (prod g a).
        intros r' Hr'. apply stored_prod in Hr'. destruct Hr' as [k [Hg Hk]].
        apply stored_prod. exists k. split; [exact Hg|]. now apply Hb.
Qed.

End KernelColumns.

(* ------------------------------------------------------------------ *)
(** * The backward searches *)

Lemma In_fold_emplace_if {E} (f : E -> Z) (p : Z -> bool) (l : list E)
      (acc : StatesSet) s :
  In s (fold_left (fun acc e => if p (f e) then emplace (f e) acc else acc) l acc)
  <-> In s acc \/ (p s = true /\ exists e, In e l /\ f e = s).
Proof.
  revert acc. induction l as [|e l IH]; intros acc; simpl.
  - split; [tauto|]. intros [H|[_ [e [[] _]]]]. exact H.
  - rewrite IH. destruct (p (f e)) eqn:Hp.
    + rewrite In_emplace. split.
      * intros [[->|H]|[Hs [e' [H1 H2]]]]; [|tauto|].
        -- right. split; [exact Hp|]. exists e. auto.
        -- right. split; [exact Hs|]. exists e'. auto.
      * intros [H|[Hs [e' [[->|H1] H2]]]]; [tauto|left; left; now subst|].
        right. split; [exact Hs|]. exists e'. auto.
    + split.
      * intros [H|[Hs [e' [H1 H2]]]]; [tauto|].
        right. split; [exact Hs|]. exists e'. auto.
      * intros [H|[Hs [e' [[->|H1] H2]]]]; [tauto|congruence|].
        right. split; [exact Hs|]. exists e'. auto.
Qed.

Lemma In_col (y : Sparse.matrix bool) c e :
  In e (Sparse.col y c) -> Sparse.stored (Sparse.data y) (fst e, c).
Proof.
  unfold Sparse.col. intros H. apply in_map_iff in H.
  destruct H as [[[r c'] v] [<- Hin]]. apply filter_In in Hin.
  destruct Hin as [Hin Hc]. simpl in *. apply Z.eqb_eq in Hc. subst.
  apply SparseFacts.stored_In. now exists v.
Qed.

Lemma stored_col (y : Sparse.matrix bool) c s :
  Sparse.stored (Sparse.data y) (s, c) ->
  exists e, In e (Sparse.col y c) /\ fst e = s.
Proof.
  intros H. apply SparseFacts.stored_In in H. destruct H as [v Hin].
  exists (s, v). split; [|reflexivity]. unfold Sparse.col.
  apply in_map_iff. exists ((s, c), v). split; [reflexivity|].
  apply filter_In. split; [exact Hin|]. simpl. apply Z.eqb_refl.
Qed.

(** The states gathered from the columns [cs] of [y], through a filter. *)
Lemma In_gathered (p : Z -> bool) (y : Sparse.matrix bool) cs : forall acc s,
  In s (fold_left
          (fun acc c =>
             fold_left (fun acc' e => if p (fst e) then emplace (fst e) acc' else acc')
                       (Sparse.col y (Z.of_nat c)) acc)
          cs acc) <->
  In s acc \/
  (p s = true /\ exists c, In c cs /\ Sparse.stored (Sparse.data y) (s, Z.of_nat c)).
Proof.
  induction cs as [|c cs IH]; intros acc s; simpl.
  - split; [tauto|]. intros [H|[_ [c [[] _]]]]. exact H.
  - rewrite IH, (In_fold_emplace_if fst p). split.
    + intros [[H|[Hp [e [He Hs]]]]|[Hp [c' [Hc Hst]]]]; [tauto| |].
      * right. split; [exact Hp|]. exists c. split; [now left|].
        subst s. now apply In_col.
      * right. split; [exact Hp|]. exists c'. auto.
    + intros [H|[Hp [c' [[->|Hc] Hst]]]]; [tauto| |].
      * left. right. split; [exact Hp|]. now apply stored_col.
      * right. split; [exact Hp|]. exists c'. auto.
Qed.

Lemma marked_seed_triplets ms : forall (x : Sparse.matrix bool) k,
  marked_seed x ms (Z.of_nat k) =
  Sparse.mk (Sparse.rows x) (Sparse.cols x)
    (fold_left (fun acc t => Sparse.put (fun _ _ => true) acc (fst t) (snd t))
               (map (fun sp => ((fst sp, Z.of_nat (snd sp)), true))
                    (combine ms (seq k (length ms))))
               (Sparse.data x)).
Proof.
  induction ms as [|m ms IH]; intros x k; simpl.
  - destruct x; reflexivity.
  - replace (Z.of_nat k + 1) with (Z.of_nat (S k)) by lia.
    rewrite IH. reflexivity.
Qed.

(** The seed matrices of [CoaccessiblePart] and of [TrimStates] are the
    same matrix. *)
Lemma trim_seed_eq (A : DESystem) :
  Sparse.setFromTriplets (fun _ _ => true)
    (states_number_ A) (Z.of_nat (length (marked_states_ A)))
    (map (fun sp => ((fst sp, Z.of_nat (snd sp)), true))
         (combine (marked_states_ A) (seq 0 (length (marked_states_ A))))) =
  marked_seed (Sparse.resize (states_number_ A)
                             (Z.of_nat (length (marked_states_ A))))
              (marked_states_ A) 0.
Proof.
  rewrite (marked_seed_triplets (marked_states_ A) _ 0). reflexivity.
Qed.

Lemma contains_fold_insert l : forall acc s,
  contains (fold_left (fun t s => insert s t) l acc) s = true <->
  In s acc \/ In s l.
Proof.
  induction l as [|x l IH]; intros acc s; simpl.
  - rewrite contains_In. tauto.
  - rewrite IH, In_insert. intuition.
Qed.

Lemma TrimStates_in_both (A : DESystem) (s : Z) :
  In s (TrimStates A) <->
  In s (AccessiblePart A) /\ In s (CoaccessiblePart A).
Proof.
  unfold TrimStates, CoaccessiblePart. rewrite trim_seed_eq.
  set (y := bfs_loop _ _ _ _ _).
  rewrite In_gathered.
  rewrite (In_gathered (fun _ => true) y (seq 0 (Z.to_nat (Sparse.cols y))) [] s).
  rewrite contains_fold_insert. simpl. intuition.
Qed.

(** X4. [TrimStates] is the intersection of [AccessiblePart] and
    [CoaccessiblePart], for every system: the search that [TrimStates] runs
    on its own seed matrix is the one of [CoaccessiblePart]. *)
Theorem TrimStates_intersection (A : DESystem) (s : Z) :
  In s (TrimStates A) <->
  In s (AccessiblePart A) /\ In s (CoaccessiblePart A).
Proof. apply TrimStates_in_both. Qed.

Lemma stored_marked_seed ms : forall (x : Sparse.matrix bool) k r c,
  Sparse.stored (Sparse.data (marked_seed x ms (Z.of_nat k))) (r, c) <->
  Sparse.stored (Sparse.data x) (r, c) \/
  exists i, nth_error ms i = Some r /\ c = Z.of_nat (k + i).
Proof.
  induction ms as [|m ms IH]; intros x k r c; simpl.
  - split; [tauto|]. intros [H|[i [Hi _]]]; [exact H|].
    destruct i; discriminate.
  - replace (Z.of_nat k + 1) with (Z.of_nat (S k)) by lia.
    rewrite IH. unfold Sparse.coeffRef; simpl.
    rewrite SparseFacts.stored_put. split.
    + intros [[H|H]|[i [Hi Hc]]].
      * inversion H; subst. right. exists 0%nat. split; [reflexivity|f_equal; lia].
      * tauto.
      * right. exists (S i). split; [exact Hi|]. subst. f_equal. lia.
    + intros [H|[[|i] [Hi Hc]]].
      * tauto.
      * simpl in Hi. inversion Hi; subst. left. left. f_equal. f_equal. lia.
      * right. exists i. split; [exact Hi|]. subst. f_equal. lia.
Qed.

Lemma canonical_marked_seed ms : forall (x : Sparse.matrix bool) pos,
  Sparse.canonical (Sparse.data x) ->
  Sparse.canonical (Sparse.data (marked_seed x ms pos)).
Proof.
  induction ms as [|m ms IH]; intros x pos Hx; simpl; [exact Hx|].
  apply IH. unfold Sparse.coeffRef; simpl. now apply SparseFacts.canonical_put.
Qed.

Lemma cols_marked_seed ms : forall (x : Sparse.matrix bool) pos,
  Sparse.cols (marked_seed x ms pos) = Sparse.cols x.
Proof.
  induction ms as [|m ms IH]; intros x pos; simpl; [reflexivity|].
  now rewrite IH.
Qed.

(** What [CoaccessiblePart] holds: the states that reach a marked state
    along the stored entries of the boolean shadow. *)
Lemma CoaccessiblePart_coreachable (A : DESystem) :
  graph_in_range A -> bit_graph_ok A -> marked_ok A ->
  forall s, In s (CoaccessiblePart A) <-> coreachable A s.
Proof.
  intros Hrange Hbit Hmarked s.
  unfold CoaccessiblePart.
  set (g := Sparse.transpose (bit_graph_ A)).
  set (x0 := marked_seed _ _ _).
  set (y0 := Sparse.resize _ _).
  assert (Hg : forall r c, Sparse.stored (Sparse.data g) (r, c) <->
                           in_range A r /\ in_range A c /\
                           (r = c \/ label A r c <> EventsSet.empty)).
  { intros r c. unfold g. rewrite SparseFacts.stored_transpose, (Hbit c r).
    intuition. }
  assert (Hdiag : forall r, 0 <= r < states_number_ A ->
                            Sparse.stored (Sparse.data g) (r, r)).
  { intros r Hr. apply Hg. unfold in_range. tauto. }
  assert (Hrg : forall r c, Sparse.stored (Sparse.data g) (r, c) ->
                            0 <= r < states_number_ A /\ 0 <= c < states_number_ A).
  { intros r c H. apply Hg in H. unfold in_range in H. tauto. }
  assert (Hx0 : forall r c, Sparse.stored (Sparse.data x0) (r, c) <->
                            exists i, nth_error (marked_states_ A) i = Some r
                                      /\ c = Z.of_nat i).
  { intros r c. unfold x0.
    rewrite (stored_marked_seed (marked_states_ A) _ 0%nat r c). simpl.
    split; [intros [[]|H]; exact H|auto]. }
  assert (Hcan : Sparse.canonical (Sparse.data x0)).
  { apply canonical_marked_seed. apply SparseFacts.canonical_nil. }
  assert (Hrows : rows_below (states_number_ A) x0).
  { intros r c H. apply Hx0 in H. destruct H as [i [Hi _]].
    apply nth_error_In in Hi. now apply Hmarked in Hi. }
  pose proof (bfs_loop_columns g (states_number_ A) Hdiag Hrg x0 y0
                Hcan Hrows eq_refl) as Hloop.
  set (y := bfs_loop _ _ _ _ _) in *.
  assert (Hcols : Sparse.cols y = Z.of_nat (length (marked_states_ A))).
  { apply cols_bfs_loop; [apply cols_marked_seed|reflexivity]. }
  rewrite (In_gathered (fun _ => true) y (seq 0 (Z.to_nat (Sparse.cols y))) [] s).
  rewrite Hcols, Nat2Z.id. split.
  - intros [[]|[_ [c [Hc Hst]]]].
    apply Hloop in Hst. destruct Hst as [m [Hm Hreach]].
    apply Hx0 in Hm. destruct Hm as [i [Hi _]]. apply nth_error_In in Hi.
    clear Hc. induction Hreach as [|c' r' _ IH Hst]; [now constructor|].
    apply Hg in Hst. destruct Hst as [_ [_ [->|Hl]]]; [exact IH|].
    eapply coreach_step; [exact Hl|exact IH].
  - intros Hco. right. split; [reflexivity|].
    assert (H : exists m, In m (marked_states_ A) /\ bit_reach g m s).
    { induction Hco as [m Hm|i j He _ [m [Hm Hr]]].
      - exists m. split; [exact Hm|constructor].
      - exists m. split; [exact Hm|].
        eapply bit_reach_step; [exact Hr|]. apply Hg.
        pose proof (SparseFacts.coeff_stored _ _ _ _ He) as Hst.
        apply Hrange in Hst. simpl in Hst. unfold edge in He. tauto. }
    destruct H as [m [Hm Hr]].
    apply In_nth_error in Hm. destruct Hm as [i Hi].
    exists i. split.
    + apply in_seq. split; [lia|]. simpl.
      apply nth_error_Some. congruence.
    + apply Hloop. exists m. split; [|exact Hr]. apply Hx0. exists i. auto.
Qed.

(** X5. For an automaton whose boolean shadow is stored as Bᵀ + I and whose
    marked states are states, [CoaccessiblePart] is the least set of states
    that holds the marked states and is closed under incoming transitions. *)
Theorem CoaccessiblePart_least (A : DESystem) :
  graph_in_range A -> bit_graph_ok A -> marked_ok A ->
  (forall m, In m (marked_states_ A) -> In m (CoaccessiblePart A)) /\
  (forall i j, edge A i j -> In j (CoaccessiblePart A) ->
               In i (CoaccessiblePart A)) /\
  (forall X : Z -> Prop,
      (forall m, In m (marked_states_ A) -> X m) ->
      (forall i j, edge A i j -> X j -> X i) ->
      forall s, In s (CoaccessiblePart A) -> X s).
Proof.
  intros Hrange Hbit Hmarked.
  pose proof (CoaccessiblePart_coreachable A Hrange Hbit Hmarked) as Hco.
  split; [|split].
  - intros m Hm. apply Hco. now constructor.
  - intros i j He Hj. apply Hco. apply Hco in Hj.
    eapply coreach_step; eassumption.
  - intros X HM Hstep s Hs. apply Hco in Hs.
    induction Hs as [m Hm|i j He _ IH]; [now apply HM|].
    eapply Hstep; eassumption.
Qed.

Lemma TrimStates_trim_iff (A : DESystem) :
  graph_in_range A -> bit_graph_ok A -> init_ok A -> marked_ok A ->
  forall s, In s (TrimStates A) <-> reachable A s /\ coreachable A s.
Proof.
  intros Hrange Hbit Hinit Hmarked s.
  rewrite (TrimStates_in_both A s).
  rewrite (AccessiblePart_reachable A Hrange Hbit Hinit s).
  rewrite (CoaccessiblePart_coreachable A Hrange Hbit Hmarked s).
  tauto.
Qed.

(** X6. For such an automaton whose initial state is a state, the trim
    states are the states that are reached from the initial state and reach
    a marked state. *)
Theorem TrimStates_reach_and_coreach (A : DESystem) :
  graph_in_range A -> bit_graph_ok A -> init_ok A -> marked_ok A ->
  forall s, In s (TrimStates A) <-> reachable A s /\ coreachable A s.
Proof. exact (TrimStates_trim_iff A). Qed.

(* ------------------------------------------------------------------ *)
(** * What [Trim] builds *)

Lemma trim_edge_in_step statesmap row_id b e :
  triplets_in_step b -> triplets_in_step (trim_edge statesmap row_id b e).
Proof.
  unfold triplets_in_step, trim_edge. intros H.
  destruct (negb (vec_get (-1) statesmap (fst e) =? -1)); [|exact H].
  simpl. rewrite !map_app, H. reflexivity.
Qed.

Lemma trim_row_in_step old statesmap rb s :
  triplets_in_step (snd rb) ->
  triplets_in_step (snd (trim_row old statesmap rb s)).
Proof.
  unfold trim_row. simpl. intros H.
  set (b0 := {| tb_triplet := _ |}).
  assert (H0 : triplets_in_step b0) by exact H.
  clearbody b0. revert b0 H0.
  induction (Sparse.row old s) as [|e es IH]; intros b0 H0; simpl; [exact H0|].
  apply IH. now apply trim_edge_in_step.
Qed.

Lemma trim_rows_in_step old statesmap l : forall rb,
  triplets_in_step (snd rb) ->
  triplets_in_step (snd (fold_left (trim_row old statesmap) l rb)).
Proof.
  induction l as [|s l IH]; intros rb H; simpl; [exact H|].
  apply IH. now apply trim_row_in_step.
Qed.

(** X7. When [Trim] cuts states, the boolean shadow it stores is exactly the
    transposed pattern of the labelled graph it stores: entry [(r, c)] is
    stored iff there is a transition from [c] to [r]. No diagonal is
    added. *)
Theorem Trim_shadow_transposed (A : DESystem) :
  Z.of_nat (length (TrimStates A)) <> Sparse.rows (graph_ A) ->
  forall r c,
    Sparse.stored (Sparse.data (bit_graph_ (Trim A))) (r, c) <->
    Sparse.stored (Sparse.data (graph_ (Trim A))) (c, r).
Proof.
  intros Hne r c. unfold Trim.
  destruct (Z.eqb_spec (Z.of_nat (length (TrimStates A))) (Sparse.rows (graph_ A)))
    as [Heq|_]; [exfalso; exact (Hne Heq)|].
  cbn [bit_graph_ graph_]. unfold Sparse.setFromTriplets. cbn [Sparse.data].
  rewrite !SparseFacts.stored_fold_put.
  match goal with
  | |- context [fold_left (trim_row ?old ?sm) ?l ?rb] =>
      pose proof (trim_rows_in_step old sm l rb eq_refl) as Hstep
  end.
  unfold triplets_in_step in Hstep.
  set (b := snd (fold_left _ _ _)) in *.
  assert (Hb : Sparse.stored (tb_bittriplet b) (r, c) <->
               Sparse.stored (tb_triplet b) (c, r)).
  { unfold Sparse.stored. rewrite Hstep, !in_map_iff. split.
    - intros [t [Heq Hin]]. exists t. split; [|exact Hin].
      destruct t as [[i j] v]. simpl in *. congruence.
    - intros [t [Heq Hin]]. exists t. split; [|exact Hin].
      destruct t as [[i j] v]. simpl in *. congruence. }
  rewrite Hb. unfold Sparse.stored at 1 3. simpl. tauto.
Qed.

Lemma Trim_shadow_transposed_witness :
  Z.of_nat (length (TrimStates Scenarios.chain_and_island))
  <> Sparse.rows (graph_ Scenarios.chain_and_island) /\
  (Sparse.stored (Sparse.data (bit_graph_ (Trim Scenarios.chain_and_island))) (0, 0) <->
   Sparse.stored (Sparse.data (graph_ (Trim Scenarios.chain_and_island))) (0, 0)).
Proof.
  assert (H : Z.of_nat (length (TrimStates Scenarios.chain_and_island))
              <> Sparse.rows (graph_ Scenarios.chain_and_island))
    by (vm_compute; discriminate).
  split; [exact H|].
  exact (Trim_shadow_transposed Scenarios.chain_and_island H 0 0).
Defined.

(* ------------------------------------------------------------------ *)
(** * The trim states as a renumbering *)

Lemma emplace_sorted s l :
  StronglySorted Z.lt l -> StronglySorted Z.lt (emplace s l).
Proof.
  induction l as [|h t IH]; intros Hs; simpl.
  - repeat constructor.
  - inversion Hs as [|? ? Ht Hall]; subst.
    destruct (Z.ltb_spec s h).
    + constructor; [exact Hs|]. constructor; [assumption|].
      rewrite Forall_forall in *. intros x Hx. specialize (Hall x Hx). lia.
    + destruct (Z.eqb_spec s h); [exact Hs|].
      constructor; [now apply IH|].
      rewrite Forall_forall in *. intros x Hx. apply In_emplace in Hx.
      destruct Hx as [->|Hx]; [lia|now apply Hall].
Qed.

Lemma sorted_NoDup l : StronglySorted Z.lt l -> NoDup l.
Proof.
  induction 1 as [|x xs Hs IH Hall]; constructor; auto.
  intro Hin. rewrite Forall_forall in Hall. specialize (Hall x Hin). lia.
Qed.

Lemma gathered_sorted (p : Z -> bool) (y : Sparse.matrix bool) cs : forall acc,
  StronglySorted Z.lt acc ->
  StronglySorted Z.lt
    (fold_left
       (fun acc c =>
          fold_left (fun acc' e => if p (fst e) then emplace (fst e) acc' else acc')
                    (Sparse.col y (Z.of_nat c)) acc)
       cs acc).
Proof.
  induction cs as [|c cs IH]; intros acc Hacc; simpl; [exact Hacc|].
  apply IH. revert acc Hacc.
  induction (Sparse.col y (Z.of_nat c)) as [|e es IHe]; intros acc Hacc; simpl;
    [exact Hacc|].
  apply IHe. destruct (p (fst e)); [now apply emplace_sorted|exact Hacc].
Qed.

Lemma TrimStates_sorted A : StronglySorted Z.lt (TrimStates A).
Proof. unfold TrimStates. apply gathered_sorted. constructor. Qed.

Lemma rows_below_bfs_loop (g : Sparse.matrix bool) S n : forall x y nacc,
  (forall r c, Sparse.stored (Sparse.data g) (r, c) -> 0 <= r < S) ->
  rows_below S y -> rows_below S (bfs_loop n g x y nacc).
Proof.
  induction n as [|n IH]; intros x y nacc Hg Hy; simpl; [exact Hy|].
  assert (Hp : rows_below S (Sparse.prod g x)).
  { intros r c H. apply SparseFacts.stored_prod in H.
    destruct H as [k [H _]]. now apply Hg in H. }
  destruct (nacc =? Sparse.nonZeros (Sparse.prod g x)); [exact Hp|].
  now apply IH.
Qed.

Lemma TrimStates_in_range A :
  bit_graph_in_range A -> forall s, In s (TrimStates A) -> in_range A s.
Proof.
  intros Hbit s Hs. unfold TrimStates in Hs.
  apply In_gathered in Hs. destruct Hs as [[]|[_ [c [_ Hst]]]].
  revert Hst. apply rows_below_bfs_loop.
  - intros r c' H.
    apply (proj1 (SparseFacts.stored_transpose (bit_graph_ A) r c')) in H.
    apply Hbit in H. unfold in_range in H. tauto.
  - intros r c' [].
Qed.

Lemma fill_statesmap_fold l : forall d sm,
  NoDup l ->
  (forall s, In s l -> 0 <= s /\ (Z.to_nat s < length sm)%nat) ->
  let sm' := snd (fold_left
                    (fun ds s => (fst ds + 1, vec_upd (fun _ => fst ds) (snd ds) s))
                    l (d, sm)) in
  (forall i s, nth_error l i = Some s -> vec_get (-1) sm' s = d + Z.of_nat i) /\
  (forall s, ~ In s l -> vec_get (-1) sm' s = vec_get (-1) sm s).
Proof.
  induction l as [|x l IH]; intros d sm Hnd Hr; simpl.
  - split; [intros [|i] s H; discriminate|reflexivity].
  - inversion Hnd as [|? ? Hx Hnd']; subst.
    destruct (IH (d + 1) (vec_upd (fun _ => d) sm x) Hnd') as [H1 H2].
    { intros s Hs. rewrite vec_upd_length. apply Hr. now right. }
    simpl in H1, H2. split.
    + intros [|i] s Hi; simpl in Hi.
      * inversion Hi; subst. rewrite (H2 s Hx).
        destruct (Hr s (or_introl eq_refl)) as [Hs0 Hs1].
        rewrite vec_get_upd_same by assumption. lia.
      * rewrite (H1 i s Hi). lia.
    + intros s Hs. rewrite H2 by tauto.
      apply vec_get_upd_other. intro; subst; tauto.
Qed.

Lemma renumber_spec A :
  bit_graph_in_range A ->
  (forall i s, nth_error (TrimStates A) i = Some s -> renumber A s = Z.of_nat i) /\
  (forall s, ~ In s (TrimStates A) -> renumber A s = -1).
Proof.
  intros Hbit. unfold renumber, fill_statesmap.
  destruct (fill_statesmap_fold (TrimStates A) 0
              (repeat (-1) (Z.to_nat (states_number_ A)))) as [H1 H2].
  - apply sorted_NoDup, TrimStates_sorted.
  - intros s Hs. apply (TrimStates_in_range A Hbit) in Hs.
    unfold in_range in Hs. rewrite repeat_length. lia.
  - simpl in H1, H2. split.
    + intros i s Hi. rewrite (H1 i s Hi). lia.
    + intros s Hs. rewrite (H2 s Hs). apply vec_get_repeat.
Qed.

Lemma renumber_kept A s :
  bit_graph_in_range A -> renumber A s <> -1 ->
  exists i, nth_error (TrimStates A) i = Some s /\ renumber A s = Z.of_nat i.
Proof.
  intros Hbit Hne. destruct (renumber_spec A Hbit) as [H1 H2].
  destruct (in_dec Z.eq_dec s (TrimStates A)) as [Hin|Hnin].
  - apply In_nth_error in Hin. destruct Hin as [i Hi].
    exists i. split; [exact Hi|now apply H1].
  - now apply H2 in Hnin.
Qed.

(* ------------------------------------------------------------------ *)
(** * The rebuild of [Trim], row by row *)

Section TrimRows.

Variable statesmap : list Z.
Variable old_graph : Sparse.matrix EventsSet.t.

Lemma trim_edge_kept row_id b ed :
  negb (vec_get (-1) statesmap (fst ed) =? -1) = true ->
  (0 < length (tb_states_events b))%nat ->
  trim_edge statesmap row_id b ed =
  {| tb_triplet :=
       tb_triplet b ++ [((row_id, vec_get (-1) statesmap (fst ed)), snd ed)];
     tb_bittriplet :=
       tb_bittriplet b ++ [((vec_get (-1) statesmap (fst ed), row_id), true)];
     tb_events := EventsSet.union (tb_events b) (snd ed);
     tb_states_events :=
       vec_upd (fun s => EventsSet.union s (snd ed)) (tb_states_events b) row_id;
     tb_inv_states_events :=
       vec_upd (fun s => EventsSet.union s (snd ed))
               (tb_inv_states_events b) (vec_get (-1) statesmap (fst ed)) |}.
Proof.
  intros Hk Hpos. unfold trim_edge. rewrite Hk.
  apply Nat.ltb_lt in Hpos. rewrite Hpos. reflexivity.
Qed.

Lemma trim_edge_cut row_id b ed :
  negb (vec_get (-1) statesmap (fst ed) =? -1) = false ->
  trim_edge statesmap row_id b ed = b.
Proof. intros Hk. unfold trim_edge. now rewrite Hk. Qed.

Lemma trim_edges_spec row_id es : forall b,
  (0 < length (tb_states_events b))%nat ->
  0 <= row_id -> (Z.to_nat row_id < length (tb_states_events b))%nat ->
  let b' := fold_left (trim_edge statesmap row_id) es b in
  tb_triplet b' =
    tb_triplet b ++
    map (fun e => ((row_id, vec_get (-1) statesmap (fst e)), snd e))
        (filter (fun e => negb (vec_get (-1) statesmap (fst e) =? -1)) es) /\
  length (tb_states_events b') = length (tb_states_events b) /\
  (forall r, r <> row_id ->
             vec_get EventsSet.empty (tb_states_events b') r =
             vec_get EventsSet.empty (tb_states_events b) r) /\
  (forall e,
      EventsSet.test (vec_get EventsSet.empty (tb_states_events b') row_id) e =
      EventsSet.test (vec_get EventsSet.empty (tb_states_events b) row_id) e
      || existsb (fun ed => EventsSet.test (snd ed) e)
                 (filter (fun e => negb (vec_get (-1) statesmap (fst e) =? -1)) es)).
Proof.
  induction es as [|ed es IH]; intros b Hpos Hrow Hlen; cbn [fold_left filter].
  - cbn zeta. cbn [map existsb]. rewrite app_nil_r. repeat split; auto.
    intros e. now rewrite orb_false_r.
  - destruct (negb (vec_get (-1) statesmap (fst ed) =? -1)) eqn:Hk.
    + rewrite (trim_edge_kept row_id b ed Hk Hpos).
      match goal with
      | |- context [fold_left _ es ?b1] =>
          destruct (IH b1) as [H1 [H2 [H3 H4]]]
      end.
      * cbn [tb_states_events]. now rewrite vec_upd_length.
      * exact Hrow.
      * cbn [tb_states_events]. now rewrite vec_upd_length.
      * cbn zeta in *. cbn [tb_states_events tb_triplet] in H1, H2, H3, H4.
        rewrite vec_upd_length in H2.
        rewrite H1, H2, <- app_assoc. cbn [map existsb app].
        split; [reflexivity|]. split; [reflexivity|]. split.
        -- intros r Hr. rewrite (H3 r Hr). apply vec_get_upd_other. congruence.
        -- intros e. rewrite H4, vec_get_upd_same by assumption.
           rewrite test_union, orb_assoc. reflexivity.
    + rewrite (trim_edge_cut row_id b ed Hk). now apply IH.
Qed.

Lemma trim_row_spec rb s :
  (0 < length (tb_states_events (snd rb)))%nat ->
  0 <= fst rb -> (Z.to_nat (fst rb) < length (tb_states_events (snd rb)))%nat ->
  let rb' := trim_row old_graph statesmap rb s in
  fst rb' = fst rb + 1 /\
  tb_triplet (snd rb') =
    tb_triplet (snd rb) ++ row_triplets statesmap old_graph (fst rb) s /\
  length (tb_states_events (snd rb')) = length (tb_states_events (snd rb)) /\
  (forall r, r <> fst rb ->
             vec_get EventsSet.empty (tb_states_events (snd rb')) r =
             vec_get EventsSet.empty (tb_states_events (snd rb)) r) /\
  (forall e,
      EventsSet.test (vec_get EventsSet.empty (tb_states_events (snd rb')) (fst rb)) e =
      existsb (fun ed => EventsSet.test (snd ed) e)
              (kept_row statesmap old_graph s)).
Proof.
  intros Hpos Hrow Hlen. unfold trim_row. cbn [fst snd].
  pose proof Hpos as Hpos'. apply Nat.ltb_lt in Hpos'. rewrite Hpos'.
  match goal with
  | |- context [fold_left _ _ ?b0] =>
      destruct (trim_edges_spec (fst rb) (Sparse.row old_graph s) b0)
        as [H1 [H2 [H3 H4]]]
  end.
  - cbn [tb_states_events]. now rewrite vec_upd_length.
  - exact Hrow.
  - cbn [tb_states_events]. now rewrite vec_upd_length.
  - cbn zeta in H1, H2, H3, H4.
    cbn [tb_states_events tb_triplet] in H1, H2, H3, H4.
    rewrite vec_upd_length in H2.
    split; [reflexivity|]. split; [exact H1|]. split; [exact H2|]. split.
    + intros r Hr. rewrite (H3 r Hr). apply vec_get_upd_other. congruence.
    + intros e. rewrite H4, vec_get_upd_same by assumption.
      cbv beta. rewrite test_empty. reflexivity.
Qed.

Lemma trim_rows_spec l : forall k b,
  (0 < length (tb_states_events b))%nat ->
  (k + length l <= length (tb_states_events b))%nat ->
  let rb' := fold_left (trim_row old_graph statesmap) l (Z.of_nat k, b) in
  tb_triplet (snd rb') =
    tb_triplet b ++
    flat_map (fun ks => row_triplets statesmap old_graph (Z.of_nat (fst ks)) (snd ks))
             (combine (seq k (length l)) l) /\
  length (tb_states_events (snd rb')) = length (tb_states_events b) /\
  (forall r, (r < Z.of_nat k \/ Z.of_nat (k + length l) <= r) ->
             vec_get EventsSet.empty (tb_states_events (snd rb')) r =
             vec_get EventsSet.empty (tb_states_events b) r) /\
  (forall i s e, nth_error l i = Some s ->
      EventsSet.test
        (vec_get EventsSet.empty (tb_states_events (snd rb')) (Z.of_nat (k + i))) e =
      existsb (fun ed => EventsSet.test (snd ed) e)
              (kept_row statesmap old_graph s)).
Proof.
  induction l as [|s l IH]; intros k b Hpos Hlen; simpl.
  - rewrite app_nil_r. repeat split; auto. intros [|i] s e H; discriminate.
  - simpl in Hlen.
    destruct (trim_row_spec (Z.of_nat k, b) s) as [G0 [G1 [G2 [G3 G4]]]];
      cbn [fst snd]; try lia.
    cbn [fst snd] in G0, G1, G2, G3, G4.
    destruct (trim_row old_graph statesmap (Z.of_nat k, b) s) as [k1 b1] eqn:E1.
    cbn [fst snd] in G0, G1, G2, G3, G4. subst k1.
    replace (Z.of_nat k + 1) with (Z.of_nat (S k)) by lia.
    destruct (IH (S k) b1) as [H1 [H2 [H3 H4]]]; try lia.
    cbn zeta in H1, H2, H3, H4.
    rewrite H1, H2, G1, G2, <- app_assoc.
    split; [reflexivity|]. split; [reflexivity|]. split.
    + intros r Hr. rewrite H3 by lia. apply G3. lia.
    + intros [|i] s' e Hi; simpl in Hi.
      * inversion Hi; subst s'. rewrite Nat.add_0_r.
        rewrite H3 by lia. apply G4.
      * replace (k + S i)%nat with (S k + i)%nat by lia. now apply H4.
Qed.

End TrimRows.

(** Reading the labelled graph that [setFromTriplets] builds, one event at
    a time. *)
Lemma test_coeff_put l p v q e :
  Sparse.canonical l ->
  EventsSet.test
    (match find (fun t => Sparse.coord_eqb (fst t) q)
                (Sparse.put EventsSet.union l p v) with
     | Some t => snd t | None => EventsSet.empty end) e =
  EventsSet.test
    (match find (fun t => Sparse.coord_eqb (fst t) q) l with
     | Some t => snd t | None => EventsSet.empty end) e
  || (Sparse.coord_eqb p q && EventsSet.test v e).
Proof.
  intros Hcan. destruct (Sparse.coord_eqb p q) eqn:Hpq.
  - apply SparseFacts.coord_eqb_eq in Hpq. subst q.
    rewrite SparseFacts.find_put_same by exact Hcan.
    destruct (find _ l); simpl.
    + apply test_union.
    + reflexivity.
  - rewrite SparseFacts.find_put_other.
    + now rewrite orb_false_r.
    + intro H. subst q.
      assert (Sparse.coord_eqb p p = true) by now apply SparseFacts.coord_eqb_eq.
      congruence.
Qed.

Lemma test_coeff_fold_put ts : forall l q e,
  Sparse.canonical l ->
  EventsSet.test
    (match find (fun t => Sparse.coord_eqb (fst t) q)
                (fold_left (fun acc t => Sparse.put EventsSet.union acc (fst t) (snd t))
                           ts l) with
     | Some t => snd t | None => EventsSet.empty end) e =
  EventsSet.test
    (match find (fun t => Sparse.coord_eqb (fst t) q) l with
     | Some t => snd t | None => EventsSet.empty end) e
  || existsb (fun t => Sparse.coord_eqb (fst t) q && EventsSet.test (snd t) e) ts.
Proof.
  induction ts as [|t ts IH]; intros l q e Hcan; simpl.
  - now rewrite orb_false_r.
  - rewrite IH by now apply SparseFacts.canonical_put.
    rewrite test_coeff_put by exact Hcan. now rewrite orb_assoc.
Qed.

Lemma In_combine_seq {A} (l : list A) : forall k i x,
  In (i, x) (combine (seq k (length l)) l) <->
  (k <= i)%nat /\ nth_error l (i - k) = Some x.
Proof.
  induction l as [|y l IH]; intros k i x; simpl.
  - split; [intros []|]. intros [_ H]. destruct (i - k)%nat; discriminate.
  - rewrite IH. split.
    + intros [H|[Hk Hn]].
      * inversion H; subst. rewrite Nat.sub_diag. auto.
      * split; [lia|]. replace (i - k)%nat with (S (i - S k)) by lia. exact Hn.
    + intros [Hk Hn]. destruct (i - k)%nat as [|m] eqn:E.
      * left. inversion Hn; subst. f_equal. lia.
      * right. split; [lia|]. replace (i - S k)%nat with m by lia. exact Hn.
Qed.

Lemma events_eq a b :
  (forall e, EventsSet.test a e = EventsSet.test b e) -> a = b.
Proof.
  intros H. apply N.bits_inj. intro n.
  specialize (H (N.to_nat n)). unfold EventsSet.test in H.
  now rewrite N2Nat.id in H.
Qed.

Lemma not_empty_test a :
  a <> EventsSet.empty -> exists e, EventsSet.test a e = true.
Proof.
  intros Ha. exists (N.to_nat (N.log2 a)). unfold EventsSet.test.
  rewrite N2Nat.id. apply N.bit_log2. exact Ha.
Qed.

Lemma TrimStates_count A :
  bit_graph_in_range A ->
  (length (TrimStates A) <= Z.to_nat (states_number_ A))%nat.
Proof.
  intros Hbit.
  replace (Z.to_nat (states_number_ A))
    with (length (range_states (states_number_ A)))
    by (unfold range_states; now rewrite length_map, length_seq).
  apply NoDup_incl_length; [apply sorted_NoDup, TrimStates_sorted|].
  intros s Hs. apply In_range_states. now apply TrimStates_in_range.
Qed.

Lemma coeff_of_entry {V} (d : V) (m : Sparse.matrix V) p v :
  Sparse.canonical (Sparse.data m) -> In (p, v) (Sparse.data m) ->
  Sparse.coeff d m (fst p) (snd p) = v.
Proof.
  intros Hcan Hin. unfold Sparse.coeff.
  destruct (find (fun e => Sparse.coord_eqb (fst e) (fst p, snd p)) (Sparse.data m))
    as [[p' v']|] eqn:E.
  - apply find_some in E. destruct E as [Hin' Heq]. simpl in *.
    apply SparseFacts.coord_eqb_eq in Heq. destruct p as [i j]. simpl in Heq.
    subst p'. apply SparseFacts.canonical_NoDup in Hcan.
    clear -Hcan Hin Hin'. induction (Sparse.data m) as [|[q w] l IH]; [destruct Hin|].
    simpl in Hcan. inversion Hcan as [|? ? Hq Hnd]; subst.
    destruct Hin as [H|H], Hin' as [H'|H'].
    + congruence.
    + inversion H; subst. exfalso. apply Hq. apply in_map_iff.
      exists ((i, j), v'). auto.
    + inversion H'; subst. exfalso. apply Hq. apply in_map_iff.
      exists ((i, j), v). auto.
    + now apply IH.
  - exfalso. apply (find_none _ _ E) in Hin. simpl in Hin.
    assert (Sparse.coord_eqb p (fst p, snd p) = true)
      by (apply SparseFacts.coord_eqb_eq; now destruct p).
    congruence.
Qed.

Lemma entry_of_label A i j :
  label A i j <> EventsSet.empty ->
  In (j, label A i j) (Sparse.row (graph_ A) i).
Proof.
  unfold label, Sparse.coeff. intros H.
  destruct (find (fun e => Sparse.coord_eqb (fst e) (i, j)) (Sparse.data (graph_ A)))
    as [[p v]|] eqn:E; [|congruence].
  apply find_some in E. destruct E as [Hin Heq]. simpl in *.
  apply SparseFacts.coord_eqb_eq in Heq. subst p.
  unfold Sparse.row. apply in_map_iff. exists ((i, j), v). split; [reflexivity|].
  apply filter_In. split; [exact Hin|]. simpl. apply Z.eqb_refl.
Qed.

Lemma label_of_entry A i j v :
  Sparse.canonical (Sparse.data (graph_ A)) ->
  In (j, v) (Sparse.row (graph_ A) i) -> label A i j = v.
Proof.
  intros Hcan Hin. unfold Sparse.row in Hin. apply in_map_iff in Hin.
  destruct Hin as [[[r c] w] [Heq Hin]]. apply filter_In in Hin.
  destruct Hin as [Hin Hr]. simpl in *. apply Z.eqb_eq in Hr.
  inversion Heq; subst.
  exact (coeff_of_entry EventsSet.empty (graph_ A) (i, j) v Hcan Hin).
Qed.

Lemma trim_rows_from_start sm old (T : list Z) (F Finv : list EventsSet.t) :
  (length T <= length F)%nat ->
  let b0 :=
    {| tb_triplet := [];
       tb_bittriplet := [];
       tb_events := EventsSet.empty;
       tb_states_events :=
         if (0 <? length F)%nat then firstn (length T) F else F;
       tb_inv_states_events :=
         if (0 <? length F)%nat then firstn (length T) Finv else Finv |} in
  let rb' := fold_left (trim_row old sm) T (0, b0) in
  tb_triplet (snd rb') =
    flat_map (fun ks => row_triplets sm old (Z.of_nat (fst ks)) (snd ks))
             (combine (seq 0 (length T)) T) /\
  length (tb_states_events (snd rb')) = length T /\
  (forall i s e, nth_error T i = Some s ->
      EventsSet.test
        (vec_get EventsSet.empty (tb_states_events (snd rb')) (Z.of_nat i)) e =
      existsb (fun ed => EventsSet.test (snd ed) e) (kept_row sm old s)).
Proof.
  intros Hlen b0 rb'.
  destruct (Nat.eq_dec (length T) 0) as [Hz|Hnz].
  - apply length_zero_iff_nil in Hz. subst T. simpl in *.
    split; [reflexivity|]. split.
    + destruct F; reflexivity.
    + intros [|i] s e H; discriminate.
  - assert (Hl : (0 <? length F)%nat = true) by (apply Nat.ltb_lt; lia).
    assert (Hb0 : length (tb_states_events b0) = length T).
    { unfold b0. cbn [tb_states_events]. rewrite Hl.
      apply firstn_length_le. lia. }
    destruct (trim_rows_spec sm old T 0 b0) as [H1 [H2 [_ H4]]]; [lia|lia|].
    cbn zeta in *. change (Z.of_nat 0) with 0 in *.
    split; [exact H1|]. split; [unfold rb'; lia|]. exact H4.
Qed.

(** What the rebuild of [Trim] leaves, when states are cut. *)
Lemma Trim_build A :
  Z.of_nat (length (TrimStates A)) <> Sparse.rows (graph_ A) ->
  bit_graph_in_range A -> forward_table_ok A ->
  let sm := fill_statesmap (states_number_ A) (TrimStates A) in
  (forall q e,
      EventsSet.test (label (Trim A) (fst q) (snd q)) e = true <->
      exists k s ed,
        nth_error (TrimStates A) k = Some s /\
        In ed (kept_row sm (graph_ A) s) /\
        q = (Z.of_nat k, vec_get (-1) sm (fst ed)) /\
        EventsSet.test (snd ed) e = true) /\
  (forall p, Sparse.stored (Sparse.data (graph_ (Trim A))) p <->
             exists k s ed,
               nth_error (TrimStates A) k = Some s /\
               In ed (kept_row sm (graph_ A) s) /\
               p = (Z.of_nat k, vec_get (-1) sm (fst ed))) /\
  length (states_events_ (Trim A)) = length (TrimStates A) /\
  (forall k s e,
      nth_error (TrimStates A) k = Some s ->
      ContainsTrans (Trim A) (Z.of_nat k) e =
      existsb (fun ed => EventsSet.test (snd ed) e) (kept_row sm (graph_ A) s)).
Proof.
  intros Hne Hbit Htab sm.
  pose proof (TrimStates_count A Hbit) as Hcount.
  unfold forward_table_ok in Htab.
  unfold Trim, label, ContainsTrans.
  destruct (Z.eqb_spec (Z.of_nat (length (TrimStates A))) (Sparse.rows (graph_ A)))
    as [Heq|_]; [exfalso; exact (Hne Heq)|].
  cbn [graph_ states_events_]. fold sm.
  pose proof (trim_rows_from_start sm (graph_ A) (TrimStates A)
                (states_events_ A) (inv_states_events_ A)) as Hspec.
  assert (Hle : (length (TrimStates A) <= length (states_events_ A))%nat) by lia.
  specialize (Hspec Hle).
  cbv zeta in Hspec. destruct Hspec as [Htrip [Hlen Htest]].
  set (b := snd (fold_left _ _ _)) in *.
  assert (Hlab : forall q e,
    EventsSet.test
      (Sparse.coeff EventsSet.empty
         (Sparse.setFromTriplets EventsSet.union
            (Z.of_nat (length (TrimStates A))) (Z.of_nat (length (TrimStates A)))
            (tb_triplet b)) (fst q) (snd q)) e = true <->
    exists k s ed,
      nth_error (TrimStates A) k = Some s /\
      In ed (kept_row sm (graph_ A) s) /\
      q = (Z.of_nat k, vec_get (-1) sm (fst ed)) /\
      EventsSet.test (snd ed) e = true).
  { intros q e. unfold Sparse.coeff, Sparse.setFromTriplets. cbn [Sparse.data].
    rewrite test_coeff_fold_put by apply SparseFacts.canonical_nil.
    cbn [find]. rewrite test_empty, orb_false_l, existsb_exists, Htrip.
    split.
    - intros [t [Hin Ht]]. apply in_flat_map in Hin.
      destruct Hin as [[k s] [Hks Hin]]. apply In_combine_seq in Hks.
      destruct Hks as [_ Hks]. rewrite Nat.sub_0_r in Hks. simpl in Hin.
      unfold row_triplets in Hin. apply in_map_iff in Hin.
      destruct Hin as [ed [<- Hed]]. simpl in Ht.
      apply andb_true_iff in Ht. destruct Ht as [Hc Ht].
      apply SparseFacts.coord_eqb_eq in Hc.
      exists k, s, ed. repeat split; auto. rewrite Hc. now destruct q.
    - intros [k [s [ed [Hk [Hed [Hq Ht]]]]]].
      exists ((Z.of_nat k, vec_get (-1) sm (fst ed)), snd ed). split.
      + apply in_flat_map. exists (k, s). split.
        * apply In_combine_seq. split; [lia|]. now rewrite Nat.sub_0_r.
        * simpl. unfold row_triplets. apply in_map_iff. exists ed. auto.
      + simpl. rewrite Ht, andb_true_r. apply SparseFacts.coord_eqb_eq.
        subst q. reflexivity. }
  split; [exact Hlab|]. split; [|split; [exact Hlen|exact Htest]].
  intros p. unfold Sparse.setFromTriplets. cbn [Sparse.data].
  rewrite SparseFacts.stored_fold_put, Htrip. unfold Sparse.stored. simpl.
  rewrite in_map_iff. split.
  - intros [[]|[t [<- Hin]]]. apply in_flat_map in Hin.
    destruct Hin as [[k s] [Hks Hin]]. apply In_combine_seq in Hks.
    destruct Hks as [_ Hks]. rewrite Nat.sub_0_r in Hks. simpl in Hin.
    unfold row_triplets in Hin. apply in_map_iff in Hin.
    destruct Hin as [ed [<- Hed]]. exists k, s, ed. auto.
  - intros [k [s [ed [Hk [Hed Hp]]]]]. right.
    exists ((Z.of_nat k, vec_get (-1) sm (fst ed)), snd ed). split; [now subst|].
    apply in_flat_map. exists (k, s). split.
    + apply In_combine_seq. split; [lia|]. now rewrite Nat.sub_0_r.
    + simpl. unfold row_triplets. apply in_map_iff. exists ed. auto.
Qed.

Lemma states_number_Trim A :
  Z.of_nat (length (TrimStates A)) <> Sparse.rows (graph_ A) ->
  states_number_ (Trim A) = Z.of_nat (length (TrimStates A)).
Proof.
  intros Hne. unfold Trim.
  destruct (Z.eqb_spec (Z.of_nat (length (TrimStates A))) (Sparse.rows (graph_ A)))
    as [Heq|_]; [exfalso; exact (Hne Heq)|]. reflexivity.
Qed.

Lemma kept_row_renumbered A s ed :
  bit_graph_in_range A ->
  In ed (kept_row (fill_statesmap (states_number_ A) (TrimStates A)) (graph_ A) s) ->
  In ed (Sparse.row (graph_ A) s) /\
  exists i, nth_error (TrimStates A) i = Some (fst ed) /\
            renumber A (fst ed) = Z.of_nat i.
Proof.
  intros Hbit Hed. unfold kept_row in Hed. apply filter_In in Hed.
  destruct Hed as [Hin Hk]. split; [exact Hin|].
  apply renumber_kept; [exact Hbit|].
  apply negb_true_iff in Hk. apply Z.eqb_neq in Hk. exact Hk.
Qed.

Lemma ContainsTrans_Trim_outside A q e :
  Z.of_nat (length (TrimStates A)) <> Sparse.rows (graph_ A) ->
  bit_graph_in_range A -> forward_table_ok A ->
  ContainsTrans (Trim A) q e = true ->
  exists k s, q = Z.of_nat k /\ nth_error (TrimStates A) k = Some s.
Proof.
  intros Hne Hbit Htab Hc.
  destruct (Trim_build A Hne Hbit Htab) as [_ [_ [Hlen _]]].
  unfold ContainsTrans, vec_get in Hc.
  destruct (Z.ltb_spec q 0); [rewrite test_empty in Hc; discriminate|].
  destruct (nth_error (TrimStates A) (Z.to_nat q)) as [s|] eqn:E.
  - exists (Z.to_nat q), s. split; [lia|exact E].
  - apply nth_error_None in E.
    rewrite nth_overflow in Hc by lia. rewrite test_empty in Hc. discriminate.
Qed.

(** X8. When [Trim] cuts states of a system whose boolean shadow joins
    states and whose forward summary has one entry per state, the trimmed
    system again has what the transition queries rely on: its transitions
    join its states, its forward summary is, state by state, the union of
    the labels of the out-edges, with one entry per state, and its labelled
    graph is in compressed form. *)
Theorem Trim_keeps_transition_invariants (A : DESystem) :
  Z.of_nat (length (TrimStates A)) <> Sparse.rows (graph_ A) ->
  bit_graph_in_range A -> forward_table_ok A ->
  graph_in_range (Trim A) /\
  forward_summary_ok (Trim A) /\
  forward_table_ok (Trim A) /\
  Sparse.canonical (Sparse.data (graph_ (Trim A))).
Proof.
  intros Hne Hbit Htab.
  destruct (Trim_build A Hne Hbit Htab) as [Hlab [Hst [Hlen Hct]]].
  pose proof (states_number_Trim A Hne) as Hn.
  split; [|split; [|split]].
  - intros p Hp. apply Hst in Hp. destruct Hp as [k [s [ed [Hk [Hed ->]]]]].
    destruct (kept_row_renumbered A s ed Hbit Hed) as [_ [i [Hi Hr]]].
    unfold renumber in Hr. unfold in_range. rewrite Hn, Hr. simpl.
    assert (k < length (TrimStates A))%nat by (apply nth_error_Some; congruence).
    assert (i < length (TrimStates A))%nat by (apply nth_error_Some; congruence).
    lia.
  - intros q e. split.
    + intros Hc.
      destruct (ContainsTrans_Trim_outside A q e Hne Hbit Htab Hc)
        as [k [s [-> Hk]]].
      rewrite (Hct k s e Hk) in Hc. apply existsb_exists in Hc.
      destruct Hc as [ed [Hed Ht]].
      exists (vec_get (-1) (fill_statesmap (states_number_ A) (TrimStates A)) (fst ed)).
      apply (Hlab (Z.of_nat k, _) e). exists k, s, ed. auto.
    + intros [j Hj]. apply (Hlab (q, j) e) in Hj.
      destruct Hj as [k [s [ed [Hk [Hed [Hq Ht]]]]]]. inversion Hq; subst.
      rewrite (Hct k s e Hk). apply existsb_exists. exists ed. auto.
  - unfold forward_table_ok. rewrite Hn, Hlen. lia.
  - unfold Trim.
    destruct (Z.eqb_spec (Z.of_nat (length (TrimStates A))) (Sparse.rows (graph_ A)))
      as [Heq|_]; [exfalso; exact (Hne Heq)|].
    cbn [graph_]. unfold Sparse.setFromTriplets. cbn [Sparse.data].
    apply SparseFacts.canonical_fold_put. apply SparseFacts.canonical_nil.
Qed.

(** X9. When [Trim] cuts states of a system in compressed form, its
    labelled graph is the old one restricted to the trim states and
    renumbered: the [i]-th trim state, by ascending order, becomes state [i];
    between two trim states the label is kept; and every transition of the
    result comes from two trim states. *)
Theorem Trim_labels (A : DESystem) :
  Z.of_nat (length (TrimStates A)) <> Sparse.rows (graph_ A) ->
  bit_graph_in_range A -> forward_table_ok A ->
  Sparse.canonical (Sparse.data (graph_ A)) ->
  (forall k s, nth_error (TrimStates A) k = Some s -> renumber A s = Z.of_nat k) /\
  (forall i j, In i (TrimStates A) -> In j (TrimStates A) ->
               label (Trim A) (renumber A i) (renumber A j) = label A i j) /\
  (forall i' j', label (Trim A) i' j' <> EventsSet.empty ->
                 exists i j, In i (TrimStates A) /\ In j (TrimStates A) /\
                             renumber A i = i' /\ renumber A j = j').
Proof.
  intros Hne Hbit Htab Hcan.
  destruct (Trim_build A Hne Hbit Htab) as [Hlab _].
  destruct (renumber_spec A Hbit) as [Hrk Hcut].
  pose proof (sorted_NoDup _ (TrimStates_sorted A)) as Hnd.
  split; [exact Hrk|]. split.
  - intros i j Hi Hj. apply events_eq. intro e.
    apply In_nth_error in Hi. destruct Hi as [ki Hki].
    apply In_nth_error in Hj. destruct Hj as [kj Hkj].
    rewrite (Hrk ki i Hki), (Hrk kj j Hkj).
    apply eq_true_iff_eq. rewrite (Hlab (Z.of_nat ki, Z.of_nat kj) e). split.
    + intros [k [s [ed [Hk [Hed [Hq Ht]]]]]].
      destruct (kept_row_renumbered A s ed Hbit Hed) as [Hrow [i0 [Hi0 Hr]]].
      unfold renumber in Hr. inversion Hq as [[Hk' Hj']].
      apply Nat2Z.inj in Hk'. subst k.
      rewrite Hr in Hj'. apply Nat2Z.inj in Hj'. subst i0.
      assert (s = i) by congruence. assert (fst ed = j) by congruence. subst.
      destruct ed as [c v]. simpl in *.
      now rewrite (label_of_entry A i c v Hcan Hrow).
    + intros Ht.
      assert (Hl : label A i j <> EventsSet.empty)
        by (eapply test_true_not_empty; exact Ht).
      exists ki, i, (j, label A i j). split; [exact Hki|]. split.
      * unfold kept_row. apply filter_In. split; [now apply entry_of_label|].
        simpl. fold (renumber A j). rewrite (Hrk kj j Hkj).
        apply negb_true_iff. apply Z.eqb_neq. lia.
      * simpl. fold (renumber A j). rewrite (Hrk kj j Hkj). auto.
  - intros i' j' Hl. apply not_empty_test in Hl. destruct Hl as [e He].
    apply (Hlab (i', j') e) in He.
    destruct He as [k [s [ed [Hk [Hed [Hq Ht]]]]]].
    destruct (kept_row_renumbered A s ed Hbit Hed) as [_ [i0 [Hi0 Hr]]].
    inversion Hq; subst.
    exists s, (fst ed). split; [eapply nth_error_In; eassumption|].
    split; [eapply nth_error_In; eassumption|].
    split; [now apply Hrk|reflexivity].
Qed.

Lemma bit_graph_in_range_of_ok A : bit_graph_ok A -> bit_graph_in_range A.
Proof. intros H r c Hs. apply H in Hs. tauto. Qed.

(** X10. When [Trim] cuts states, the marked set of the result is the set
    of the marked trim states, renumbered. *)
Theorem Trim_marked_renumbered (A : DESystem) :
  Z.of_nat (length (TrimStates A)) <> Sparse.rows (graph_ A) ->
  bit_graph_in_range A ->
  forall m', In m' (marked_states_ (Trim A)) <->
             exists m, In m (marked_states_ A) /\ In m (TrimStates A) /\
                       renumber A m = m'.
Proof.
  intros Hne Hbit m'. rewrite (trim_marked_states A Hne m').
  destruct (renumber_spec A Hbit) as [Hrk Hcut].
  fold (renumber A). split.
  - intros [m [Hm [Hr Hn]]]. exists m. split; [exact Hm|]. split; [|exact Hr].
    destruct (in_dec Z.eq_dec m (TrimStates A)) as [Hin|Hout]; [exact Hin|].
    apply Hcut in Hout. unfold renumber in *. congruence.
  - intros [m [Hm [Hin Hr]]]. exists m. split; [exact Hm|].
    fold (renumber A m). split; [exact Hr|].
    apply In_nth_error in Hin. destruct Hin as [k Hk].
    rewrite (Hrk k m Hk) in Hr. lia.
Qed.

Lemma marked_ok_scenario_B : marked_ok Scenarios.scenario_B.
Proof.
  intros m Hm. unfold in_range. simpl in Hm.
  destruct Hm as [<-|[<-|[]]]; simpl; lia.
Qed.

Lemma cut_scenario_B :
  Z.of_nat (length (TrimStates Scenarios.scenario_B))
  <> Sparse.rows (graph_ Scenarios.scenario_B).
Proof. vm_compute. discriminate. Qed.

Lemma CoaccessiblePart_least_witness :
  graph_in_range Scenarios.scenario_B /\ bit_graph_ok Scenarios.scenario_B /\
  marked_ok Scenarios.scenario_B /\
  (forall i j, edge Scenarios.scenario_B i j ->
               In j (CoaccessiblePart Scenarios.scenario_B) ->
               In i (CoaccessiblePart Scenarios.scenario_B)).
Proof.
  assert (Hr : graph_in_range Scenarios.scenario_B) by apply built_ok_scenario_B.
  assert (Hb : bit_graph_ok Scenarios.scenario_B) by apply built_ok_scenario_B.
  split; [exact Hr|]. split; [exact Hb|]. split; [exact marked_ok_scenario_B|].
  exact (proj1 (proj2 (CoaccessiblePart_least Scenarios.scenario_B
                         Hr Hb marked_ok_scenario_B))).
Defined.

Lemma TrimStates_reach_and_coreach_witness :
  init_ok Scenarios.scenario_B /\
  In 2 (TrimStates Scenarios.scenario_B) /\
  reachable Scenarios.scenario_B 2 /\ coreachable Scenarios.scenario_B 2.
Proof.
  assert (Hr : graph_in_range Scenarios.scenario_B) by apply built_ok_scenario_B.
  assert (Hb : bit_graph_ok Scenarios.scenario_B) by apply built_ok_scenario_B.
  assert (Hi : init_ok Scenarios.scenario_B) by (unfold init_ok, in_range; simpl; lia).
  assert (Hin : In 2 (TrimStates Scenarios.scenario_B)) by (vm_compute; tauto).
  split; [exact Hi|]. split; [exact Hin|].
  exact (proj1 (TrimStates_reach_and_coreach Scenarios.scenario_B
                  Hr Hb Hi marked_ok_scenario_B 2) Hin).
Defined.

Lemma Trim_keeps_transition_invariants_witness :
  bit_graph_in_range Scenarios.scenario_B /\
  forward_table_ok Scenarios.scenario_B /\
  graph_in_range (Trim Scenarios.scenario_B) /\
  forward_summary_ok (Trim Scenarios.scenario_B).
Proof.
  assert (Hb : bit_graph_in_range Scenarios.scenario_B)
    by (apply bit_graph_in_range_of_ok; apply built_ok_scenario_B).
  assert (Ht : forward_table_ok Scenarios.scenario_B) by reflexivity.
  split; [exact Hb|]. split; [exact Ht|].
  destruct (Trim_keeps_transition_invariants Scenarios.scenario_B
              cut_scenario_B Hb Ht) as [H1 [H2 _]].
  split; [exact H1|exact H2].
Defined.

Lemma Trim_labels_witness :
  In 0 (TrimStates Scenarios.scenario_B) /\
  In 2 (TrimStates Scenarios.scenario_B) /\
  label (Trim Scenarios.scenario_B)
        (renumber Scenarios.scenario_B 0) (renumber Scenarios.scenario_B 2)
  = label Scenarios.scenario_B 0 2.
Proof.
  assert (Hb : bit_graph_in_range Scenarios.scenario_B)
    by (apply bit_graph_in_range_of_ok; apply built_ok_scenario_B).
  assert (Ht : forward_table_ok Scenarios.scenario_B) by reflexivity.
  assert (Hc : Sparse.canonical (Sparse.data (graph_ Scenarios.scenario_B)))
    by apply built_ok_scenario_B.
  assert (H0 : In 0 (TrimStates Scenarios.scenario_B)) by (vm_compute; tauto).
  assert (H2 : In 2 (TrimStates Scenarios.scenario_B)) by (vm_compute; tauto).
  split; [exact H0|]. split; [exact H2|].
  exact (proj1 (proj2 (Trim_labels Scenarios.scenario_B cut_scenario_B Hb Ht Hc))
               0 2 H0 H2).
Defined.

Lemma Trim_marked_renumbered_witness :
  In 2 (marked_states_ Scenarios.scenario_B) /\
  In 2 (TrimStates Scenarios.scenario_B) /\
  In (renumber Scenarios.scenario_B 2) (marked_states_ (Trim Scenarios.scenario_B)).
Proof.
  assert (Hb : bit_graph_in_range Scenarios.scenario_B)
    by (apply bit_graph_in_range_of_ok; apply built_ok_scenario_B).
  assert (Hm : In 2 (marked_states_ Scenarios.scenario_B)) by (simpl; tauto).
  assert (H2 : In 2 (TrimStates Scenarios.scenario_B)) by (vm_compute; tauto).
  split; [exact Hm|]. split; [exact H2|].
  apply (Trim_marked_renumbered Scenarios.scenario_B cut_scenario_B Hb).
  exists 2. auto.
Defined.

(* ------------------------------------------------------------------ *)
(** * The rows of a matrix in compressed form *)

Lemma row_sorted {V} (m : Sparse.matrix V) i :
  Sparse.canonical (Sparse.data m) ->
  StronglySorted Z.lt (map fst (Sparse.row m i)).
Proof.
  unfold Sparse.canonical, Sparse.row.
  induction (Sparse.data m) as [|[p v] t IH]; simpl; intros Hs; [constructor|].
  inversion Hs as [|x xs Hst Hall]; subst.
  destruct (Z.eqb_spec (fst p) i) as [Heq|Hne]; simpl; [|now apply IH].
  constructor; [now apply IH|].
  rewrite Forall_forall in *. intros c Hc.
  apply in_map_iff in Hc. destruct Hc as [[c' w] [Hc Hin]]. simpl in Hc. subst c'.
  apply in_map_iff in Hin. destruct Hin as [[p' w'] [Heq' Hin]].
  apply filter_In in Hin. destruct Hin as [Hin Hr]. simpl in *.
  apply Z.eqb_eq in Hr. inversion Heq'; subst.
  assert (Hlt : Sparse.coord_lt p p') by (apply Hall; now apply (in_map fst) in Hin).
  unfold Sparse.coord_lt, Sparse.coord_ltb in Hlt.
  rewrite Hr in Hlt. rewrite Z.ltb_irrefl, Z.eqb_refl in Hlt. simpl in Hlt.
  now apply Z.ltb_lt.
Qed.

Lemma find_sorted_least {V} (f : Z * V -> bool) (l : list (Z * V)) x :
  StronglySorted Z.lt (map fst l) -> find f l = Some x ->
  forall y, In y l -> f y = true -> fst x <= fst y.
Proof.
  induction l as [|h t IH]; simpl; intros Hs Hf y Hy Hfy; [destruct Hy|].
  inversion Hs as [|? ? Hst Hall]; subst.
  destruct (f h) eqn:Hh.
  - inversion Hf; subst. destruct Hy as [->|Hy]; [lia|].
    rewrite Forall_forall in Hall.
    specialize (Hall (fst y) (in_map fst _ _ Hy)). lia.
  - destruct Hy as [->|Hy]; [congruence|]. now apply IH.
Qed.

Lemma entry_of_coeff {V} (d : V) (m : Sparse.matrix V) i j :
  Sparse.coeff d m i j <> d ->
  In (j, Sparse.coeff d m i j) (Sparse.row m i).
Proof.
  unfold Sparse.coeff. intros H.
  destruct (find (fun e => Sparse.coord_eqb (fst e) (i, j)) (Sparse.data m))
    as [[p v]|] eqn:E; [|congruence].
  apply find_some in E. destruct E as [Hin Heq]. simpl in *.
  apply SparseFacts.coord_eqb_eq in Heq. subst p.
  unfold Sparse.row. apply in_map_iff. exists ((i, j), v). split; [reflexivity|].
  apply filter_In. split; [exact Hin|]. simpl. apply Z.eqb_refl.
Qed.

Lemma coeff_of_row_entry {V} (d : V) (m : Sparse.matrix V) i j v :
  Sparse.canonical (Sparse.data m) ->
  In (j, v) (Sparse.row m i) -> Sparse.coeff d m i j = v.
Proof.
  intros Hcan Hin. unfold Sparse.row in Hin. apply in_map_iff in Hin.
  destruct Hin as [[[r c] w] [Heq Hin]]. apply filter_In in Hin.
  destruct Hin as [Hin Hr]. simpl in *. apply Z.eqb_eq in Hr.
  inversion Heq; subst.
  exact (coeff_of_entry d m (i, j) v Hcan Hin).
Qed.

(* ------------------------------------------------------------------ *)
(** * The transition function *)

Lemma Trans_found A q e :
  Trans A q e <> -1 ->
  ContainsTrans A q e = true /\
  exists v, find (fun qiter => EventsSet.test (snd qiter) e)
                 (Sparse.row (graph_ A) q) = Some (Trans A q e, v).
Proof.
  unfold Trans, ContainsTrans.
  destruct (EventsSet.test (vec_get EventsSet.empty (states_events_ A) q) e);
    simpl; [|congruence].
  destruct (find _ (Sparse.row (graph_ A) q)) as [[j v]|]; [|congruence].
  intros _. split; [reflexivity|]. now exists v.
Qed.

Lemma Trans_label A q e :
  Sparse.canonical (Sparse.data (graph_ A)) ->
  Trans A q e <> -1 ->
  EventsSet.test (label A q (Trans A q e)) e = true.
Proof.
  intros Hcan Hne. destruct (Trans_found A q e Hne) as [_ [v Hf]].
  apply find_some in Hf. destruct Hf as [Hin Ht]. simpl in Ht.
  now rewrite (label_of_entry A q _ v Hcan Hin).
Qed.

(** X11. On an automaton in compressed form whose transitions join states
    and whose forward summary is the union of the labels of the out-edges,
    [Trans] returns a state exactly when [ContainsTrans] answers true; the
    state returned is then a successor of [q] on [e], and the
    lowest-numbered one. *)
Theorem Trans_lowest_successor (A : DESystem) (q : Z) (e : ScalarType) :
  Sparse.canonical (Sparse.data (graph_ A)) ->
  graph_in_range A -> forward_summary_ok A ->
  (Trans A q e <> -1 <-> ContainsTrans A q e = true) /\
  (Trans A q e <> -1 ->
   EventsSet.test (label A q (Trans A q e)) e = true /\
   forall j, EventsSet.test (label A q j) e = true -> Trans A q e <= j).
Proof.
  intros Hcan Hrange Hsum. split.
  - split.
    + intros H. now destruct (Trans_found A q e H).
    + intros H. pose proof (Trans_in_range A q e Hrange Hsum H) as Hr.
      unfold in_range in Hr. lia.
  - intros Hne. split; [now apply Trans_label|].
    intros j Hj. destruct (Trans_found A q e Hne) as [_ [v Hf]].
    assert (Hl : label A q j <> EventsSet.empty)
      by (eapply test_true_not_empty; exact Hj).
    apply entry_of_label in Hl.
    exact (find_sorted_least _ _ _ (row_sorted (graph_ A) q Hcan) Hf
             (j, label A q j) Hl Hj).
Qed.

Lemma Trans_lowest_successor_witness :
  Trans Scenarios.scenario_B 0 Scenarios.g <> -1 /\
  EventsSet.test
    (label Scenarios.scenario_B 0 (Trans Scenarios.scenario_B 0 Scenarios.g))
    Scenarios.g = true.
Proof.
  assert (Hne : Trans Scenarios.scenario_B 0 Scenarios.g <> -1)
    by (vm_compute; discriminate).
  split; [exact Hne|].
  exact (proj1 (proj2 (Trans_lowest_successor Scenarios.scenario_B 0 Scenarios.g
                         (bok_canonical _ built_ok_scenario_B)
                         (bok_range _ built_ok_scenario_B)
                         (bok_summary _ built_ok_scenario_B)) Hne)).
Defined.

(* ------------------------------------------------------------------ *)
(** * The transposed graph *)

Lemma find_transposed {V} (r c : Z) (es : list (Sparse.coord * V)) :
  forall acc,
    Sparse.canonical acc -> NoDup (map fst es) ->
    option_map snd
      (find (fun e => Sparse.coord_eqb (fst e) (r, c))
            (fold_left
               (fun acc e => Sparse.put (fun _ x => x) acc
                                        (snd (fst e), fst (fst e)) (snd e))
               es acc)) =
    match find (fun e => Sparse.coord_eqb (fst e) (c, r)) es with
    | Some e => Some (snd e)
    | None => option_map snd (find (fun e => Sparse.coord_eqb (fst e) (r, c)) acc)
    end.
Proof.
  induction es as [|[[a b] v] es IH]; intros acc Hacc Hnd; simpl; [reflexivity|].
  inversion Hnd as [|? ? Hnin Hnd']; subst.
  rewrite IH by (try apply SparseFacts.canonical_put; assumption).
  unfold Sparse.coord_eqb at 3. simpl.
  destruct (Z.eqb_spec a c) as [->|Hac]; simpl.
  - destruct (Z.eqb_spec b r) as [->|Hbr]; simpl.
    + destruct (find (fun e => Sparse.coord_eqb (fst e) (c, r)) es)
        as [[p w]|] eqn:E.
      * exfalso. apply find_some in E. destruct E as [Hin Heq]. simpl in Heq.
        apply SparseFacts.coord_eqb_eq in Heq. subst p.
        apply Hnin. now apply (in_map fst) in Hin.
      * rewrite SparseFacts.find_put_same by exact Hacc.
        destruct (find _ acc); reflexivity.
    + rewrite SparseFacts.find_put_other by congruence. reflexivity.
  - rewrite SparseFacts.find_put_other by congruence. reflexivity.
Qed.

Lemma coeff_transpose {V} (d : V) (m : Sparse.matrix V) r c :
  Sparse.canonical (Sparse.data m) ->
  Sparse.coeff d (Sparse.transpose m) r c = Sparse.coeff d m c r.
Proof.
  intros Hcan. unfold Sparse.coeff, Sparse.transpose. cbn [Sparse.data].
  pose proof (find_transposed r c (Sparse.data m) [] SparseFacts.canonical_nil
                (SparseFacts.canonical_NoDup _ Hcan)) as H.
  simpl in H.
  match type of H with
  | option_map snd ?a = match ?b with _ => _ end =>
      change (match a with Some e => snd e | None => d end =
              match b with Some e => snd e | None => d end);
      destruct a, b; simpl in H; congruence
  end.
Qed.

(* ------------------------------------------------------------------ *)
(** * The inverse transition function *)

Lemma GetInvStateEvents_nth A q :
  inverse_table_ok A -> in_range A q ->
  nth_error (inv_states_events_ A) (Z.to_nat q) = Some (GetInvStateEvents A q).
Proof.
  intros Hlen Hq. unfold inverse_table_ok in Hlen. unfold in_range in Hq.
  unfold GetInvStateEvents, vec_get.
  destruct (Z.ltb_spec q 0); [lia|].
  apply nth_error_nth'. lia.
Qed.

Lemma InvTrans_sources (A : DESystem) (q : Z) (e : ScalarType) :
  Sparse.canonical (Sparse.data (graph_ A)) ->
  inverse_summary_ok A -> inverse_table_ok A -> in_range A q ->
  exists l, InvTrans (AllocateInvertedGraph A) q e = Some l /\
            StronglySorted Z.lt l /\
            forall p, In p l <-> EventsSet.test (label A p q) e = true.
Proof.
  intros Hcan Hsum Hlen Hq. unfold InvTrans.
  cbn [AllocateInvertedGraph inv_states_events_ inv_graph_].
  pose proof Hq as Hq'. unfold in_range in Hq'.
  destruct (Z.ltb_spec q 0); [lia|].
  rewrite (GetInvStateEvents_nth A q Hlen Hq).
  destruct (EventsSet.test (GetInvStateEvents A q) e) eqn:Ht; simpl.
  - eexists. split; [reflexivity|]. split.
    + pose proof (row_sorted (Sparse.transpose (graph_ A)) q
                    (SparseFacts.canonical_transpose (graph_ A))) as Hs.
      induction (Sparse.row (Sparse.transpose (graph_ A)) q) as [|h t IH];
        simpl; [constructor|].
      simpl in Hs. inversion Hs as [|? ? Hst Hall]; subst.
      destruct (EventsSet.test (snd h) e); simpl; [|now apply IH].
      constructor; [now apply IH|].
      rewrite Forall_forall in *. intros x Hx. apply Hall.
      apply in_map_iff in Hx. destruct Hx as [y [<- Hy]].
      apply filter_In in Hy. apply in_map. tauto.
    + intros p. rewrite in_map_iff. split.
      * intros [[p' v] [Heq Hin]]. simpl in Heq. subst p'.
        apply filter_In in Hin. destruct Hin as [Hin Hv]. simpl in Hv.
        apply (coeff_of_row_entry EventsSet.empty) in Hin;
          [|apply SparseFacts.canonical_transpose].
        rewrite coeff_transpose in Hin by exact Hcan.
        unfold label. now rewrite Hin.
      * intros Hp. exists (p, label A p q). split; [reflexivity|].
        apply filter_In. split; [|exact Hp].
        assert (Hl : label A p q <> EventsSet.empty)
          by (eapply test_true_not_empty; exact Hp).
        unfold label in *.
        rewrite <- (coeff_transpose EventsSet.empty (graph_ A) q p Hcan) in *.
        now apply entry_of_coeff.
  - exists []. split; [reflexivity|]. split; [constructor|].
    intros p. split; [intros []|]. intros Hp.
    assert (Hex : EventsSet.test (GetInvStateEvents A q) e = true)
      by (apply Hsum; now exists p).
    congruence.
Qed.

(** X12. On an automaton in compressed form whose inverse summary is the
    union of the labels of the in-edges, with one entry per state: once the
    inverse graph is allocated, [InvTrans] returns, by ascending number and
    without repetition, exactly the states with a transition on [e] to [q];
    the state [p] is among them whenever [Trans] returns [q] at [p]. *)
Theorem InvTrans_predecessors (A : DESystem) (q : Z) (e : ScalarType) :
  Sparse.canonical (Sparse.data (graph_ A)) ->
  inverse_summary_ok A -> inverse_table_ok A -> in_range A q ->
  exists l, InvTrans (AllocateInvertedGraph A) q e = Some l /\
            StronglySorted Z.lt l /\
            (forall p, In p l <-> EventsSet.test (label A p q) e = true) /\
            (forall p, Trans A p e = q -> In p l).
Proof.
  intros Hcan Hsum Hlen Hq.
  destruct (InvTrans_sources A q e Hcan Hsum Hlen Hq) as [l [Hl [Hs Hin]]].
  exists l. split; [exact Hl|]. split; [exact Hs|]. split; [exact Hin|].
  intros p Hp. apply Hin. rewrite <- Hp. apply Trans_label; [exact Hcan|].
  unfold in_range in Hq. lia.
Qed.

(** X13. Under the same conditions [ContainsInvTrans] answers true exactly
    when [InvTrans], on the allocated inverse graph, returns a state. *)
Theorem ContainsInvTrans_iff_InvTrans (A : DESystem) (q : Z) (e : ScalarType) :
  Sparse.canonical (Sparse.data (graph_ A)) ->
  inverse_summary_ok A -> inverse_table_ok A -> in_range A q ->
  exists b l, ContainsInvTrans A q e = Some b /\
              InvTrans (AllocateInvertedGraph A) q e = Some l /\
              (b = true <-> l <> []).
Proof.
  intros Hcan Hsum Hlen Hq.
  destruct (InvTrans_sources A q e Hcan Hsum Hlen Hq) as [l [Hl [_ Hin]]].
  exists (EventsSet.test (GetInvStateEvents A q) e), l.
  split; [|split; [exact Hl|]].
  - unfold ContainsInvTrans. unfold in_range in Hq.
    destruct (Z.ltb_spec q 0); [lia|].
    now rewrite (GetInvStateEvents_nth A q Hlen Hq).
  - rewrite (Hsum q e). split.
    + intros [p Hp] ->. now apply Hin in Hp.
    + intros Hne. destruct l as [|p l]; [congruence|].
      exists p. apply Hin. now left.
Qed.

(* ------------------------------------------------------------------ *)
(** * The inverse summary of the systems made by insertion *)

Lemma inverse_summary_ok_new n q0 M : inverse_summary_ok (DESystem_new n q0 M).
Proof.
  intros q e. unfold GetInvStateEvents, label, Sparse.coeff.
  cbn [DESystem_new inv_states_events_ graph_ Sparse.resize Sparse.data find].
  rewrite vec_get_repeat, test_empty. split; [discriminate|].
  intros [j H]. discriminate.
Qed.

Lemma inverse_summary_ok_set_transition A i j e :
  built_ok A -> inverse_summary_ok A -> in_range A i -> in_range A j ->
  inverse_summary_ok (set_transition A i j e).
Proof.
  intros [Hn Hcan Hrange Hsum Hbit Hlen Hilen] Hinv Hi Hj q e'.
  assert (Hget : EventsSet.test (GetInvStateEvents (set_transition A i j e) q) e'
                 = ((q =? j) && Nat.eqb e e')
                   || EventsSet.test (GetInvStateEvents A q) e').
  { unfold GetInvStateEvents, set_transition; simpl.
    destruct (Z.eqb_spec q j) as [->|Hne]; simpl.
    - unfold in_range in Hj. rewrite vec_get_upd_same by lia. apply test_set.
    - rewrite vec_get_upd_other by congruence. reflexivity. }
  rewrite Hget. split.
  - intros H. apply orb_true_iff in H. destruct H as [H|H].
    + apply andb_true_iff in H. destruct H as [Hq He].
      apply Z.eqb_eq in Hq. apply Nat.eqb_eq in He. subst.
      exists i. rewrite label_set_transition by exact Hcan.
      assert (Hrefl : Sparse.coord_eqb (i, j) (i, j) = true)
        by now apply SparseFacts.coord_eqb_eq.
      rewrite Hrefl, test_set, Nat.eqb_refl. reflexivity.
    + apply Hinv in H. destruct H as [i' Hi'].
      exists i'. rewrite label_set_transition by exact Hcan.
      destruct (Sparse.coord_eqb (i', q) (i, j)) eqn:Heq; [|exact Hi'].
      apply SparseFacts.coord_eqb_eq in Heq. inversion Heq; subst.
      rewrite test_set, Hi'. apply orb_true_r.
  - intros [i' Hi']. rewrite label_set_transition in Hi' by exact Hcan.
    apply orb_true_iff.
    destruct (Sparse.coord_eqb (i', q) (i, j)) eqn:Heq.
    + apply SparseFacts.coord_eqb_eq in Heq. inversion Heq; subst.
      rewrite test_set in Hi'. apply orb_true_iff in Hi'.
      destruct Hi' as [He|Hold].
      * left. rewrite Z.eqb_refl, He. reflexivity.
      * right. apply Hinv. now exists i.
    + right. apply Hinv. now exists i'.
Qed.

Lemma inverse_summary_ok_set_transitions ts : forall A,
  built_ok A -> inverse_summary_ok A ->
  Forall (fun t => in_range A (fst (fst t)) /\ in_range A (snd (fst t))) ts ->
  inverse_summary_ok (set_transitions A ts).
Proof.
  unfold set_transitions.
  induction ts as [|[[i j] e] ts IH]; intros A HA Hinv Hts; simpl; [exact Hinv|].
  inversion Hts as [|t ts' [Hi Hj] Hrest]; subst. simpl in *.
  apply IH.
  - now apply built_ok_set_transition.
  - now apply inverse_summary_ok_set_transition.
  - exact Hrest.
Qed.

Lemma inverse_summary_ok_scenario_B : inverse_summary_ok Scenarios.scenario_B.
Proof.
  apply inverse_summary_ok_set_transitions.
  - apply built_ok_new. lia.
  - apply inverse_summary_ok_new.
  - repeat constructor; simpl; lia.
Qed.

Lemma InvTrans_predecessors_witness :
  in_range Scenarios.scenario_B 2 /\
  exists l, InvTrans (AllocateInvertedGraph Scenarios.scenario_B) 2 Scenarios.g
            = Some l /\
            (forall p, In p l <->
                       EventsSet.test (label Scenarios.scenario_B p 2) Scenarios.g
                       = true).
Proof.
  assert (Hq : in_range Scenarios.scenario_B 2) by (unfold in_range; simpl; lia).
  split; [exact Hq|].
  destruct (InvTrans_predecessors Scenarios.scenario_B 2 Scenarios.g
              (bok_canonical _ built_ok_scenario_B)
              inverse_summary_ok_scenario_B
              (bok_inv_len _ built_ok_scenario_B) Hq) as [l [Hl [_ [Hin _]]]].
  exists l. split; [exact Hl|exact Hin].
Defined.

Lemma ContainsInvTrans_iff_InvTrans_witness :
  in_range Scenarios.scenario_B 2 /\
  exists b l, ContainsInvTrans Scenarios.scenario_B 2 Scenarios.g = Some b /\
              InvTrans (AllocateInvertedGraph Scenarios.scenario_B) 2 Scenarios.g
              = Some l /\
              (b = true <-> l <> []).
Proof.
  assert (Hq : in_range Scenarios.scenario_B 2) by (unfold in_range; simpl; lia).
  split; [exact Hq|].
  exact (ContainsInvTrans_iff_InvTrans Scenarios.scenario_B 2 Scenarios.g
           (bok_canonical _ built_ok_scenario_B)
           inverse_summary_ok_scenario_B
           (bok_inv_len _ built_ok_scenario_B) Hq).
Defined.

(* ------------------------------------------------------------------ *)
(** * The table of phase 1 holds reached states of the product, once each *)

Lemma rbs_preds_NoDup preds : forall fVR,
  NoDup (snd (fst fVR)) -> NoDup (snd (fst (rbs_preds fVR preds))).
Proof.
  unfold rbs_preds.
  induction preds as [|q' preds IH]; intros [[f V] R] Hnd; simpl; [exact Hnd|].
  destruct (contains R q'); apply IH; simpl; [exact Hnd|].
  unfold erase. now apply NoDup_filter.
Qed.

Lemma rbs_events_NoDup vs q es : forall fVR fVR',
  rbs_events vs q es fVR = Some fVR' ->
  NoDup (snd (fst fVR)) -> NoDup (snd (fst fVR')).
Proof.
  induction es as [|e es IH]; intros fVR fVR'; simpl.
  - intros H; inversion H; subst; tauto.
  - destruct (vs_invtrans vs q e) as [preds|]; [|discriminate].
    intros H Hnd. eapply IH; [exact H|]. now apply rbs_preds_NoDup.
Qed.

Lemma rbs_loop_NoDup NEvents vs bits fuel : forall f V R VR,
  rbs_loop NEvents fuel vs bits f V R = Some VR ->
  NoDup V -> NoDup (fst VR).
Proof.
  induction fuel as [|fuel IH]; intros f V R VR; destruct f as [|q f]; simpl;
    try discriminate; try (intros H; inversion H; subst; simpl; tauto).
  destruct (rbs_events vs q (events_of NEvents bits) (f, V, R))
    as [fVR|] eqn:E; [|discriminate].
  intros H Hnd. eapply IH; [exact H|].
  eapply rbs_events_NoDup; [exact E|exact Hnd].
Qed.

Section PhaseOneTable.

Variable NEvents : nat.
Variables P E : DESystem.
Hypothesis HP : transitions_ok P.
Hypothesis HE : transitions_ok E.

Lemma product_state_init :
  product_state NEvents P E (vs_init_state (SyncSysProxy_new P E)).
Proof.
  split; [|constructor]. simpl.
  destruct HP as [_ _ HiP], HE as [_ _ HiE].
  apply product_state_below; assumption.
Qed.

Lemma push_successors_product n : forall q event event_it V R f,
  (event + n <= NEvents)%nat ->
  product_state NEvents P E q ->
  Forall (product_state NEvents P E) f ->
  Forall (product_state NEvents P E)
         (push_successors n (vs_allocateInvertedGraph (SyncSysProxy_new P E))
                          q event event_it V R f).
Proof.
  induction n as [|n IH]; intros q event event_it V R f Hev Hq Hf; simpl; auto.
  destruct (EventsSet.any event_it); auto.
  apply IH; [lia|exact Hq|].
  destruct (Z.eqb_spec
              (vs_trans (vs_allocateInvertedGraph (SyncSysProxy_new P E)) q event)
              (-1)) as [|Hne]; simpl; auto.
  destruct (EventsSet.test event_it 0%nat); auto.
  destruct (contains R _); simpl; auto.
  destruct (contains V _); simpl; auto.
  constructor; [|exact Hf]. destruct Hq as [Hq Hr]. split.
  - now apply vs_trans_below.
  - rewrite vs_trans_allocate in *. apply product_reach_step; [exact Hr|lia|exact Hne].
Qed.

Lemma find_loop_product bits pbits fuel : forall f V R Vres,
  Forall (product_state NEvents P E) f ->
  Forall (product_state NEvents P E) V -> NoDup V ->
  find_loop NEvents fuel P (vs_allocateInvertedGraph (SyncSysProxy_new P E))
            bits pbits f V R = Some Vres ->
  Forall (product_state NEvents P E) Vres /\ NoDup Vres.
Proof.
  induction fuel as [|fuel IH]; intros f V R Vres Hf HV Hnd;
    destruct f as [|q f]; simpl;
    try discriminate; try solve [intros H; inversion H; subst; auto].
  inversion Hf as [|q' f' Hq Hf']; subst.
  destruct (contains R q) eqn:HR; simpl; [now apply IH|].
  destruct (contains V q) eqn:HVq; simpl; [now apply IH|].
  destruct (badstate NEvents P _ pbits q).
  - destruct (removeBadStates NEvents (S fuel) _ V q bits R) as [VR|] eqn:Hrm;
      [|discriminate].
    apply IH; [exact Hf'| |].
    + apply Forall_forall. intros x Hx. rewrite Forall_forall in HV. apply HV.
      eapply removeBadStates_subset; eassumption.
    + unfold removeBadStates in Hrm. eapply rbs_loop_NoDup; eassumption.
  - assert (Hins : insert q V = q :: V) by (unfold insert; now rewrite HVq).
    apply IH.
    + apply push_successors_product; [lia|exact Hq|exact Hf'].
    + rewrite Hins. now constructor.
    + rewrite Hins. constructor; [|exact Hnd].
      intro Hin. apply contains_In in Hin. congruence.
Qed.

Lemma findRemovedStates_product U fuel V :
  findRemovedStates_ NEvents fuel P E U = Some V ->
  Forall (product_state NEvents P E) V /\ NoDup V.
Proof.
  unfold findRemovedStates_. apply find_loop_product.
  - constructor; [|constructor].
    change (vs_init_state (vs_allocateInvertedGraph (SyncSysProxy_new P E)))
      with (vs_init_state (SyncSysProxy_new P E)).
    apply product_state_init.
  - constructor.
  - constructor.
Qed.

End PhaseOneTable.

(** X14. The table of surviving states that the constructor of the
    supervisor proxy leaves holds no state twice; each of its states is a
    state of the product, [0 <= q < S_P * S_E], reached from the initial
    state of the virtual product; so the supervisor has at most
    [S_P * S_E] states. *)
Theorem survivors_are_reached_product_states NEvents fuel P E U sp :
  transitions_ok P -> transitions_ok E ->
  SuperProxy_new NEvents fuel P E U = Some sp ->
  NoDup (virtual_states_ sp) /\
  (forall q, In q (virtual_states_ sp) -> product_state NEvents P E q) /\
  0 <= sp_states_number_ sp <= states_number_ P * states_number_ E.
Proof.
  intros HP HE Hnew. unfold SuperProxy_new in Hnew.
  destruct (findRemovedStates_ NEvents fuel P E U) as [V|] eqn:Hfind;
    [|discriminate].
  inversion Hnew; subst sp; clear Hnew. cbn [virtual_states_ sp_states_number_].
  destruct (findRemovedStates_product NEvents P E HP HE U fuel V Hfind)
    as [Hall Hnd].
  rewrite Forall_forall in Hall.
  split; [exact Hnd|]. split; [exact Hall|].
  split; [lia|].
  assert (Hle : (length V <= length (range_states (states_number_ P * states_number_ E)))%nat).
  { apply NoDup_incl_length; [exact Hnd|].
    intros q Hq. apply In_range_states. now apply Hall. }
  unfold range_states in Hle. rewrite length_map, length_seq in Hle.
  destruct HP as [_ _ HiP], HE as [_ _ HiE]. unfold init_ok, in_range in *.
  nia.
Qed.

Lemma survivors_are_reached_product_states_witness :
  exists sp,
    SuperProxy_new 3 14 Scenarios.chain Scenarios.spec_loop [Scenarios.a] = Some sp /\
    NoDup (virtual_states_ sp) /\
    0 <= sp_states_number_ sp
    <= states_number_ Scenarios.chain * states_number_ Scenarios.spec_loop.
Proof.
  destruct (SuperProxy_new 3 14 Scenarios.chain Scenarios.spec_loop [Scenarios.a])
    as [sp|] eqn:E; [|vm_compute in E; discriminate].
  exists sp. split; [reflexivity|].
  destruct (survivors_are_reached_product_states 3 14 Scenarios.chain
              Scenarios.spec_loop [Scenarios.a] sp) as [H1 [_ H3]].
  - apply (transitions_ok_built 2 0 [1] [(0, 1, Scenarios.a)]); [lia|].
    repeat constructor; simpl; lia.
  - apply (transitions_ok_built 1 0 [] [(0, 0, Scenarios.a)]); [lia|].
    repeat constructor; simpl; lia.
  - exact E.
  - split; [exact H1|exact H3].
Defined.

(* ------------------------------------------------------------------ *)
(** * A bad initial state leaves no supervisor *)

Lemma find_loop_bad_start NEvents P vs bits pbits fuel q0 V :
  badstate NEvents P vs pbits q0 = true ->
  find_loop NEvents fuel P vs bits pbits [q0] [] [] = Some V -> V = [].
Proof.
  intros Hbad. destruct fuel as [|fuel]; simpl; [discriminate|].
  rewrite Hbad.
  destruct (removeBadStates NEvents (S fuel) vs [] q0 bits []) as [VR|] eqn:Hrm;
    [|discriminate].
  assert (HV : fst VR = []).
  { destruct (fst VR) as [|x l] eqn:E; [reflexivity|].
    exfalso.
    apply (removeBadStates_subset NEvents vs bits (S fuel) [] q0 [] VR x Hrm).
    rewrite E. now left. }
  rewrite HV. destruct fuel; simpl; intros H; inversion H; reflexivity.
Qed.

(** X15. If an uncontrollable event of the plant's alphabet is enabled
    in the plant at its initial state and disabled in the virtual product at
    the initial product state, then the constructor of the supervisor proxy,
    given fuel for the states of the product, returns a supervisor without
    states. *)
Theorem bad_initial_state_empties_supervisor NEvents P E U e :
  transitions_ok P -> transitions_ok E ->
  inverse_table_ok P -> inverse_table_ok E ->
  In e U -> (e < NEvents)%nat -> EventsSet.test (events_ P) e = true ->
  Trans P (init_state_ P) e <> -1 ->
  vs_trans (SyncSysProxy_new P E)
           (init_state_ E * states_number_ P + init_state_ P) e = -1 ->
  forall fuel,
    ((NEvents + 3) * Z.to_nat (states_number_ P * states_number_ E) + 2 <= fuel)%nat ->
    exists sp,
      SuperProxy_new NEvents fuel P E U = Some sp /\
      virtual_states_ sp = [] /\ sp_states_number_ sp = 0.
Proof.
  intros HP HE HPi HEi HU HN HeP HtP Hvs fuel Hfuel.
  destruct (findRemovedStates_returns NEvents P E HP HE HPi HEi U fuel Hfuel)
    as [V HV].
  assert (Hnil : V = []).
  { unfold findRemovedStates_ in HV.
    eapply find_loop_bad_start; [|exact HV].
    unfold badstate. apply existsb_exists. exists e.
    split; [apply in_seq; lia|].
    rewrite (non_contr_bits_test P _ U e HU HeP).
    change (vs_init_state (vs_allocateInvertedGraph (SyncSysProxy_new P E)))
      with (init_state_ E * states_number_ P + init_state_ P).
    change (vs_n_states_sys0 (vs_allocateInvertedGraph (SyncSysProxy_new P E)))
      with (states_number_ P).
    rewrite vs_trans_allocate, Hvs.
    destruct HP as [_ _ HiP]. unfold init_ok, in_range in HiP.
    destruct (product_state_split (states_number_ P) (init_state_ P)
                (init_state_ E) HiP) as [-> _].
    simpl. rewrite andb_true_r. apply negb_true_iff. now apply Z.eqb_neq. }
  subst V. unfold SuperProxy_new. rewrite HV.
  eexists. split; [reflexivity|]. split; reflexivity.
Qed.

Lemma bad_initial_state_empties_supervisor_witness :
  exists sp,
    SuperProxy_new 3 8 Scenarios.plant_D Scenarios.spec_D_declared [Scenarios.u]
    = Some sp /\
    virtual_states_ sp = [] /\ sp_states_number_ sp = 0.
Proof.
  apply (bad_initial_state_empties_supervisor 3 Scenarios.plant_D
           Scenarios.spec_D_declared [Scenarios.u] Scenarios.u).
  - apply (transitions_ok_built 1 0 [] [(0, 0, Scenarios.u)]); [lia|].
    repeat constructor; simpl; lia.
  - constructor.
    + exact (bok_range _ (built_ok_new 1 0 [] Z.le_0_1)).
    + exact (bok_summary _ (built_ok_new 1 0 [] Z.le_0_1)).
    + unfold init_ok, in_range. simpl. lia.
  - reflexivity.
  - reflexivity.
  - simpl; tauto.
  - unfold Scenarios.u; lia.
  - reflexivity.
  - vm_compute. discriminate.
  - reflexivity.
  - simpl. lia.
Defined.

(* ------------------------------------------------------------------ *)
(** * The searches on an empty boolean shadow *)

Lemma prod_empty (g x : Sparse.matrix bool) :
  Sparse.data g = [] -> Sparse.data (Sparse.prod g x) = [].
Proof. intros H. unfold Sparse.prod. cbn [Sparse.data]. now rewrite H. Qed.

Lemma bfs_loop_empty (g : Sparse.matrix bool) n : forall x y,
  Sparse.data g = [] -> Sparse.data y = [] ->
  Sparse.data (bfs_loop n g x y 0) = [].
Proof.
  destruct n as [|n]; intros x y Hg Hy; simpl; [exact Hy|].
  unfold Sparse.nonZeros. rewrite (prod_empty g x Hg). simpl.
  now apply prod_empty.
Qed.

Lemma col_empty {V} (y : Sparse.matrix V) c :
  Sparse.data y = [] -> Sparse.col y c = [].
Proof. intros H. unfold Sparse.col. now rewrite H. Qed.

Lemma gather_empty (F : StatesSet -> Z * bool -> StatesSet)
      (y : Sparse.matrix bool) cs : forall acc,
  Sparse.data y = [] ->
  fold_left (fun acc c => fold_left F (Sparse.col y (Z.of_nat c)) acc) cs acc = acc.
Proof.
  induction cs as [|c cs IH]; intros acc Hy; simpl; [reflexivity|].
  rewrite (col_empty y _ Hy). simpl. now apply IH.
Qed.

Lemma transpose_empty {V} (g : Sparse.matrix V) :
  Sparse.data g = [] -> Sparse.data (Sparse.transpose g) = [].
Proof. intros H. unfold Sparse.transpose. cbn [Sparse.data]. now rewrite H. Qed.

Lemma searches_on_empty_shadow (A : DESystem) :
  Sparse.data (bit_graph_ A) = [] ->
  AccessiblePart A = [] /\ CoaccessiblePart A = [] /\ TrimStates A = [].
Proof.
  intros Hg. split; [|split].
  - unfold AccessiblePart, Bfs_, Bfs_node, BfsCalc_.
    match goal with
    | |- nth 0 (map _ (seq 0 (Z.to_nat (Sparse.cols ?y)))) [] = [] =>
        assert (Hy : Sparse.data y = [])
          by (apply bfs_loop_empty; [exact Hg|reflexivity]);
        destruct (Z.to_nat (Sparse.cols y)); simpl; [reflexivity|];
        unfold column_states; now rewrite (col_empty y _ Hy)
    end.
  - unfold CoaccessiblePart. apply gather_empty.
    apply bfs_loop_empty; [now apply transpose_empty|reflexivity].
  - unfold TrimStates. apply gather_empty.
    apply bfs_loop_empty; [now apply transpose_empty|reflexivity].
Qed.

(** X16. The concrete system that the conversion of a supervisor proxy
    returns has, for the searches, no accessible state, no coaccessible
    state and no trim state, whatever the proxy: its boolean shadow is left
    empty, so that [Trim] on it returns a system without states. *)
Theorem converted_supervisor_has_no_trim_state NEvents (sp : SuperProxy) :
  AccessiblePart (to_DESystem NEvents sp) = [] /\
  CoaccessiblePart (to_DESystem NEvents sp) = [] /\
  TrimStates (to_DESystem NEvents sp) = [] /\
  states_number_ (Trim (to_DESystem NEvents sp)) = 0.
Proof.
  destruct (searches_on_empty_shadow (to_DESystem NEvents sp) eq_refl)
    as [H1 [H2 H3]].
  split; [exact H1|]. split; [exact H2|]. split; [exact H3|].
  unfold Trim. rewrite H3.
  cbn [length Z.of_nat to_DESystem graph_ Sparse.setFromTriplets Sparse.rows
       synchronizeStage2 sp_states_number_].
  destruct (Z.eqb_spec 0 (sp_states_number_ sp)) as [Heq|_]; [|reflexivity].
  cbn [states_number_ synchronizeStage2 sp_states_number_]. now symmetry.
Qed.

(* ------------------------------------------------------------------ *)
(** * The proxy and the virtual product have the same transitions *)

(** X17. When the summaries of plant and specification hold only events
    of their alphabets, the transition function of the supervisor proxy is,
    on the surviving states, that of the virtual product; elsewhere it
    returns the sentinel [-1]. *)
Theorem trans_impl_is_product_transition NEvents fuel P E U sp q e :
  events_ok P -> events_ok E ->
  SuperProxy_new NEvents fuel P E U = Some sp ->
  (In q (virtual_states_ sp) ->
   trans_impl sp q e = vs_trans (SyncSysProxy_new P E) q e) /\
  (~ In q (virtual_states_ sp) -> trans_impl sp q e = -1).
Proof.
  intros HP HE Hnew. unfold SuperProxy_new in Hnew.
  destruct (findRemovedStates_ NEvents fuel P E U) as [V|]; [|discriminate].
  inversion Hnew; subst sp; clear Hnew. cbn [virtual_states_].
  unfold trans_impl, vs_trans, SyncSysProxy_new.
  cbn [virtual_states_ sp_events_ sys0_ sys1_ n_states_sys0_ only_in_plant_
       only_in_spec_ vs_events vs_shared vs_only_in_0 vs_only_in_1 vs_sys0
       vs_sys1 vs_n_states_sys0].
  split.
  - intros Hq. apply contains_In in Hq. rewrite Hq. simpl.
    rewrite !test_xor, !test_inter, test_union, test_ldiff.
    specialize (HP (q mod states_number_ P) e).
    specialize (HE (q / states_number_ P) e).
    destruct (ContainsTrans P (q mod states_number_ P) e);
      destruct (ContainsTrans E (q / states_number_ P) e);
      destruct (EventsSet.test (events_ P) e);
      destruct (EventsSet.test (events_ E) e); simpl;
      try reflexivity;
      try (specialize (HP eq_refl); discriminate);
      try (specialize (HE eq_refl); discriminate).
  - intros Hq.
    destruct (contains V q) eqn:Hc; [apply contains_In in Hc; tauto|].
    reflexivity.
Qed.

Lemma events_ok_new n q0 M : events_ok (DESystem_new n q0 M).
Proof.
  intros q e. unfold ContainsTrans. cbn [DESystem_new states_events_].
  rewrite vec_get_repeat, test_empty. discriminate.
Qed.

Lemma events_ok_set_transition A i j e :
  in_range A i -> length (states_events_ A) = Z.to_nat (states_number_ A) ->
  events_ok A -> events_ok (set_transition A i j e).
Proof.
  intros Hi Hlen HA q e'. rewrite ContainsTrans_set_transition by assumption.
  cbn [set_transition events_]. rewrite test_set. intros H.
  apply orb_true_iff in H. destruct H as [H|H].
  - apply andb_true_iff in H. destruct H as [_ ->]. reflexivity.
  - rewrite (HA q e' H). apply orb_true_r.
Qed.

Lemma events_ok_set_transitions ts : forall A,
  built_ok A -> events_ok A ->
  Forall (fun t => in_range A (fst (fst t)) /\ in_range A (snd (fst t))) ts ->
  events_ok (set_transitions A ts).
Proof.
  unfold set_transitions.
  induction ts as [|[[i j] e] ts IH]; intros A HA Hev Hts; simpl; [exact Hev|].
  inversion Hts as [|t ts' [Hi Hj] Hrest]; subst. simpl in *.
  apply IH.
  - now apply built_ok_set_transition.
  - apply events_ok_set_transition; [exact Hi|apply HA|exact Hev].
  - exact Hrest.
Qed.

Lemma events_ok_built n q0 M ts :
  0 <= n ->
  Forall (fun t => 0 <= fst (fst t) < n /\ 0 <= snd (fst t) < n) ts ->
  events_ok (set_transitions (DESystem_new n q0 M) ts).
Proof.
  intros Hn Hts. apply events_ok_set_transitions.
  - now apply built_ok_new.
  - apply events_ok_new.
  - exact Hts.
Qed.

Lemma trans_impl_is_product_transition_witness :
  exists sp,
    SuperProxy_new 3 14 Scenarios.chain Scenarios.spec_loop [Scenarios.a] = Some sp /\
    In 0 (virtual_states_ sp) /\
    trans_impl sp 0 Scenarios.a
    = vs_trans (SyncSysProxy_new Scenarios.chain Scenarios.spec_loop) 0 Scenarios.a.
Proof.
  destruct (SuperProxy_new 3 14 Scenarios.chain Scenarios.spec_loop [Scenarios.a])
    as [sp|] eqn:E; [|vm_compute in E; discriminate].
  exists sp. split; [reflexivity|].
  assert (Hin : In 0 (virtual_states_ sp)).
  { pose proof E as E'. vm_compute in E'. injection E' as <-. simpl. tauto. }
  split; [exact Hin|].
  apply (trans_impl_is_product_transition 3 14 Scenarios.chain Scenarios.spec_loop
           [Scenarios.a] sp 0 Scenarios.a); [| |exact E|exact Hin].
  - apply (events_ok_built 2 0 [1] [(0, 1, Scenarios.a)]); [lia|].
    repeat constructor; simpl; lia.
  - apply (events_ok_built 1 0 [] [(0, 0, Scenarios.a)]); [lia|].
    repeat constructor; simpl; lia.
Defined.

(* ------------------------------------------------------------------ *)
(** * The search from any seed matrix *)

Lemma bit_reach_from (A : DESystem) (s0 : Z) :
  graph_in_range A -> bit_graph_ok A ->
  forall s, bit_reach (bit_graph_ A) s0 s <-> reach_from A s0 s.
Proof.
  intros Hrange Hbit s. split.
  - induction 1 as [|c r _ IH Hst]; [constructor|].
    apply Hbit in Hst. destruct Hst as [_ [_ [->|Hl]]]; [exact IH|].
    eapply reach_from_step; [exact IH|exact Hl].
  - induction 1 as [|i j _ IH He]; [constructor|].
    eapply bit_reach_step; [exact IH|].
    apply Hbit. unfold edge in He.
    pose proof (SparseFacts.coeff_stored _ _ _ _ He) as Hst.
    apply Hrange in Hst. simpl in Hst. tauto.
Qed.

Lemma BfsCalc_columns (A : DESystem) (x0 : Sparse.matrix bool) :
  graph_in_range A -> bit_graph_ok A ->
  Sparse.canonical (Sparse.data x0) -> rows_below (states_number_ A) x0 ->
  length (BfsCalc_ A x0) = Z.to_nat (Sparse.cols x0) /\
  forall c s, (c < Z.to_nat (Sparse.cols x0))%nat ->
              (In s (nth c (BfsCalc_ A x0) []) <->
               exists r0, Sparse.stored (Sparse.data x0) (r0, Z.of_nat c) /\
                          reach_from A r0 s).
Proof.
  intros Hrange Hbit Hcan Hrows. unfold BfsCalc_.
  set (y := bfs_loop _ _ _ _ _).
  assert (Hc : Sparse.cols y = Sparse.cols x0)
    by (apply cols_bfs_loop; reflexivity).
  rewrite Hc. split; [now rewrite length_map, length_seq|].
  intros c s Hlt.
  rewrite (nth_indep _ [] (column_states y (Z.of_nat 0)))
    by now rewrite length_map, length_seq.
  rewrite (map_nth (fun s => column_states y (Z.of_nat s))).
  rewrite seq_nth by exact Hlt. simpl Nat.add.
  rewrite In_column_states.
  assert (Hdiag : forall r, 0 <= r < states_number_ A ->
                            Sparse.stored (Sparse.data (bit_graph_ A)) (r, r)).
  { intros r Hr. apply Hbit. unfold in_range. tauto. }
  assert (Hrg : forall r c, Sparse.stored (Sparse.data (bit_graph_ A)) (r, c) ->
                            0 <= r < states_number_ A /\ 0 <= c < states_number_ A).
  { intros r c' H. apply Hbit in H. unfold in_range in H. tauto. }
  unfold y.
  rewrite (bfs_loop_columns (bit_graph_ A) (states_number_ A) Hdiag Hrg x0
             (Sparse.resize (states_number_ A) (Sparse.cols x0))
             Hcan Hrows eq_refl s (Z.of_nat c)).
  unfold seeded_reach. split; intros [r0 [H0 Hr]]; exists r0; (split; [exact H0|]);
    now apply (bit_reach_from A r0 Hrange Hbit).
Qed.

(** X18. On an automaton whose transitions join states and whose boolean
    shadow is stored as Bᵀ + I, [BfsCalc_] returns one set per column of the
    seed matrix, and the set of a column holds the states reached along
    transitions from the states that the seed matrix stores in that column. *)
Theorem BfsCalc_reach_from_seeds (A : DESystem) (x0 : Sparse.matrix bool) :
  graph_in_range A -> bit_graph_ok A ->
  Sparse.canonical (Sparse.data x0) -> rows_below (states_number_ A) x0 ->
  length (BfsCalc_ A x0) = Z.to_nat (Sparse.cols x0) /\
  forall c s, (c < Z.to_nat (Sparse.cols x0))%nat ->
              (In s (nth c (BfsCalc_ A x0) []) <->
               exists r0, Sparse.stored (Sparse.data x0) (r0, Z.of_nat c) /\
                          reach_from A r0 s).
Proof. exact (BfsCalc_columns A x0). Qed.

(** X19. On such an automaton [Bfs_] from a state [q] returns one set, the
    states reached from [q] along transitions. *)
Theorem Bfs_node_reach_from (A : DESystem) (q : Z) :
  graph_in_range A -> bit_graph_ok A -> in_range A q ->
  exists acc, Bfs_node A q = [acc] /\
              forall s, In s acc <-> reach_from A q s.
Proof.
  intros Hrange Hbit Hq. unfold Bfs_node.
  set (x0 := Sparse.coeffRef false (fun _ => true)
               (Sparse.resize (states_number_ A) 1) q 0).
  destruct (BfsCalc_columns A x0 Hrange Hbit) as [Hlen Hin].
  - unfold x0; simpl. repeat constructor.
  - intros r c H. unfold x0 in H; simpl in H. destruct H as [H|[]].
    inversion H; subst. exact Hq.
  - change (Z.to_nat (Sparse.cols x0)) with 1%nat in *.
    destruct (BfsCalc_ A x0) as [|acc [|? ?]]; try discriminate.
    exists acc. split; [reflexivity|]. intros s.
    rewrite (Hin 0%nat s Nat.lt_0_1). simpl. split.
    + intros [r0 [[H|[]] Hr]]. inversion H; subst. exact Hr.
    + intros Hr. exists q. split; [now left|exact Hr].
Qed.

Lemma Bfs_node_reach_from_witness :
  in_range Scenarios.scenario_B 3 /\
  exists acc, Bfs_node Scenarios.scenario_B 3 = [acc] /\
              forall s, In s acc <-> reach_from Scenarios.scenario_B 3 s.
Proof.
  assert (Hq : in_range Scenarios.scenario_B 3) by (unfold in_range; simpl; lia).
  split; [exact Hq|].
  exact (Bfs_node_reach_from Scenarios.scenario_B 3
           (bok_range _ built_ok_scenario_B) (bok_shadow _ built_ok_scenario_B) Hq).
Defined.

Lemma BfsCalc_reach_from_seeds_witness :
  length (BfsCalc_ Scenarios.scenario_B
            (Sparse.setFromTriplets (fun _ _ => true) 4 2
               [((1, 0), true); ((3, 1), true)])) = 2%nat.
Proof.
  apply (BfsCalc_reach_from_seeds Scenarios.scenario_B
           (Sparse.setFromTriplets (fun _ _ => true) 4 2
              [((1, 0), true); ((3, 1), true)])).
  - apply built_ok_scenario_B.
  - apply built_ok_scenario_B.
  - apply SparseFacts.canonical_fold_put. apply SparseFacts.canonical_nil.
  - intros r c H. simpl in H. unfold Sparse.stored in H. simpl in H.
    destruct H as [H|[H|[]]]; inversion H; subst; simpl; lia.
Defined.

(* ------------------------------------------------------------------ *)
(** * The inverse transitions of the proxy *)

Lemma ContainsInvTrans_in_range A q e :
  inverse_table_ok A -> in_range A q ->
  ContainsInvTrans A q e = Some (EventsSet.test (GetInvStateEvents A q) e).
Proof.
  intros Hlen Hq. unfold ContainsInvTrans.
  pose proof Hq as Hq'. unfold in_range in Hq'.
  destruct (Z.ltb_spec q 0); [lia|].
  now rewrite (GetInvStateEvents_nth A q Hlen Hq).
Qed.

Lemma InvTrans_in_range A q e :
  inverse_table_ok A -> in_range A q ->
  InvTrans (AllocateInvertedGraph A) q e =
  Some (if negb (EventsSet.test (GetInvStateEvents A q) e) then []
        else map fst (filter (fun qiter => EventsSet.test (snd qiter) e)
                             (Sparse.row (Sparse.transpose (graph_ A)) q))).
Proof.
  intros Hlen Hq. unfold InvTrans.
  cbn [AllocateInvertedGraph inv_states_events_ inv_graph_].
  pose proof Hq as Hq'. unfold in_range in Hq'.
  destruct (Z.ltb_spec q 0); [lia|].
  rewrite (GetInvStateEvents_nth A q Hlen Hq).
  now destruct (EventsSet.test (GetInvStateEvents A q) e).
Qed.

Lemma flat_map_nil_inner {A B} (l : list A) :
  flat_map (fun _ : A => @nil B) l = [].
Proof. induction l; simpl; auto. Qed.

Lemma flat_map_single {A B} (f : A -> B) (l : list A) :
  flat_map (fun x => [f x]) l = map f l.
Proof. induction l as [|x l IH]; simpl; [reflexivity|now rewrite IH]. Qed.

(** X20. When the inverse summaries of plant and specification hold only
    events of their alphabets and have one entry per state, then, once the
    inverse graphs are allocated, the inverse transition function of the
    supervisor proxy returns at a surviving state the same array as that of
    the virtual product; at any other state it returns the empty array. *)
Theorem invtrans_impl_is_product_inverse NEvents fuel P E U sp q e :
  transitions_ok P -> transitions_ok E ->
  inverse_table_ok P -> inverse_table_ok E ->
  inverse_events_ok P -> inverse_events_ok E ->
  SuperProxy_new NEvents fuel P E U = Some sp ->
  (In q (virtual_states_ sp) ->
   invtrans_impl (allocateInvertedGraph_impl sp) q e =
   vs_invtrans (vs_allocateInvertedGraph (SyncSysProxy_new P E)) q e) /\
  (~ In q (virtual_states_ sp) ->
   invtrans_impl (allocateInvertedGraph_impl sp) q e = Some []).
Proof.
  intros HP HE HPl HEl HPe HEe Hnew. unfold SuperProxy_new in Hnew.
  destruct (findRemovedStates_ NEvents fuel P E U) as [V|] eqn:Hfind;
    [|discriminate].
  inversion Hnew; subst sp; clear Hnew. cbn [virtual_states_].
  split.
  - intros Hq.
    destruct (findRemovedStates_product NEvents P E HP HE U fuel V Hfind)
      as [Hall _].
    rewrite Forall_forall in Hall. destruct (Hall q Hq) as [Hrange _].
    destruct (product_state_parts P E HP q Hrange) as [Hx Hy].
    apply contains_In in Hq.
    unfold invtrans_impl, vs_invtrans, allocateInvertedGraph_impl,
      vs_allocateInvertedGraph, SyncSysProxy_new.
    cbn [virtual_states_ sp_events_ sys0_ sys1_ n_states_sys0_ only_in_plant_
         only_in_spec_ vs_events vs_sys0 vs_sys1 vs_n_states_sys0].
    rewrite Hq. cbn [negb orb].
    change (events_ (AllocateInvertedGraph P)) with (events_ P).
    change (events_ (AllocateInvertedGraph E)) with (events_ E).
    rewrite (ContainsInvTrans_in_range (AllocateInvertedGraph P) _ e HPl Hx).
    rewrite (ContainsInvTrans_in_range (AllocateInvertedGraph E) _ e HEl Hy).
    change (GetInvStateEvents (AllocateInvertedGraph P)) with (GetInvStateEvents P).
    change (GetInvStateEvents (AllocateInvertedGraph E)) with (GetInvStateEvents E).
    change (InvTrans (AllocateInvertedGraph (AllocateInvertedGraph P)))
      with (InvTrans (AllocateInvertedGraph P)).
    change (InvTrans (AllocateInvertedGraph (AllocateInvertedGraph E)))
      with (InvTrans (AllocateInvertedGraph E)).
    rewrite (InvTrans_in_range P _ e HPl Hx), (InvTrans_in_range E _ e HEl Hy).
    rewrite !test_xor, !test_inter, test_union.
    specialize (HPe (q mod states_number_ P) e).
    specialize (HEe (q / states_number_ P) e).
    destruct (EventsSet.test (GetInvStateEvents P (q mod states_number_ P)) e);
      destruct (EventsSet.test (GetInvStateEvents E (q / states_number_ P)) e);
      destruct (EventsSet.test (events_ P) e);
      destruct (EventsSet.test (events_ E) e);
      try (specialize (HPe eq_refl); discriminate);
      try (specialize (HEe eq_refl); discriminate);
      cbn [negb andb orb xorb flat_map map app];
      rewrite ?flat_map_nil_inner, ?flat_map_single, ?app_nil_r; reflexivity.
  - intros Hq. unfold invtrans_impl, allocateInvertedGraph_impl.
    cbn [virtual_states_].
    destruct (contains V q) eqn:Hc; [apply contains_In in Hc; tauto|].
    reflexivity.
Qed.

Lemma inverse_events_ok_new n q0 M : inverse_events_ok (DESystem_new n q0 M).
Proof.
  intros q e. unfold GetInvStateEvents. cbn [DESystem_new inv_states_events_].
  rewrite vec_get_repeat, test_empty. discriminate.
Qed.

Lemma inverse_events_ok_set_transition A i j e :
  in_range A j -> inverse_table_ok A ->
  inverse_events_ok A -> inverse_events_ok (set_transition A i j e).
Proof.
  intros Hj Hlen HA q e'. unfold GetInvStateEvents.
  cbn [set_transition events_ inv_states_events_]. rewrite test_set.
  unfold in_range in Hj. unfold inverse_table_ok in Hlen.
  destruct (Z.eq_dec q j) as [->|Hne].
  - rewrite vec_get_upd_same by lia. rewrite test_set. intros H.
    apply orb_true_iff in H. destruct H as [->|H]; [reflexivity|].
    rewrite (HA j e' H). apply orb_true_r.
  - rewrite vec_get_upd_other by congruence. intros H.
    rewrite (HA q e' H). apply orb_true_r.
Qed.

Lemma inverse_events_ok_set_transitions ts : forall A,
  built_ok A -> inverse_events_ok A ->
  Forall (fun t => in_range A (fst (fst t)) /\ in_range A (snd (fst t))) ts ->
  inverse_events_ok (set_transitions A ts).
Proof.
  unfold set_transitions.
  induction ts as [|[[i j] e] ts IH]; intros A HA Hev Hts; simpl; [exact Hev|].
  inversion Hts as [|t ts' [Hi Hj] Hrest]; subst. simpl in *.
  apply IH.
  - now apply built_ok_set_transition.
  - apply inverse_events_ok_set_transition; [exact Hj|apply HA|exact Hev].
  - exact Hrest.
Qed.

Lemma inverse_events_ok_built n q0 M ts :
  0 <= n ->
  Forall (fun t => 0 <= fst (fst t) < n /\ 0 <= snd (fst t) < n) ts ->
  inverse_events_ok (set_transitions (DESystem_new n q0 M) ts).
Proof.
  intros Hn Hts. apply inverse_events_ok_set_transitions.
  - now apply built_ok_new.
  - apply inverse_events_ok_new.
  - exact Hts.
Qed.

Lemma invtrans_impl_is_product_inverse_witness :
  exists sp,
    SuperProxy_new 3 14 Scenarios.chain Scenarios.spec_loop [Scenarios.a] = Some sp /\
    In 1 (virtual_states_ sp) /\
    invtrans_impl (allocateInvertedGraph_impl sp) 1 Scenarios.a =
    vs_invtrans (vs_allocateInvertedGraph
                   (SyncSysProxy_new Scenarios.chain Scenarios.spec_loop))
                1 Scenarios.a.
Proof.
  destruct (SuperProxy_new 3 14 Scenarios.chain Scenarios.spec_loop [Scenarios.a])
    as [sp|] eqn:E; [|vm_compute in E; discriminate].
  exists sp. split; [reflexivity|].
  assert (Hin : In 1 (virtual_states_ sp)).
  { pose proof E as E'. vm_compute in E'. injection E' as <-. simpl. tauto. }
  split; [exact Hin|].
  apply (invtrans_impl_is_product_inverse 3 14 Scenarios.chain Scenarios.spec_loop
           [Scenarios.a] sp 1 Scenarios.a); [| | | | | |exact E|exact Hin].
  - apply (transitions_ok_built 2 0 [1] [(0, 1, Scenarios.a)]); [lia|].
    repeat constructor; simpl; lia.
  - apply (transitions_ok_built 1 0 [] [(0, 0, Scenarios.a)]); [lia|].
    repeat constructor; simpl; lia.
  - reflexivity.
  - reflexivity.
  - apply (inverse_events_ok_built 2 0 [1] [(0, 1, Scenarios.a)]); [lia|].
    repeat constructor; simpl; lia.
  - apply (inverse_events_ok_built 1 0 [] [(0, 0, Scenarios.a)]); [lia|].
    repeat constructor; simpl; lia.
Defined.

Lemma InvTrans_nonempty A q e :
  Sparse.canonical (Sparse.data (graph_ A)) ->
  inverse_summary_ok A -> inverse_table_ok A -> in_range A q ->
  EventsSet.test (GetInvStateEvents A q) e = true ->
  map fst (filter (fun qiter => EventsSet.test (snd qiter) e)
                  (Sparse.row (Sparse.transpose (graph_ A)) q)) <> [].
Proof.
  intros Hcan Hsum Hlen Hq Ht.
  destruct (InvTrans_sources A q e Hcan Hsum Hlen Hq) as [l [Hl [_ Hin]]].
  rewrite (InvTrans_in_range A q e Hlen Hq), Ht in Hl. simpl in Hl.
  inversion Hl as [Heq]. intros Hnil.
  apply Hsum in Ht. destruct Ht as [p Hp]. apply Hin in Hp.
  rewrite <- Heq, Hnil in Hp. destruct Hp.
Qed.

(** X21. On the proxy made by the constructor from a plant and a
    specification in compressed form whose inverse summaries are the unions
    of the labels of the in-edges, [containsinvtrans_impl] answers true
    exactly when [invtrans_impl], on the allocated inverse graphs, returns a
    state. *)
Theorem containsinvtrans_impl_iff_invtrans_impl NEvents fuel P E U sp q e :
  transitions_ok P -> transitions_ok E ->
  Sparse.canonical (Sparse.data (graph_ P)) ->
  Sparse.canonical (Sparse.data (graph_ E)) ->
  inverse_summary_ok P -> inverse_summary_ok E ->
  inverse_table_ok P -> inverse_table_ok E ->
  SuperProxy_new NEvents fuel P E U = Some sp ->
  exists b l, containsinvtrans_impl sp q e = Some b /\
              invtrans_impl (allocateInvertedGraph_impl sp) q e = Some l /\
              (b = true <-> l <> []).
Proof.
  intros HP HE HPc HEc HPs HEs HPl HEl Hnew. unfold SuperProxy_new in Hnew.
  destruct (findRemovedStates_ NEvents fuel P E U) as [V|] eqn:Hfind;
    [|discriminate].
  inversion Hnew; subst sp; clear Hnew.
  unfold containsinvtrans_impl, invtrans_impl, allocateInvertedGraph_impl.
  cbn [virtual_states_ sp_events_ sys0_ sys1_ n_states_sys0_ only_in_plant_
       only_in_spec_].
  destruct (contains V q) eqn:Hq; cbn [negb orb];
    [|exists false, []; repeat split; congruence].
  destruct (EventsSet.test (EventsSet.union (events_ P) (events_ E)) e);
    cbn [negb];
    [|exists false, []; repeat split; congruence].
  apply contains_In in Hq.
  destruct (findRemovedStates_product NEvents P E HP HE U fuel V Hfind)
    as [Hall _].
  rewrite Forall_forall in Hall. destruct (Hall q Hq) as [Hrange _].
  destruct (product_state_parts P E HP q Hrange) as [Hx Hy].
  rewrite (ContainsInvTrans_in_range (AllocateInvertedGraph P) _ e HPl Hx).
  rewrite (ContainsInvTrans_in_range (AllocateInvertedGraph E) _ e HEl Hy).
  rewrite (ContainsInvTrans_in_range P _ e HPl Hx).
  rewrite (ContainsInvTrans_in_range E _ e HEl Hy).
  change (GetInvStateEvents (AllocateInvertedGraph P)) with (GetInvStateEvents P).
  change (GetInvStateEvents (AllocateInvertedGraph E)) with (GetInvStateEvents E).
  change (InvTrans (AllocateInvertedGraph (AllocateInvertedGraph P)))
    with (InvTrans (AllocateInvertedGraph P)).
  change (InvTrans (AllocateInvertedGraph (AllocateInvertedGraph E)))
    with (InvTrans (AllocateInvertedGraph E)).
  rewrite (InvTrans_in_range P _ e HPl Hx), (InvTrans_in_range E _ e HEl Hy).
  pose proof (InvTrans_nonempty P _ e HPc HPs HPl Hx) as HLP.
  pose proof (InvTrans_nonempty E _ e HEc HEs HEl Hy) as HLE.
  destruct (EventsSet.test (GetInvStateEvents P (q mod states_number_ P)) e);
    destruct (EventsSet.test (GetInvStateEvents E (q / states_number_ P)) e);
    destruct (EventsSet.test _ e); destruct (EventsSet.test _ e);
    cbn [negb andb orb];
    eexists; eexists; (split; [reflexivity|]); (split; [reflexivity|]);
    try specialize (HLP eq_refl); try specialize (HLE eq_refl);
    try (split; [discriminate|congruence]);
    repeat match goal with
      | H : ?l <> [] |- context [?l] =>
          let p := fresh "p" in destruct l as [|p ?]; [congruence|clear H]
      end;
    simpl; split; intros; try reflexivity; discriminate.
Qed.

Lemma containsinvtrans_impl_iff_invtrans_impl_witness :
  exists sp,
    SuperProxy_new 3 14 Scenarios.chain Scenarios.spec_loop [Scenarios.a] = Some sp /\
    exists b l, containsinvtrans_impl sp 1 Scenarios.a = Some b /\
                invtrans_impl (allocateInvertedGraph_impl sp) 1 Scenarios.a = Some l /\
                (b = true <-> l <> []).
Proof.
  destruct (SuperProxy_new 3 14 Scenarios.chain Scenarios.spec_loop [Scenarios.a])
    as [sp|] eqn:E; [|vm_compute in E; discriminate].
  exists sp. split; [reflexivity|].
  assert (Hc : built_ok Scenarios.chain).
  { apply (built_ok_set_transitions [(0, 1, Scenarios.a)]);
      [apply built_ok_new; lia|repeat constructor; simpl; lia]. }
  assert (Hs : built_ok Scenarios.spec_loop).
  { apply (built_ok_set_transitions [(0, 0, Scenarios.a)]);
      [apply built_ok_new; lia|repeat constructor; simpl; lia]. }
  apply (containsinvtrans_impl_iff_invtrans_impl 3 14 Scenarios.chain
           Scenarios.spec_loop [Scenarios.a] sp 1 Scenarios.a).
  - apply (transitions_ok_built 2 0 [1] [(0, 1, Scenarios.a)]); [lia|].
    repeat constructor; simpl; lia.
  - apply (transitions_ok_built 1 0 [] [(0, 0, Scenarios.a)]); [lia|].
    repeat constructor; simpl; lia.
  - apply Hc.
  - apply Hs.
  - apply (inverse_summary_ok_set_transitions [(0, 1, Scenarios.a)]);
      [apply built_ok_new; lia|apply inverse_summary_ok_new
      |repeat constructor; simpl; lia].
  - apply (inverse_summary_ok_set_transitions [(0, 0, Scenarios.a)]);
      [apply built_ok_new; lia|apply inverse_summary_ok_new
      |repeat constructor; simpl; lia].
  - reflexivity.
  - reflexivity.
  - exact E.
Defined.

(* ------------------------------------------------------------------ *)
(** * The search from several nodes *)

(** X22. On an automaton whose transitions join states and whose boolean
    shadow is stored as Bᵀ + I, [Bfs_] from a collection of states returns
    one set per initial node, in order, and the set of a node holds the
    states reached from it along transitions. *)
Theorem Bfs_nodes_reach_from (A : DESystem) (nodes : list Z) :
  graph_in_range A -> bit_graph_ok A ->
  (forall q, In q nodes -> in_range A q) ->
  length (Bfs_nodes A nodes) = length nodes /\
  forall k q, nth_error nodes k = Some q ->
              forall s, In s (nth k (Bfs_nodes A nodes) []) <-> reach_from A q s.
Proof.
  intros Hrange Hbit Hnodes. unfold Bfs_nodes.
  set (x0 := marked_seed _ nodes 0).
  assert (Hst : forall r c, Sparse.stored (Sparse.data x0) (r, c) <->
                            exists i, nth_error nodes i = Some r /\ c = Z.of_nat i).
  { intros r c. unfold x0.
    rewrite (stored_marked_seed nodes _ 0 r c). simpl. split.
    - intros [[]|H]. exact H.
    - intros H. right. exact H. }
  assert (Hcols : Sparse.cols x0 = Z.of_nat (length nodes))
    by (unfold x0; now rewrite cols_marked_seed).
  destruct (BfsCalc_columns A x0 Hrange Hbit) as [Hlen Hin].
  - unfold x0. apply canonical_marked_seed. apply SparseFacts.canonical_nil.
  - intros r c H. apply Hst in H. destruct H as [i [Hi _]].
    apply Hnodes. eapply nth_error_In; eassumption.
  - rewrite Hcols, Nat2Z.id in *. split; [exact Hlen|].
    intros k q Hk s.
    assert (Hlt : (k < length nodes)%nat) by (apply nth_error_Some; congruence).
    rewrite (Hin k s Hlt). split.
    + intros [r0 [H0 Hr]]. apply Hst in H0. destruct H0 as [i [Hi Heq]].
      apply Nat2Z.inj in Heq. subst i. congruence.
    + intros Hr. exists q. split; [|exact Hr]. apply Hst. now exists k.
Qed.

Lemma Bfs_nodes_reach_from_witness :
  length (Bfs_nodes Scenarios.scenario_B [3; 1]) = 2%nat /\
  forall s, In s (nth 1 (Bfs_nodes Scenarios.scenario_B [3; 1]) []) <->
            reach_from Scenarios.scenario_B 1 s.
Proof.
  destruct (Bfs_nodes_reach_from Scenarios.scenario_B [3; 1]
              (bok_range _ built_ok_scenario_B) (bok_shadow _ built_ok_scenario_B))
    as [H1 H2].
  - intros q [<-|[<-|[]]]; unfold in_range; simpl; lia.
  - split; [exact H1|]. exact (H2 1%nat 1 eq_refl).
Defined.

(* ------------------------------------------------------------------ *)
(** * What the constructor of the proxy caches *)

Lemma In_marked_pairs (n : Z) (M1 : list Z) : forall (M0 : list Z) acc m,
  In m (fold_left
          (fun acc q0 =>
             fold_left (fun acc' q1 => emplace (q1 * n + q0) acc') M1 acc)
          M0 acc) <->
  In m acc \/ exists q0 q1, In q0 M0 /\ In q1 M1 /\ m = q1 * n + q0.
Proof.
  induction M0 as [|q0 M0 IH]; intros acc m; simpl.
  - split; [tauto|]. intros [H|[q0 [q1 [[] _]]]]. exact H.
  - rewrite IH. rewrite (In_fold_emplace (fun q1 => q1 * n + q0)). split.
    + intros [[H|[q1 [H1 H2]]]|[q0' [q1 [H0 [H1 H2]]]]].
      * tauto.
      * right. exists q0, q1. auto.
      * right. exists q0', q1. auto.
    + intros [H|[q0' [q1 [[<-|H0] [H1 H2]]]]].
      * tauto.
      * left. right. exists q1. auto.
      * right. exists q0', q1. auto.
Qed.

(** X23. The constructor of the supervisor proxy caches, as the events
    private to the plant and to the specification, the set differences of
    the two alphabets, and, as marked states, the pairs of a marked state of
    the plant and a marked state of the specification, encoded as
    [q1 * S_P + q0]. *)
Theorem SuperProxy_new_caches NEvents fuel P E U sp :
  SuperProxy_new NEvents fuel P E U = Some sp ->
  (forall m, In m (sp_marked_states_ sp) <->
             exists q0 q1, In q0 (marked_states_ P) /\ In q1 (marked_states_ E) /\
                           m = q1 * states_number_ P + q0) /\
  (forall e, EventsSet.test (only_in_plant_ sp) e =
             EventsSet.test (events_ P) e && negb (EventsSet.test (events_ E) e)) /\
  (forall e, EventsSet.test (only_in_spec_ sp) e =
             EventsSet.test (events_ E) e && negb (EventsSet.test (events_ P) e)).
Proof.
  intros Hnew. unfold SuperProxy_new in Hnew.
  destruct (findRemovedStates_ NEvents fuel P E U) as [V|]; [|discriminate].
  inversion Hnew; subst sp; clear Hnew.
  cbn [sp_marked_states_ only_in_plant_ only_in_spec_].
  split; [|split].
  - intros m. rewrite In_marked_pairs. simpl. split; [intros [[]|H]; exact H|auto].
  - intros e. rewrite test_xor, test_inter.
    destruct (EventsSet.test (events_ P) e), (EventsSet.test (events_ E) e);
      reflexivity.
  - intros e. rewrite test_xor, test_inter.
    destruct (EventsSet.test (events_ P) e), (EventsSet.test (events_ E) e);
      reflexivity.
Qed.

Lemma SuperProxy_new_caches_witness :
  exists sp,
    SuperProxy_new 3 14 Scenarios.chain Scenarios.spec_loop [Scenarios.a] = Some sp /\
    forall e, EventsSet.test (only_in_plant_ sp) e =
              EventsSet.test (events_ Scenarios.chain) e
              && negb (EventsSet.test (events_ Scenarios.spec_loop) e).
Proof.
  destruct (SuperProxy_new 3 14 Scenarios.chain Scenarios.spec_loop [Scenarios.a])
    as [sp|] eqn:E; [|vm_compute in E; discriminate].
  exists sp. split; [reflexivity|].
  exact (proj1 (proj2 (SuperProxy_new_caches 3 14 Scenarios.chain
                         Scenarios.spec_loop [Scenarios.a] sp E))).
Defined.

(* ------------------------------------------------------------------ *)
(** * When [Trim] cuts *)

Lemma NoDup_range_states B : NoDup (range_states B).
Proof.
  unfold range_states.
  induction (seq_NoDup (Z.to_nat B) 0) as [|x l Hx _ IH]; simpl; constructor;
    [|exact IH].
  intro Hin. apply in_map_iff in Hin. destruct Hin as [y [Heq Hy]].
  apply Nat2Z.inj in Heq. congruence.
Qed.

Lemma length_range_states B : length (range_states B) = Z.to_nat B.
Proof. unfold range_states. now rewrite length_map, length_seq. Qed.

(** X24. On an automaton whose transitions join states, whose boolean
    shadow is stored as Bᵀ + I and whose initial and marked states are
    states: if every state is reached from the initial state and reaches a
    marked state, [Trim] returns the automaton unchanged; if some state is
    not, the result of [Trim] has as many states as there are trim states,
    fewer than before. *)
Theorem Trim_identity_or_cut (A : DESystem) :
  Sparse.rows (graph_ A) = states_number_ A ->
  graph_in_range A -> bit_graph_ok A -> init_ok A -> marked_ok A ->
  ((forall s, in_range A s -> reachable A s /\ coreachable A s) -> Trim A = A) /\
  (forall s, in_range A s -> ~ (reachable A s /\ coreachable A s) ->
             states_number_ (Trim A) = Z.of_nat (length (TrimStates A)) /\
             states_number_ (Trim A) < states_number_ A).
Proof.
  intros Hrows Hrange Hbit Hinit Hmarked.
  pose proof (TrimStates_trim_iff A Hrange Hbit Hinit Hmarked) as Htrim.
  pose proof (sorted_NoDup _ (TrimStates_sorted A)) as Hnd.
  pose proof (bit_graph_in_range_of_ok A Hbit) as Hbr.
  assert (Hincl : incl (TrimStates A) (range_states (states_number_ A))).
  { intros s Hs. apply In_range_states. now apply (TrimStates_in_range A Hbr). }
  assert (Hn : 0 <= states_number_ A) by (unfold init_ok, in_range in Hinit; lia).
  split.
  - intros Hall. apply trim_of_trim_automaton. rewrite Hrows.
    assert (Hle1 := NoDup_incl_length Hnd Hincl).
    assert (Hle2 : (length (range_states (states_number_ A))
                    <= length (TrimStates A))%nat).
    { apply NoDup_incl_length; [apply NoDup_range_states|].
      intros s Hs. apply In_range_states in Hs. apply Htrim. now apply Hall. }
    rewrite length_range_states in *. lia.
  - intros s Hs Hnot.
    assert (Hout : ~ In s (TrimStates A)) by (intro H; apply Hnot; now apply Htrim).
    assert (Hlt : (S (length (TrimStates A))
                   <= length (range_states (states_number_ A)))%nat).
    { apply (NoDup_incl_length (l := s :: TrimStates A)).
      - now constructor.
      - intros x [<-|Hx]; [now apply In_range_states|now apply Hincl]. }
    rewrite length_range_states in Hlt.
    assert (Hne : Z.of_nat (length (TrimStates A)) <> Sparse.rows (graph_ A))
      by (rewrite Hrows; lia).
    rewrite (states_number_Trim A Hne). split; [reflexivity|lia].
Qed.

Lemma Trim_identity_or_cut_witness :
  in_range Scenarios.scenario_B 3 /\
  ~ (reachable Scenarios.scenario_B 3 /\ coreachable Scenarios.scenario_B 3) /\
  states_number_ (Trim Scenarios.scenario_B) < states_number_ Scenarios.scenario_B.
Proof.
  assert (Hr : graph_in_range Scenarios.scenario_B) by apply built_ok_scenario_B.
  assert (Hb : bit_graph_ok Scenarios.scenario_B) by apply built_ok_scenario_B.
  assert (Hi : init_ok Scenarios.scenario_B) by (unfold init_ok, in_range; simpl; lia).
  assert (Hq : in_range Scenarios.scenario_B 3) by (unfold in_range; simpl; lia).
  assert (Hnot : ~ (reachable Scenarios.scenario_B 3
                    /\ coreachable Scenarios.scenario_B 3)).
  { intro H.
    apply (TrimStates_trim_iff Scenarios.scenario_B Hr Hb Hi marked_ok_scenario_B) in H.
    vm_compute in H. destruct H as [H|[H|[]]]; discriminate. }
  split; [exact Hq|]. split; [exact Hnot|].
  exact (proj2 (proj2 (Trim_identity_or_cut Scenarios.scenario_B eq_refl
                         Hr Hb Hi marked_ok_scenario_B) 3 Hq Hnot)).
Defined.

(* ------------------------------------------------------------------ *)
(** * A system fresh from the constructor *)

Lemma label_new n q0 M i j : label (DESystem_new n q0 M) i j = EventsSet.empty.
Proof. reflexivity. Qed.

(** X25. A system fresh from the constructor, with its initial and marked
    states among its [n] states, has no transition: [Trans] returns the
    sentinel everywhere, the accessible part is the initial state alone, the
    coaccessible part is the marked set, and the trim states are the initial
    state if it is marked and none otherwise. *)
Theorem new_system_has_no_transition (n q0 : Z) (M : StatesSet) :
  0 <= q0 < n -> (forall m, In m M -> 0 <= m < n) ->
  (forall q e, Trans (DESystem_new n q0 M) q e = -1) /\
  (forall s, In s (AccessiblePart (DESystem_new n q0 M)) <-> s = q0) /\
  (forall s, In s (CoaccessiblePart (DESystem_new n q0 M)) <-> In s M) /\
  (forall s, In s (TrimStates (DESystem_new n q0 M)) <-> s = q0 /\ In q0 M).
Proof.
  intros Hq0 HM.
  assert (Hb : built_ok (DESystem_new n q0 M)) by (apply built_ok_new; lia).
  assert (Hi : init_ok (DESystem_new n q0 M)) by exact Hq0.
  assert (Hm : marked_ok (DESystem_new n q0 M)) by exact HM.
  assert (Hacc : forall s, reachable (DESystem_new n q0 M) s <-> s = q0).
  { intros s. split.
    - induction 1 as [|i j _ _ He]; [reflexivity|].
      exfalso. apply He. apply label_new.
    - intros ->. apply (reach_init (DESystem_new n q0 M)). }
  assert (Hco : forall s, coreachable (DESystem_new n q0 M) s <-> In s M).
  { intros s. split.
    - induction 1 as [m Hin|i j He _ _]; [exact Hin|].
      exfalso. apply He. apply label_new.
    - intros Hin. now apply coreach_marked. }
  split; [|split; [|split]].
  - intros q e. unfold Trans. cbn [DESystem_new states_events_].
    now rewrite vec_get_repeat, test_empty.
  - intros s.
    rewrite (AccessiblePart_reachable _ (bok_range _ Hb) (bok_shadow _ Hb) Hi s).
    apply Hacc.
  - intros s.
    rewrite (CoaccessiblePart_coreachable _ (bok_range _ Hb) (bok_shadow _ Hb) Hm s).
    apply Hco.
  - intros s.
    rewrite (TrimStates_trim_iff _ (bok_range _ Hb) (bok_shadow _ Hb) Hi Hm s).
    rewrite Hacc, Hco. split; [intros [-> H]; auto|intros [-> H]; auto].
Qed.

Lemma new_system_has_no_transition_witness :
  In 1 (AccessiblePart (DESystem_new 3 1 [2])) /\
  ~ In 2 (AccessiblePart (DESystem_new 3 1 [2])) /\
  ~ In 1 (TrimStates (DESystem_new 3 1 [2])).
Proof.
  destruct (new_system_has_no_transition 3 1 [2]) as [_ [Hacc [_ Htrim]]].
  - lia.
  - intros m [<-|[]]. lia.
  - split; [now apply Hacc|]. split.
    + intro H. apply Hacc in H. discriminate.
    + intro H. apply Htrim in H. destruct H as [_ [H|[]]]. discriminate.
Defined.

(* ------------------------------------------------------------------ *)
(** * The backward search of the proxy *)

Lemma trim_push_spec V T l : forall f,
  exists P, trim_push V T l f = P ++ f /\
            forall x, In x P <-> In x l /\ contains V x = true
                                 /\ contains T x = false.
Proof.
  unfold trim_push. induction l as [|y l IH]; intros f; simpl.
  - exists []. split; [reflexivity|]. intros x. simpl. tauto.
  - destruct (contains V y) eqn:HV; [destruct (contains T y) eqn:HT|]; simpl.
    + destruct (IH f) as [P [-> HP]]. exists P. split; [reflexivity|].
      intros x. rewrite HP. split; [tauto|].
      intros [[->|H] [H1 H2]]; [congruence|tauto].
    + destruct (IH (y :: f)) as [P [-> HP]]. exists (P ++ [y]).
      split; [now rewrite <- app_assoc|].
      intros x. rewrite in_app_iff, HP. simpl. split.
      * intros [[H0 [H1 H2]]|[<-|[]]]; tauto.
      * intros [[->|H] [H1 H2]]; tauto.
    + destruct (IH f) as [P [-> HP]]. exists P. split; [reflexivity|].
      intros x. rewrite HP. split; [tauto|].
      intros [[->|H] [H1 H2]]; [congruence|tauto].
Qed.

Section TrimLoop.

Variable NEvents : nat.
Variable sp : SuperProxy.
Hypothesis Htot : forall q e, exists l, invtrans_impl sp q e = Some l.

Lemma trim_events_spec q T m : forall n k f,
  (m <= n)%nat ->
  exists P,
    trim_events n sp q k (N.ones (N.of_nat m)) T f = Some (P ++ f) /\
    forall x, In x P <->
              (exists e l, In e (seq k m) /\ invtrans_impl sp q e = Some l
                           /\ In x l)
              /\ contains (virtual_states_ sp) x = true
              /\ contains T x = false.
Proof.
  induction m as [|m IH]; intros n k f Hn.
  - exists []. split; [destruct n; reflexivity|].
    intros x. simpl. split; [tauto|]. intros [[e [l [[] _]]] _].
  - destruct n as [|n]; [lia|]. cbn [trim_events seq].
    rewrite ones_succ_any, ones_succ_test0, ones_succ_shr1.
    destruct (Htot q k) as [l Hl]. rewrite Hl. cbn [andb].
    assert (Hpush : exists P0,
               (if negb (match l with [] => true | _ => false end)
                then trim_push (virtual_states_ sp) T l f else f) = P0 ++ f /\
               forall x, In x P0 <-> In x l /\ contains (virtual_states_ sp) x = true
                                     /\ contains T x = false).
    { destruct l as [|y l]; cbn [negb].
      - exists []. split; [reflexivity|]. intros x; simpl; tauto.
      - apply trim_push_spec. }
    destruct Hpush as [P0 [-> HP0]].
    destruct (IH n (S k) (P0 ++ f)) as [P [-> HP]]; [lia|].
    exists (P ++ P0). split; [now rewrite <- app_assoc|].
    intros x. rewrite in_app_iff, HP, HP0. split.
    + intros [[[e [l' [He [Hl' Hx]]]] Hc]|[Hx Hc]].
      * split; [|exact Hc]. exists e, l'. simpl. auto.
      * split; [|exact Hc]. exists k, l. simpl. auto.
    + intros [[e [l' [[<-|He] [Hl' Hx]]]] Hc].
      * right. rewrite Hl in Hl'. inversion Hl'; subst. tauto.
      * left. split; [|exact Hc]. exists e, l'. auto.
Qed.

Lemma In_trim_preds q x :
  In x (trim_preds NEvents sp q) <->
  exists e l, In e (seq 0 NEvents) /\ invtrans_impl sp q e = Some l /\ In x l.
Proof.
  unfold trim_preds. rewrite in_flat_map. split.
  - intros [e [He Hx]]. destruct (invtrans_impl sp q e) as [l|] eqn:E;
      [|destruct Hx]. exists e, l. auto.
  - intros [e [l [He [Hl Hx]]]]. exists e. split; [exact He|]. now rewrite Hl.
Qed.

Lemma trim_events_all q T f :
  exists P,
    trim_events NEvents sp q 0%nat (EventsSet.set_all NEvents) T f = Some (P ++ f) /\
    forall x, In x P <-> In x (trim_preds NEvents sp q)
                         /\ contains (virtual_states_ sp) x = true
                         /\ contains T x = false.
Proof.
  destruct (trim_events_spec q T NEvents NEvents 0%nat f (Nat.le_refl _))
    as [P [HP Hin]].
  exists P. split; [exact HP|]. intros x. rewrite Hin, In_trim_preds. tauto.
Qed.

End TrimLoop.

(* ------------------------------------------------------------------ *)
(** * The search of [trim] returns *)

Lemma invtrans_impl_outside sp q e :
  ~ In q (virtual_states_ sp) -> invtrans_impl sp q e = Some [].
Proof.
  intros Hq. unfold invtrans_impl.
  destruct (contains (virtual_states_ sp) q) eqn:Hc;
    [apply contains_In in Hc; tauto|reflexivity].
Qed.

Lemma contains_false_In t q : contains t q = false <-> ~ In q t.
Proof. rewrite <- contains_In. destruct (contains t q); split; congruence. Qed.

Lemma untrimmed_insert V T q :
  (untrimmed V (insert q T) <= untrimmed V T)%nat.
Proof.
  unfold untrimmed. apply filter_length_mono.
  intros x _ Hx. apply negb_true_iff in Hx. apply negb_true_iff.
  rewrite contains_insert in Hx. apply orb_false_iff in Hx. tauto.
Qed.

Lemma untrimmed_insert_survivor V T q :
  In q V -> contains T q = false ->
  (untrimmed V (insert q T) < untrimmed V T)%nat.
Proof.
  intros HV HT. unfold untrimmed. apply filter_length_mono_strict.
  - intros x _ Hx. apply negb_true_iff in Hx. apply negb_true_iff.
    rewrite contains_insert in Hx. apply orb_false_iff in Hx. tauto.
  - exists q. split; [exact HV|]. rewrite HT.
    rewrite contains_insert, Z.eqb_refl. auto.
Qed.

Lemma trim_loop_nil NEvents fuel sp T : trim_loop NEvents fuel sp [] T = Some T.
Proof. destruct fuel; reflexivity. Qed.

Section TrimSearch.

Variable NEvents : nat.
Variable sp : SuperProxy.
Hypothesis Htot : forall q e, exists l, invtrans_impl sp q e = Some l.

Lemma trim_preds_outside q p :
  ~ In q (virtual_states_ sp) -> ~ In p (trim_preds NEvents sp q).
Proof.
  intros Hq Hp. apply In_trim_preds in Hp. destruct Hp as [e [l [_ [Hl Hp]]]].
  rewrite (invtrans_impl_outside sp q e Hq) in Hl. inversion Hl; subst.
  destruct Hp.
Qed.

Lemma trim_inv_step q f' T P :
  trim_inv NEvents sp (q :: f') T ->
  (forall x, In x P <-> In x (trim_preds NEvents sp q)
                        /\ contains (virtual_states_ sp) x = true
                        /\ contains (insert q T) x = false) ->
  trim_inv NEvents sp (P ++ f') (insert q T).
Proof.
  intros [I1 I2] HP.
  assert (Hq : forall p, In p (trim_preds NEvents sp q) ->
                         In p (virtual_states_ sp) ->
                         In p (insert q T) \/ In p P).
  { intros p Hp HV. destruct (contains (insert q T) p) eqn:Hc.
    - left. now apply contains_In.
    - right. apply HP. split; [exact Hp|]. split; [now apply contains_In|exact Hc]. }
  split.
  - intros x p Hx Hp HV. rewrite in_app_iff. apply In_insert in Hx.
    destruct Hx as [->|Hx].
    + destruct (Hq p Hp HV); tauto.
    + destruct (I1 x p Hx Hp HV) as [H|[<-|H]].
      * left. apply In_insert. tauto.
      * left. apply In_insert. tauto.
      * tauto.
  - intros g1 x g2 p Hsplit Hx Hp HV.
    assert (Hcase : exists h1, g1 = P ++ h1 /\ f' = h1 ++ x :: g2).
    { apply app_eq_app in Hsplit. destruct Hsplit as [l [[H1 H2]|[H1 H2]]].
      - destruct l as [|y l].
        + exists []. rewrite app_nil_r in H1. simpl in H2. subst.
          split; [now rewrite app_nil_r|reflexivity].
        + exfalso. simpl in H2. inversion H2; subst y.
          assert (HxP : In x P) by (rewrite H1, in_app_iff; simpl; tauto).
          apply HP in HxP. destruct HxP as [_ [_ Hc]].
          apply contains_false_In in Hc. tauto.
      - exists l. tauto. }
    destruct Hcase as [h1 [-> ->]]. rewrite in_app_iff.
    apply In_insert in Hx. destruct Hx as [->|Hx].
    + destruct (Hq p Hp HV); tauto.
    + destruct (I2 (q :: h1) x g2 p eq_refl Hx Hp HV) as [H|[<-|H]].
      * left. apply In_insert. tauto.
      * left. apply In_insert. tauto.
      * tauto.
Qed.

Lemma trim_inv_tail q f' T :
  trim_inv NEvents sp (q :: f') T ->
  (forall p, In p (trim_preds NEvents sp q) -> In p (virtual_states_ sp) ->
             In p (insert q T)) ->
  trim_inv NEvents sp f' (insert q T).
Proof.
  intros Hinv Hq.
  apply (trim_inv_step q f' T []) in Hinv; [exact Hinv|].
  intros x. simpl. split; [tauto|]. intros [Hp [HV Hc]].
  apply contains_false_In in Hc. apply Hc. apply Hq; [exact Hp|].
  now apply contains_In.
Qed.

Lemma trim_loop_returns : forall n f T,
  (untrimmed (virtual_states_ sp) T <= n)%nat ->
  trim_inv NEvents sp f T ->
  exists fuel T',
    (forall k, trim_loop NEvents (fuel + k) sp f T = Some T') /\
    trim_inv NEvents sp [] T' /\
    (forall x, In x T -> In x T') /\
    (forall x, In x f -> In x T').
Proof.
  induction n as [|n IHn];
    (induction f as [|q f' IHf]; intros T Hn Hinv;
     [exists 0%nat, T; split; [intros k; apply trim_loop_nil|]; split; [exact Hinv|];
      split; [auto|intros x []]|]);
    destruct (trim_events_all NEvents sp Htot q (insert q T) f') as [P [Hev HP]].
  - (* no surviving state is left out of the table *)
    assert (HP0 : P = []).
    { destruct P as [|x P]; [reflexivity|]. exfalso.
      destruct (proj1 (HP x) (or_introl eq_refl)) as [_ [HV Hc]].
      pose proof (untrimmed_insert (virtual_states_ sp) T q) as Hle.
      assert (Hz : untrimmed (virtual_states_ sp) (insert q T) = 0%nat) by lia.
      unfold untrimmed in Hz. apply length_zero_iff_nil in Hz.
      apply contains_In in HV.
      assert (Hin : In x (filter (fun s => negb (contains (insert q T) s))
                                 (virtual_states_ sp)))
        by (apply filter_In; split; [exact HV|now rewrite Hc]).
      rewrite Hz in Hin. destruct Hin. }
    subst P. simpl in Hev.
    destruct (IHf (insert q T)) as [fuel [T' [Hrun [Hinv' [HT Hf]]]]].
    + pose proof (untrimmed_insert (virtual_states_ sp) T q). lia.
    + apply (trim_inv_step q f' T [] Hinv HP).
    + exists (S fuel), T'. split; [intros k; simpl; rewrite Hev; apply Hrun|].
      split; [exact Hinv'|]. split.
      * intros x Hx. apply HT. apply In_insert. tauto.
      * intros x [<-|Hx]; [apply HT; apply In_insert; tauto|now apply Hf].
  - destruct (contains T q) eqn:HTq.
    + (* a copy of a state of the table: nothing is pushed *)
      assert (HP0 : P = []).
      { destruct P as [|x P]; [reflexivity|]. exfalso.
        destruct (proj1 (HP x) (or_introl eq_refl)) as [Hp [HV Hc]].
        apply contains_In in HTq, HV. apply contains_false_In in Hc.
        destruct Hinv as [_ I2].
        destruct (I2 [] q f' x eq_refl HTq Hp HV) as [H|[]].
        apply Hc. apply In_insert. tauto. }
      subst P. simpl in Hev.
      destruct (IHf (insert q T)) as [fuel [T' [Hrun [Hinv' [HT Hf]]]]].
      * pose proof (untrimmed_insert (virtual_states_ sp) T q). lia.
      * apply (trim_inv_step q f' T [] Hinv HP).
      * exists (S fuel), T'. split; [intros k; simpl; rewrite Hev; apply Hrun|].
        split; [exact Hinv'|]. split.
        -- intros x Hx. apply HT. apply In_insert. tauto.
        -- intros x [<-|Hx]; [apply HT; apply In_insert; tauto|now apply Hf].
    + destruct (in_dec Z.eq_dec q (virtual_states_ sp)) as [HV|HV].
      * (* a surviving state enters the table *)
        destruct (IHn (P ++ f') (insert q T)) as [fuel [T' [Hrun [Hinv' [HT Hf]]]]].
        -- pose proof (untrimmed_insert_survivor (virtual_states_ sp) T q HV HTq).
           lia.
        -- apply (trim_inv_step q f' T P Hinv HP).
        -- exists (S fuel), T'. split; [intros k; simpl; rewrite Hev; apply Hrun|].
           split; [exact Hinv'|]. split.
           ++ intros x Hx. apply HT. apply In_insert. tauto.
           ++ intros x [<-|Hx]; [apply HT; apply In_insert; tauto|].
              apply Hf. rewrite in_app_iff. tauto.
      * (* a state that did not survive: it has no predecessor *)
        assert (HP0 : P = []).
        { destruct P as [|x P]; [reflexivity|]. exfalso.
          destruct (proj1 (HP x) (or_introl eq_refl)) as [Hp _].
          exact (trim_preds_outside q x HV Hp). }
        subst P. simpl in Hev.
        destruct (IHf (insert q T)) as [fuel [T' [Hrun [Hinv' [HT Hf]]]]].
        -- pose proof (untrimmed_insert (virtual_states_ sp) T q). lia.
        -- apply (trim_inv_step q f' T [] Hinv HP).
        -- exists (S fuel), T'. split; [intros k; simpl; rewrite Hev; apply Hrun|].
           split; [exact Hinv'|]. split.
           ++ intros x Hx. apply HT. apply In_insert. tauto.
           ++ intros x [<-|Hx]; [apply HT; apply In_insert; tauto|now apply Hf].
Qed.

Lemma trim_inv_start m T :
  trim_inv NEvents sp [] T -> trim_inv NEvents sp [m] T.
Proof.
  intros [I1 _]. split.
  - intros x p Hx Hp HV. destruct (I1 x p Hx Hp HV) as [H|[]]. tauto.
  - intros f1 x f2 p Hsplit Hx Hp HV.
    destruct (I1 x p Hx Hp HV) as [H|[]]. tauto.
Qed.

Lemma trim_marked_returns ms : forall T,
  trim_inv NEvents sp [] T ->
  exists fuel T',
    (forall k, trim_marked NEvents (fuel + k) sp ms T = Some T') /\
    trim_inv NEvents sp [] T' /\
    (forall x, In x T -> In x T') /\
    (forall m, In m ms -> In m T').
Proof.
  induction ms as [|m ms IH]; intros T Hinv.
  - exists 0%nat, T. split; [reflexivity|]. split; [exact Hinv|].
    split; [auto|intros x []].
  - destruct (trim_loop_returns (untrimmed (virtual_states_ sp) T) [m] T
                (Nat.le_refl _) (trim_inv_start m T Hinv))
      as [fuel1 [T1 [Hrun1 [Hinv1 [HT1 Hf1]]]]].
    destruct (IH T1 Hinv1) as [fuel2 [T' [Hrun2 [Hinv' [HT2 Hm2]]]]].
    exists (fuel1 + fuel2)%nat, T'. split; [|split; [exact Hinv'|split]].
    + intros k. cbn [trim_marked].
      replace (fuel1 + fuel2 + k)%nat with (fuel1 + (fuel2 + k))%nat by lia.
      rewrite Hrun1.
      replace (fuel1 + (fuel2 + k))%nat with (fuel2 + (fuel1 + k))%nat by lia.
      apply Hrun2.
    + intros x Hx. auto.
    + intros x [<-|Hx]; [apply HT2, Hf1; now left|now apply Hm2].
Qed.

(** The table of the search lies inside every set that holds the states
    the search starts from and is closed under surviving predecessors. *)
Lemma trim_loop_least (X : Z -> Prop) :
  (forall x p, X x -> In p (trim_preds NEvents sp x) ->
               In p (virtual_states_ sp) -> X p) ->
  forall fuel f T T',
    trim_loop NEvents fuel sp f T = Some T' ->
    (forall x, In x T -> X x) -> (forall x, In x f -> X x) ->
    forall x, In x T' -> X x.
Proof.
  intros HX. induction fuel as [|fuel IH]; intros f T T'; destruct f as [|q f'];
    simpl; try discriminate;
    try solve [intros H HT _; inversion H; subst; exact HT].
  destruct (trim_events_all NEvents sp Htot q (insert q T) f') as [P [Hev HP]].
  rewrite Hev. intros Hrun HT Hf. apply (IH _ _ _ Hrun).
  - intros x Hx. apply In_insert in Hx. destruct Hx as [->|Hx]; [|now apply HT].
    apply Hf. now left.
  - intros x Hx. apply in_app_iff in Hx. destruct Hx as [Hx|Hx].
    + apply HP in Hx. destruct Hx as [Hp [HV _]]. apply contains_In in HV.
      apply (HX q x); [apply Hf; now left|exact Hp|exact HV].
    + apply Hf. now right.
Qed.

Lemma trim_marked_least (X : Z -> Prop) :
  (forall x p, X x -> In p (trim_preds NEvents sp x) ->
               In p (virtual_states_ sp) -> X p) ->
  forall fuel ms T T',
    trim_marked NEvents fuel sp ms T = Some T' ->
    (forall x, In x T -> X x) -> (forall m, In m ms -> X m) ->
    forall x, In x T' -> X x.
Proof.
  intros HX fuel. induction ms as [|m ms IH]; intros T T'; simpl.
  - intros H HT _. inversion H; subst. exact HT.
  - destruct (trim_loop NEvents fuel sp [m] T) as [T1|] eqn:E; [|discriminate].
    intros Hrun HT Hm. apply (IH _ _ Hrun).
    + apply (trim_loop_least X HX fuel [m] T T1 E HT).
      intros x [<-|[]]. apply Hm. now left.
    + intros x Hx. apply Hm. now right.
Qed.

End TrimSearch.

Lemma invtrans_impl_returns NEvents fuel P E U sp :
  transitions_ok P -> transitions_ok E ->
  inverse_table_ok P -> inverse_table_ok E ->
  SuperProxy_new NEvents fuel P E U = Some sp ->
  forall q e, exists l, invtrans_impl (allocateInvertedGraph_impl sp) q e = Some l.
Proof.
  intros HP HE HPl HEl Hnew q e.
  destruct (in_dec Z.eq_dec q (virtual_states_ sp)) as [Hq|Hq];
    [|exists []; now apply invtrans_impl_outside].
  unfold SuperProxy_new in Hnew.
  destruct (findRemovedStates_ NEvents fuel P E U) as [V|] eqn:Hfind;
    [|discriminate].
  inversion Hnew; subst sp; clear Hnew. cbn [virtual_states_] in Hq.
  destruct (findRemovedStates_product NEvents P E HP HE U fuel V Hfind)
    as [Hall _].
  rewrite Forall_forall in Hall. destruct (Hall q Hq) as [Hrange _].
  destruct (product_state_parts P E HP q Hrange) as [Hx Hy].
  unfold invtrans_impl, allocateInvertedGraph_impl.
  cbn [virtual_states_ sp_events_ sys0_ sys1_ n_states_sys0_ only_in_plant_
       only_in_spec_].
  rewrite (ContainsInvTrans_in_range (AllocateInvertedGraph P) _ e HPl Hx).
  rewrite (ContainsInvTrans_in_range (AllocateInvertedGraph E) _ e HEl Hy).
  change (InvTrans (AllocateInvertedGraph (AllocateInvertedGraph P)))
    with (InvTrans (AllocateInvertedGraph P)).
  change (InvTrans (AllocateInvertedGraph (AllocateInvertedGraph E)))
    with (InvTrans (AllocateInvertedGraph E)).
  rewrite (InvTrans_in_range P _ e HPl Hx), (InvTrans_in_range E _ e HEl Hy).
  destruct (negb (contains V q) || negb (EventsSet.test _ e));
    [eexists; reflexivity|].
  destruct (negb _); [eexists; reflexivity|].
  destruct (_ && _); [eexists; reflexivity|].
  destruct (EventsSet.test _ e); eexists; reflexivity.
Qed.

(** X26. On the proxy made by the constructor, with the inverse graphs
    allocated, [trim] returns, given enough fuel; the table it leaves holds
    every marked state of the proxy, whether that state had survived or not;
    it holds every surviving state that [invtrans] returns at one of its
    states; and it is the least such table.  The number of states is the size
    of the table. *)
Theorem trim_least_closed_table NEvents fuel0 P E U sp :
  transitions_ok P -> transitions_ok E ->
  inverse_table_ok P -> inverse_table_ok E ->
  SuperProxy_new NEvents fuel0 P E U = Some sp ->
  exists fuel sp',
    (forall fuel', (fuel <= fuel')%nat ->
                   trim NEvents fuel' (allocateInvertedGraph_impl sp) = Some sp') /\
    sp_states_number_ sp' = Z.of_nat (length (virtual_states_ sp')) /\
    (forall m, In m (sp_marked_states_ sp) -> In m (virtual_states_ sp')) /\
    (forall x p, In x (virtual_states_ sp') ->
                 In p (trim_preds NEvents (allocateInvertedGraph_impl sp) x) ->
                 In p (virtual_states_ sp) -> In p (virtual_states_ sp')) /\
    (forall X : Z -> Prop,
        (forall m, In m (sp_marked_states_ sp) -> X m) ->
        (forall x p, X x ->
                     In p (trim_preds NEvents (allocateInvertedGraph_impl sp) x) ->
                     In p (virtual_states_ sp) -> X p) ->
        forall x, In x (virtual_states_ sp') -> X x).
Proof.
  intros HP HE HPl HEl Hnew.
  pose proof (invtrans_impl_returns NEvents fuel0 P E U sp HP HE HPl HEl Hnew)
    as Htot.
  set (spa := allocateInvertedGraph_impl sp) in *.
  assert (Hstart : trim_inv NEvents spa [] []).
  { split; [intros x p []|intros f1 x f2 p _ []]. }
  destruct (trim_marked_returns NEvents spa Htot (sp_marked_states_ spa) []
              Hstart) as [fuel [T' [Hrun [[Hclosed _] [_ Hm]]]]].
  eexists fuel, _. split; [|split; [|split; [|split]]].
  - intros fuel' Hle. unfold trim.
    replace fuel' with (fuel + (fuel' - fuel))%nat by lia.
    rewrite Hrun. reflexivity.
  - reflexivity.
  - exact Hm.
  - cbn [virtual_states_]. intros x p Hx Hp HV.
    destruct (Hclosed x p Hx Hp HV) as [H|[]]. exact H.
  - cbn [virtual_states_]. intros X HXm HXp x Hx.
    apply (trim_marked_least NEvents spa Htot X HXp fuel
             (sp_marked_states_ spa) [] T'); auto.
    + specialize (Hrun 0%nat). now rewrite Nat.add_0_r in Hrun.
    + intros y [].
Qed.

Lemma trim_least_closed_table_witness :
  exists sp,
    SuperProxy_new 3 5 (DESystem_new 2 0 [1]) (DESystem_new 1 0 [0]) [] = Some sp /\
    In 1 (sp_marked_states_ sp) /\ ~ In 1 (virtual_states_ sp) /\
    exists fuel sp',
      trim 3 fuel (allocateInvertedGraph_impl sp) = Some sp' /\
      In 1 (virtual_states_ sp').
Proof.
  destruct (SuperProxy_new 3 5 (DESystem_new 2 0 [1]) (DESystem_new 1 0 [0]) [])
    as [sp|] eqn:E; [|vm_compute in E; discriminate].
  exists sp. split; [reflexivity|].
  assert (Hm : In 1 (sp_marked_states_ sp)).
  { pose proof E as E'. vm_compute in E'. injection E' as <-. simpl. tauto. }
  assert (Hv : ~ In 1 (virtual_states_ sp)).
  { pose proof E as E'. vm_compute in E'. injection E' as <-. simpl.
    intros [H|[]]. discriminate. }
  split; [exact Hm|]. split; [exact Hv|].
  destruct (trim_least_closed_table 3 5 (DESystem_new 2 0 [1])
              (DESystem_new 1 0 [0]) [] sp)
    as [fuel [sp' [Hrun [_ [Hmarked _]]]]].
  - apply (transitions_ok_built 2 0 [1] []); [lia|constructor].
  - apply (transitions_ok_built 1 0 [0] []); [lia|constructor].
  - reflexivity.
  - reflexivity.
  - exact E.
  - exists fuel, sp'. split; [apply Hrun; lia|now apply Hmarked].
Defined.
